(** * document-tree-editor: the tree editor of [src/index.js]

    The editor keeps its tree in the page itself: every branch is an
    [<li>] whose first element child is a text [<input>] (the label) and
    whose last element child is, once the branch has children, a [<ul>]
    with the child branches.  The root is the input [#root]; its child
    list is the [<ul>] [#listEntry].

    This file embeds the editor object ([toString], [render], [update],
    [addSibling], [addChild], [moveBranch], [deleteBranch], [clear],
    [_positionContextMenu], [_moveBranch], the hover handlers, the
    listener bookkeeping and [_prefix]) and the [prefix] object.  The
    second copy of the program in the sources ([treeToString],
    [prefixer], [doMoveBranch], ...) is the same code written as free
    functions; [prefixer] is [_prefix] with the token names [node],
    [node_last], [spacer_line].

    Left out: CSS class names and geometry (they decide nothing), the
    clipboard, the demo button and the folder drop (asynchronous file
    system callbacks). *)

From Stdlib Require Import Ascii String List Arith Bool Lia.
From Stdlib Require Import Permutation.
Import ListNotations.

Local Open Scope list_scope.
Set Warnings "-register-all".

(** ** Strings

    A JavaScript string is a sequence of code units; the model keeps the
    code units below 256, one [ascii] each. *)

Definition jsstring := list ascii.

Definition str (s : string) : jsstring := list_ascii_of_string s.

Definition LF : ascii := ascii_of_nat 10.
Definition SP : ascii := ascii_of_nat 32.

(** [a || b] on strings: the empty string is the only falsy one. *)
Definition js_or (a b : jsstring) : jsstring :=
  match a with
  | [] => b
  | _ :: _ => a
  end.

(** [Array.prototype.join('')]. *)
Definition join (spacers : list jsstring) : jsstring := concat spacers.

(** White space and line terminators of [String.prototype.trim], among
    the code units below 256: TAB, LF, VT, FF, CR, SP and NBSP. *)
Definition is_ws (c : ascii) : bool :=
  let n := nat_of_ascii c in
  ((9 <=? n) && (n <=? 13)) || (n =? 32) || (n =? 160).

Fixpoint trimStart (s : jsstring) : jsstring :=
  match s with
  | [] => []
  | c :: r => if is_ws c then trimStart r else s
  end.

Definition trimEnd (s : jsstring) : jsstring := rev (trimStart (rev s)).

Definition trim (s : jsstring) : jsstring := trimEnd (trimStart s).

(** ** The [prefix] object *)

Record prefix_tokens := {
  branch : jsstring;
  branch_last : jsstring;
  spacer_branch : jsstring;
  spacer_empty : jsstring
}.

(** The tokens as declared; [prefix._handleChange] overwrites a field
    with what the user typed in the matching input. *)
Definition prefix : prefix_tokens := {|
  branch := str "|--";
  branch_last := str "\--";
  spacer_branch := str "|   ";
  spacer_empty := str "    "
|}.

(** ** Page elements *)

(** A text input.  [hasListeners] is [dataset.hasListeners], set exactly
    while the hover listeners are attached.  [clickListeners] counts the
    click listeners bound to [_moveBranch] that are attached, and
    [clickListener] tells whether the function stored in the property
    [clickListener] is one of them. *)
Record input := {
  value : jsstring;
  placeholder : jsstring;
  hasListeners : bool;
  clickListeners : nat;
  clickListener : bool
}.

(** A branch: [li_id] stands for the identity of the element,
    [dataset_prefix] is [dataset.prefix], [li_ul] the children of its
    [<ul>] when it has one. *)
Inductive li : Type :=
  Li (li_id : nat) (li_input : input) (dataset_prefix : option jsstring)
     (li_ul : option (list li)).

Definition li_id (n : li) : nat := let (i, _, _, _) := n in i.
Definition li_input (n : li) : input := let (_, i, _, _) := n in i.
Definition dataset_prefix (n : li) : option jsstring := let (_, _, d, _) := n in d.
Definition li_ul (n : li) : option (list li) := let (_, _, _, u) := n in u.

(** The child sequence of a branch: empty when it has no [<ul>]. *)
Definition children (n : li) : list li :=
  match li_ul n with
  | Some k => k
  | None => []
  end.

(** [newNode.input], and [newNode.li] with that input appended
    ([li.appendChild(newNode.input)]); [id] stands for the new element. *)
Definition newNode_input : input := {|
  value := [];
  placeholder := str "Directory or File Name";
  hasListeners := false;
  clickListeners := 0;
  clickListener := false
|}.

Definition newNode_li (id : nat) : li := Li id newNode_input None None.

(** ** [_prefix]

    [processor] is called with the item and its prefix string and may
    change a state [S] (the closure variable [tree] of [toString], the
    page for [render]).  The loop runs over the array [items] taken
    before the first call; [last] is [i === l - 1].  [arr] is the copy
    [spacers.slice()] with one more entry; [spacers] itself is never
    written.  The body of the loop is [_prefix_item], the loop
    [_prefix_loop]; inside [_prefix_item] the loop over the nested list is
    written out once more, as the recursion goes through it. *)
Section Prefix.

Variable cfg : prefix_tokens.
Context {S : Type}.
Variable processor : li -> jsstring -> S -> S.

Fixpoint _prefix_item (depth : nat) (spacers : list jsstring) (last : bool)
    (activeItem : li) (s : S) {struct activeItem} : S :=
  match activeItem with
  | Li _ _ _ nextList =>
      let s1 :=
        processor activeItem
          (join spacers ++ (if last then branch_last cfg else branch cfg)) s in
      match nextList with
      | Some items =>
          let arr :=
            spacers ++ [if last then spacer_empty cfg else spacer_branch cfg] in
          let l := length items in
          (fix loop (rest : list li) (i : nat) (s : S) {struct rest} : S :=
             match rest with
             | [] => s
             | item :: rest' =>
                 loop rest' (i + 1)
                   (_prefix_item (depth + 1) arr (i =? l - 1) item s)
             end) items 0 s1
      | None => s1
      end
  end.

Fixpoint _prefix_loop (depth : nat) (spacers : list jsstring) (l : nat)
    (rest : list li) (i : nat) (s : S) {struct rest} : S :=
  match rest with
  | [] => s
  | item :: rest' =>
      _prefix_loop depth spacers l rest' (i + 1)
        (_prefix_item depth spacers (i =? l - 1) item s)
  end.

Definition _prefix (items : list li) (depth : nat) (spacers : list jsstring)
    (s : S) : S :=
  _prefix_loop depth spacers (length items) items 0 s.

End Prefix.

Arguments _prefix_item cfg {S} processor depth spacers last activeItem s.
Arguments _prefix_loop cfg {S} processor depth spacers l rest i s.
Arguments _prefix cfg {S} processor items depth spacers s.

(** The label shown for an input: [input.value || input.placeholder]. *)
Definition label (i : input) : jsstring := js_or (value i) (placeholder i).

(** ** The traversal seen from outside

    [calls] is [_prefix] run with a processor that records each call. *)
Definition calls (cfg : prefix_tokens) (items : list li) (depth : nat)
    (spacers : list jsstring) : list (li * jsstring) :=
  _prefix cfg (fun item p acc => acc ++ [(item, p)]) items depth spacers [].

(** ** Operations on the tree by element identity *)

Definition eq_id (id : nat) (n : li) : bool := li_id n =? id.

(** Is the element [id] a branch of the forest [f]? *)
Fixpoint inside_li (id : nat) (n : li) {struct n} : bool :=
  match n with
  | Li j _ _ ul =>
      (j =? id) ||
      match ul with
      | Some k => existsb (inside_li id) k
      | None => false
      end
  end.

Definition inside (id : nat) (f : list li) : bool := existsb (inside_li id) f.

(** The branch [id] of the forest, with everything below it. *)
Fixpoint find_li (id : nat) (n : li) {struct n} : option li :=
  match n with
  | Li j _ _ ul =>
      if j =? id then Some n
      else
        match ul with
        | Some k =>
            (fix first (l : list li) : option li :=
               match l with
               | [] => None
               | x :: r =>
                   match find_li id x with
                   | Some m => Some m
                   | None => first r
                   end
               end) k
        | None => None
        end
  end.

Fixpoint find (id : nat) (f : list li) : option li :=
  match f with
  | [] => None
  | x :: r =>
      match find_li id x with
      | Some m => Some m
      | None => find id r
      end
  end.

(** [parentNode.removeChild(branch)]: the branch leaves the list that
    holds it; an emptied [<ul>] stays. *)
Fixpoint removeChild_li (id : nat) (n : li) {struct n} : li :=
  match n with
  | Li j inp d ul =>
      Li j inp d
        match ul with
        | Some k =>
            Some (filter (fun x => negb (eq_id id x)) (map (removeChild_li id) k))
        | None => None
        end
  end.

Definition removeChild (id : nat) (f : list li) : list li :=
  filter (fun x => negb (eq_id id x)) (map (removeChild_li id) f).

(** [g] applied to the branch [id]. *)
Fixpoint modify_li (id : nat) (g : li -> li) (n : li) {struct n} : li :=
  match n with
  | Li j inp d ul =>
      if j =? id then g n
      else
        Li j inp d
          match ul with
          | Some k => Some (map (modify_li id g) k)
          | None => None
          end
  end.

Definition modify (id : nat) (g : li -> li) (f : list li) : list li :=
  map (modify_li id g) f.

(** [branch.parentNode.appendChild(item)]: [item] becomes the last
    element of the list that holds the branch [id]. *)
Fixpoint appendSibling_li (id : nat) (item : li) (n : li) {struct n} : li :=
  match n with
  | Li j inp d ul =>
      Li j inp d
        match ul with
        | Some k =>
            let k' := map (appendSibling_li id item) k in
            Some (if existsb (eq_id id) k then k' ++ [item] else k')
        | None => None
        end
  end.

Definition appendSibling (id : nat) (item : li) (f : list li) : list li :=
  let f' := map (appendSibling_li id item) f in
  if existsb (eq_id id) f then f' ++ [item] else f'.

(** [ul = branch.lastElementChild; if (ul.tagName !== 'UL')
    branch.appendChild(ul = newNode.ul); ul.appendChild(item)]. *)
Definition appendChild_li (item : li) (n : li) : li :=
  match n with
  | Li j inp d ul =>
      Li j inp d
        match ul with
        | Some k => Some (k ++ [item])
        | None => Some [item]
        end
  end.

(** [item.dataset.prefix = p] on the element [id]. *)
Fixpoint set_dataset_prefix_li (id : nat) (p : jsstring) (n : li) {struct n} : li :=
  match n with
  | Li j inp d ul =>
      Li j inp (if j =? id then Some p else d)
        match ul with
        | Some k => Some (map (set_dataset_prefix_li id p) k)
        | None => None
        end
  end.

Definition set_dataset_prefix (id : nat) (p : jsstring) (f : list li) : list li :=
  map (set_dataset_prefix_li id p) f.

(** [g] applied to every input of a branch and below it
    ([parent.querySelectorAll('input')]). *)
Fixpoint map_inputs (g : input -> input) (n : li) {struct n} : li :=
  match n with
  | Li j inp d ul =>
      Li j (g inp) d
        match ul with
        | Some k => Some (map (map_inputs g) k)
        | None => None
        end
  end.

Definition set_hasListeners (b : bool) (i : input) : input := {|
  value := value i;
  placeholder := placeholder i;
  hasListeners := b;
  clickListeners := clickListeners i;
  clickListener := clickListener i
|}.

(** The setter of [input.value]: a text input drops line breaks. *)
Definition is_newline (c : ascii) : bool :=
  (nat_of_ascii c =? 10) || (nat_of_ascii c =? 13).

Definition set_value (v : jsstring) (i : input) : input := {|
  value := filter (fun c => negb (is_newline c)) v;
  placeholder := placeholder i;
  hasListeners := hasListeners i;
  clickListeners := clickListeners i;
  clickListener := clickListener i
|}.

(** [addEventListener('click', currentTarget.clickListener = ...)]. *)
Definition add_clickListener (i : input) : input := {|
  value := value i;
  placeholder := placeholder i;
  hasListeners := hasListeners i;
  clickListeners := clickListeners i + 1;
  clickListener := true
|}.

(** [removeEventListener('click', currentTarget.clickListener)]: only the
    function stored last can go, and only once. *)
Definition remove_clickListener (i : input) : input := {|
  value := value i;
  placeholder := placeholder i;
  hasListeners := hasListeners i;
  clickListeners := if clickListener i then clickListeners i - 1 else clickListeners i;
  clickListener := false
|}.

Definition with_input (g : input -> input) (n : li) : li :=
  match n with
  | Li j inp d ul => Li j (g inp) d ul
  end.

(** ** The editor object *)

(** A branch as the code refers to it: the element that holds [#root]
    ([root.parentNode]; its last element child is [#listEntry]) or an
    [<li>] of the tree. *)
Inductive ref : Type :=
| RootBranch
| Branch (id : nat).

(** [contextMenu]: whether [el] has the class [active], and whether the
    [display] style of an entry is something else than ['none']. *)
Record contextMenu_t := {
  el_active : bool;
  addSibling_display : bool;
  moveBranch_display : bool;
  deleteBranch_display : bool
}.

(** [outer] lists what the editor appended to the parent element of the
    root branch; the page around the editor is not part of the sources,
    and nothing here looks into [outer] again.  [nextId] numbers the
    elements made by [document.createElement]. *)
Record editor := {
  root : input;
  listEntry : list li;
  outer : list li;
  nextId : nat;
  delayUpdate : bool;
  inMoveState : bool;
  activeBranch : option ref;
  contextMenu : contextMenu_t
}.

Definition with_root (i : input) (e : editor) : editor := {|
  root := i; listEntry := listEntry e; outer := outer e; nextId := nextId e;
  delayUpdate := delayUpdate e; inMoveState := inMoveState e;
  activeBranch := activeBranch e; contextMenu := contextMenu e
|}.

Definition with_listEntry (f : list li) (e : editor) : editor := {|
  root := root e; listEntry := f; outer := outer e; nextId := nextId e;
  delayUpdate := delayUpdate e; inMoveState := inMoveState e;
  activeBranch := activeBranch e; contextMenu := contextMenu e
|}.

Definition with_outer (f : list li) (e : editor) : editor := {|
  root := root e; listEntry := listEntry e; outer := f; nextId := nextId e;
  delayUpdate := delayUpdate e; inMoveState := inMoveState e;
  activeBranch := activeBranch e; contextMenu := contextMenu e
|}.

Definition with_nextId (n : nat) (e : editor) : editor := {|
  root := root e; listEntry := listEntry e; outer := outer e; nextId := n;
  delayUpdate := delayUpdate e; inMoveState := inMoveState e;
  activeBranch := activeBranch e; contextMenu := contextMenu e
|}.

Definition with_inMoveState (b : bool) (e : editor) : editor := {|
  root := root e; listEntry := listEntry e; outer := outer e; nextId := nextId e;
  delayUpdate := delayUpdate e; inMoveState := b;
  activeBranch := activeBranch e; contextMenu := contextMenu e
|}.

Definition with_activeBranch (b : option ref) (e : editor) : editor := {|
  root := root e; listEntry := listEntry e; outer := outer e; nextId := nextId e;
  delayUpdate := delayUpdate e; inMoveState := inMoveState e;
  activeBranch := b; contextMenu := contextMenu e
|}.

Definition with_contextMenu (m : contextMenu_t) (e : editor) : editor := {|
  root := root e; listEntry := listEntry e; outer := outer e; nextId := nextId e;
  delayUpdate := delayUpdate e; inMoveState := inMoveState e;
  activeBranch := activeBranch e; contextMenu := m
|}.

(** What a call leaves behind: it returns, it throws (the page stays as
    it is at the throw), or it acts on elements that are not in the tree
    under [#root] any more (a detached branch, the root branch taken out
    of the page), which this model does not follow. *)
Inductive outcome (A : Type) : Type :=
| Returns (a : A) (e : editor)
| Throws (e : editor)
| Untracked.

Arguments Returns {A} a e.
Arguments Throws {A} e.
Arguments Untracked {A}.

(** *** [toString] and [render] *)

Definition toString (cfg : prefix_tokens) (e : editor) : jsstring :=
  let tree := label (root e) in
  let tree :=
    _prefix cfg
      (fun item prefix tree =>
         let input := li_input item in
         tree ++ LF :: prefix ++ SP :: label input)
      (listEntry e) 0 [] tree in
  trim tree.

(** The processor of [render] writes on the page while [_prefix] walks
    it; the state is the content of [#listEntry]. *)
Definition render_list (cfg : prefix_tokens) (f : list li) : list li :=
  _prefix cfg (fun item prefix page => set_dataset_prefix (li_id item) prefix page)
    f 0 [] f.

Definition render (cfg : prefix_tokens) (e : editor) : editor :=
  with_listEntry (render_list cfg (listEntry e)) e.

(** *** Listeners *)

(** [_addMenuListeners()]: every input of the editor gets the hover
    listeners unless [dataset.hasListeners] says it has them. *)
Definition _addMenuListeners (e : editor) : editor :=
  with_root (set_hasListeners true (root e))
    (with_listEntry (map (map_inputs (set_hasListeners true)) (listEntry e)) e).

(** [_removeMenuListeners(parent)]: the inputs inside [parent] lose
    them. *)
Definition _removeMenuListeners (parent : ref) (e : editor) : editor :=
  match parent with
  | RootBranch =>
      with_root (set_hasListeners false (root e))
        (with_listEntry (map (map_inputs (set_hasListeners false)) (listEntry e)) e)
  | Branch id =>
      with_listEntry
        (modify id (map_inputs (set_hasListeners false)) (listEntry e)) e
  end.

Definition update (cfg : prefix_tokens) (e : editor) : editor :=
  if delayUpdate e then e else render cfg (_addMenuListeners e).

(** *** The menu actions *)

Definition addSibling (cfg : prefix_tokens) (branch : ref) (e : editor)
    : outcome li :=
  let li := newNode_li (nextId e) in
  match branch with
  | RootBranch =>
      Returns li
        (update cfg (with_nextId (nextId e + 1) (with_outer (outer e ++ [li]) e)))
  | Branch id =>
      if inside id (listEntry e) then
        Returns li
          (update cfg
             (with_nextId (nextId e + 1)
                (with_listEntry (appendSibling id li (listEntry e)) e)))
      else Untracked
  end.

Definition addChild (cfg : prefix_tokens) (branch : ref) (e : editor)
    : outcome li :=
  let li := newNode_li (nextId e) in
  match branch with
  | RootBranch =>
      Returns li
        (update cfg
           (with_nextId (nextId e + 1) (with_listEntry (listEntry e ++ [li]) e)))
  | Branch id =>
      if inside id (listEntry e) then
        Returns li
          (update cfg
             (with_nextId (nextId e + 1)
                (with_listEntry (modify id (appendChild_li li) (listEntry e)) e)))
      else Untracked
  end.

Definition moveBranch (branch : ref) (e : editor) : outcome unit :=
  match branch with
  | RootBranch =>
      Returns tt (_removeMenuListeners branch (with_inMoveState true e))
  | Branch id =>
      if inside id (listEntry e) then
        Returns tt (_removeMenuListeners branch (with_inMoveState true e))
      else Untracked
  end.

Definition hide_menu (e : editor) : editor :=
  with_contextMenu
    {| el_active := false;
       addSibling_display := addSibling_display (contextMenu e);
       moveBranch_display := moveBranch_display (contextMenu e);
       deleteBranch_display := deleteBranch_display (contextMenu e) |} e.

Definition deleteBranch (cfg : prefix_tokens) (branch : ref) (e : editor)
    : outcome unit :=
  match branch with
  | RootBranch => Untracked
  | Branch id =>
      if inside id (listEntry e) then
        Returns tt
          (update cfg
             (hide_menu (with_listEntry (removeChild id (listEntry e)) e)))
      else Untracked
  end.

(** [while (children.length) list.removeChild(children[0])]. *)
Fixpoint clear_loop (children : list li) : list li :=
  match children with
  | [] => children
  | _ :: rest => clear_loop rest
  end.

Definition clear (e : editor) : editor :=
  with_listEntry (clear_loop (listEntry e)) e.

(** *** Hovering and moving *)

(** [target] is an input, named by the branch that holds it;
    [target.id === 'root'] picks the root input. *)
Definition _positionContextMenu (target : ref) (e : editor) : editor :=
  let shown :=
    match target with
    | RootBranch => false
    | Branch _ => true
    end in
  with_contextMenu
    {| el_active := true;
       addSibling_display := shown;
       moveBranch_display := shown;
       deleteBranch_display := shown |}
    (with_activeBranch (Some target) e).

Definition on_input (target : ref) (g : input -> input) (e : editor) : editor :=
  match target with
  | RootBranch => with_root (g (root e)) e
  | Branch id => with_listEntry (modify id (with_input g) (listEntry e)) e
  end.

Definition input_of (target : ref) (e : editor) : option input :=
  match target with
  | RootBranch => Some (root e)
  | Branch id => option_map li_input (find id (listEntry e))
  end.

(** [_moveBranch].  With no active branch the first DOM call throws.
    With the root branch as the active branch the code takes the root
    branch out of the page, and with an active branch or a destination
    that has left the tree it throws at [removeChild] or acts among
    detached elements: these calls are [Untracked]; what they write to
    the editor object is covered by [handled] below. *)
Definition _moveBranch (cfg : prefix_tokens) (currentTarget : ref) (e : editor)
    : outcome unit :=
  let dest := currentTarget in
  match activeBranch e with
  | None => Throws e
  | Some RootBranch => Untracked
  | Some (Branch a) =>
      match find a (listEntry e) with
      | None => Untracked
      | Some activeBranch =>
          let removed := removeChild a (listEntry e) in
          let finish f :=
            Returns tt (update cfg (with_inMoveState false (with_listEntry f e))) in
          match dest with
          | RootBranch => finish (removed ++ [activeBranch])
          | Branch d =>
              if inside_li d activeBranch then
                Throws (with_listEntry removed e)
              else if inside d removed then
                finish (modify d (appendChild_li activeBranch) removed)
              else Untracked
          end
      end
  end.

Definition _handleBranchMouseOver (currentTarget : ref) (e : editor) : editor :=
  if inMoveState e then on_input currentTarget add_clickListener e
  else _positionContextMenu currentTarget e.

(** Outside the move state the handler only starts the timer that hides
    the menu a second later; see [menu_hides] below. *)
Definition _handleBranchMouseOut (currentTarget : ref) (e : editor) : editor :=
  if inMoveState e then on_input currentTarget remove_clickListener e
  else e.

(** *** Events

    What the browser delivers to the listeners the editor registered.  A
    hover event reaches [_handleBranchMouseOver] or
    [_handleBranchMouseOut] only while the input carries the hover
    listeners; a click on an input runs [_moveBranch] once for every
    click listener attached to it, and a listener that throws does not
    stop the next one; a menu entry can be clicked while the menu is
    shown and the entry is displayed.  [menu_hides] is the callback of
    the timer started by [_hideContextMenu]; when it fires is not
    modelled. *)
Inductive event : Type :=
| mouseover (target : ref)
| mouseout (target : ref)
| click (target : ref)
| click_addSibling
| click_addChild
| click_moveBranch
| click_deleteBranch
| click_clear
| menu_hides
| type_value (target : ref) (v : jsstring).

Definition settle {A : Type} (o : outcome A) : option editor :=
  match o with
  | Returns _ e => Some e
  | Throws e => Some e
  | Untracked => None
  end.

Fixpoint dispatch_click (cfg : prefix_tokens) (listeners : nat) (target : ref)
    (e : editor) : option editor :=
  match listeners with
  | 0 => Some e
  | S n =>
      match settle (_moveBranch cfg target e) with
      | Some e' => dispatch_click cfg n target e'
      | None => None
      end
  end.

(** The wrappers registered in [watch]:
    [event => this.addSibling(this.activeBranch)] and the like. *)
Definition menu_addSibling (cfg : prefix_tokens) (e : editor) : outcome li :=
  match activeBranch e with
  | Some b => addSibling cfg b e
  | None => Throws e
  end.

Definition menu_addChild (cfg : prefix_tokens) (e : editor) : outcome li :=
  match activeBranch e with
  | Some b => addChild cfg b e
  | None => Throws e
  end.

Definition menu_moveBranch (e : editor) : outcome unit :=
  match activeBranch e with
  | Some b => moveBranch b e
  | None => Throws (with_inMoveState true e)
  end.

Definition menu_deleteBranch (cfg : prefix_tokens) (e : editor) : outcome unit :=
  match activeBranch e with
  | Some b => deleteBranch cfg b e
  | None => Throws e
  end.

Definition step (cfg : prefix_tokens) (ev : event) (e : editor) : option editor :=
  match ev with
  | mouseover t =>
      match input_of t e with
      | Some i => Some (if hasListeners i then _handleBranchMouseOver t e else e)
      | None => Some e
      end
  | mouseout t =>
      match input_of t e with
      | Some i => Some (if hasListeners i then _handleBranchMouseOut t e else e)
      | None => Some e
      end
  | click t =>
      match input_of t e with
      | Some i => dispatch_click cfg (clickListeners i) t e
      | None => Some e
      end
  | click_addSibling =>
      if el_active (contextMenu e) && addSibling_display (contextMenu e)
      then settle (menu_addSibling cfg e) else Some e
  | click_addChild =>
      if el_active (contextMenu e) then settle (menu_addChild cfg e) else Some e
  | click_moveBranch =>
      if el_active (contextMenu e) && moveBranch_display (contextMenu e)
      then settle (menu_moveBranch e) else Some e
  | click_deleteBranch =>
      if el_active (contextMenu e) && deleteBranch_display (contextMenu e)
      then settle (menu_deleteBranch cfg e) else Some e
  | click_clear => Some (clear e)
  | menu_hides => Some (hide_menu e)
  | type_value t v => Some (on_input t (set_value v) e)
  end.

(** A sequence of events, as long as the tree follows the page: there is
    no result from the first call that is [Untracked] on. *)
Fixpoint run (cfg : prefix_tokens) (evs : list event) (e : editor) : option editor :=
  match evs with
  | [] => Some e
  | ev :: rest =>
      match step cfg ev e with
      | Some e' => run cfg rest e'
      | None => None
      end
  end.

(** ** Nodes by position

    A node below the root is named by its path: the index of each
    ancestor in its parent's child sequence, from the root's child down
    to the node itself. *)

Definition path := list nat.

Fixpoint node_at (f : list li) (p : path) {struct p} : option li :=
  match p with
  | [] => None
  | i :: q =>
      match nth_error f i with
      | Some n =>
          match q with
          | [] => Some n
          | _ :: _ => node_at (children n) q
          end
      | None => None
      end
  end.

(** The child sequence of the node at [q]; of the root for the empty
    path. *)
Definition child_list (f : list li) (q : path) : option (list li) :=
  match q with
  | [] => Some f
  | _ :: _ => option_map children (node_at f q)
  end.

(** The node at [p] is the last element of its parent's child
    sequence. *)
Definition is_last (f : list li) (p : path) : bool :=
  match p with
  | [] => false
  | _ :: _ =>
      match child_list f (removelast p) with
      | Some l => last p 0 + 1 =? length l
      | None => false
      end
  end.

(** The proper ancestors of [p] below the root, root-most first. *)
Definition ancestors (p : path) : list path :=
  map (fun k => firstn k p) (seq 1 (length p - 1)).

Definition connector (cfg : prefix_tokens) (lastp : bool) : jsstring :=
  if lastp then branch_last cfg else branch cfg.

Definition spacer (cfg : prefix_tokens) (lastp : bool) : jsstring :=
  if lastp then spacer_empty cfg else spacer_branch cfg.

(** The prefix as the specification words it. *)
Definition spec_prefix (cfg : prefix_tokens) (f : list li) (p : path) : jsstring :=
  concat (map (fun q => spacer cfg (is_last f q)) (ancestors p))
  ++ connector cfg (is_last f p).

(** All nodes below the root with their paths, depth first, a node
    before its children, children left to right. *)
Fixpoint walk_li (n : li) {struct n} : list (path * li) :=
  match n with
  | Li _ _ _ ul =>
      ([], n) ::
      match ul with
      | Some k =>
          (fix go (l : list li) (i : nat) {struct l} : list (path * li) :=
             match l with
             | [] => []
             | x :: r =>
                 map (fun c => (i :: fst c, snd c)) (walk_li x) ++ go r (S i)
             end) k 0
      | None => []
      end
  end.

Fixpoint walk_from (i : nat) (f : list li) {struct f} : list (path * li) :=
  match f with
  | [] => []
  | x :: r => map (fun c => (i :: fst c, snd c)) (walk_li x) ++ walk_from (S i) r
  end.

Definition walk (f : list li) : list (path * li) := walk_from 0 f.

Definition path_eqb (p q : path) : bool :=
  if list_eq_dec Nat.eq_dec p q then true else false.

(** The prefix string the processor received for the node at [p]: the
    [k]-th call belongs to the [k]-th node of the walk. *)
Fixpoint lookup_path (p : path) (l : list (path * jsstring)) : option jsstring :=
  match l with
  | [] => None
  | (q, s) :: r => if path_eqb p q then Some s else lookup_path p r
  end.

Definition computed_prefix (cfg : prefix_tokens) (f : list li) (p : path)
    : option jsstring :=
  lookup_path p (combine (map fst (walk f)) (map snd (calls cfg f 0 []))).

(** The last three code units of a prefix string: its connector when the
    tokens are the declared ones. *)
Definition last3 (s : jsstring) : jsstring := skipn (length s - 3) s.


(** ** Induction over branches *)

Section LiInd.

Variable P : li -> Prop.
Hypothesis P_leaf : forall j inp d, P (Li j inp d None).
Hypothesis P_list : forall j inp d k, Forall P k -> P (Li j inp d (Some k)).

Fixpoint li_rect' (n : li) : P n :=
  match n with
  | Li j inp d None => P_leaf j inp d
  | Li j inp d (Some k) =>
      P_list j inp d k
        ((fix all (l : list li) : Forall P l :=
            match l with
            | [] => Forall_nil P
            | x :: r => Forall_cons x (li_rect' x) (all r)
            end) k)
  end.

End LiInd.

(** ** The calls of [_prefix], one after the other *)

Section TraceDefs.

Variable cfg : prefix_tokens.

Fixpoint trace_item (spacers : list jsstring) (last : bool) (n : li) {struct n}
    : list (li * jsstring) :=
  match n with
  | Li _ _ _ ul =>
      (n, join spacers ++ connector cfg last) ::
      match ul with
      | Some items =>
          let arr := spacers ++ [spacer cfg last] in
          let l := length items in
          (fix loop (rest : list li) (i : nat) {struct rest} :=
             match rest with
             | [] => []
             | item :: rest' =>
                 trace_item arr (i =? l - 1) item ++ loop rest' (i + 1)
             end) items 0
      | None => []
      end
  end.

Fixpoint trace_loop (spacers : list jsstring) (l : nat) (rest : list li) (i : nat)
    {struct rest} : list (li * jsstring) :=
  match rest with
  | [] => []
  | item :: rest' =>
      trace_item spacers (i =? l - 1) item ++ trace_loop spacers l rest' (i + 1)
  end.

Context {S : Type}.
Variable processor : li -> jsstring -> S -> S.

Definition feed (s : S) (c : li * jsstring) : S := processor (fst c) (snd c) s.

End TraceDefs.

Arguments feed {S} processor s c.

(** The non-empty prefixes of a path, shortest first. *)
Definition prefixes (q : path) : list path :=
  map (fun k => firstn k q) (seq 1 (length q)).

Section SpecDefs.

Variable cfg : prefix_tokens.

Definition segments (f : list li) (q : path) : list jsstring :=
  map (fun a => spacer cfg (is_last f a)) (prefixes q).

Definition described (f : list li) (q : path) (c : path * li) : li * jsstring :=
  (snd c, spec_prefix cfg f (q ++ fst c)).

Definition item_ok (n : li) : Prop :=
  forall f q i kids,
    child_list f q = Some kids ->
    nth_error kids i = Some n ->
    trace_item cfg (segments f q) (i =? length kids - 1) n =
    map (described f (q ++ [i])) (walk_li n).

End SpecDefs.

(** ** The example of the specification

    The page as [editor.init()] leaves it when [#listEntry] starts
    empty, and the tree [project / src / index.js / README.md] built on
    it through the menu. *)
Definition start : editor :=
  update prefix {|
    root := newNode_input;
    listEntry := [];
    outer := [];
    nextId := 1;
    delayUpdate := false;
    inMoveState := false;
    activeBranch := None;
    contextMenu := {|
      el_active := false;
      addSibling_display := true;
      moveBranch_display := true;
      deleteBranch_display := true
    |}
  |}.

Definition build_example : list event := [
  mouseover RootBranch; type_value RootBranch (str "project");
  click_addChild; mouseout RootBranch;
  mouseover (Branch 1); type_value (Branch 1) (str "src");
  click_addChild; type_value (Branch 2) (str "index.js"); mouseout (Branch 1);
  mouseover RootBranch; click_addChild; type_value (Branch 3) (str "README.md");
  mouseout RootBranch; menu_hides
].

Definition example : editor :=
  match run prefix build_example start with
  | Some e => e
  | None => start
  end.

(** ** The export format *)

(** A line of the export for a node below the root:
    [<prefix> <label-or-placeholder>]. *)
Definition export_line (cfg : prefix_tokens) (f : list li) (c : path * li)
    : jsstring :=
  spec_prefix cfg f (fst c) ++ SP :: label (li_input (snd c)).

(** Lines separated by line feeds. *)
Definition join_lines (first : jsstring) (rest : list jsstring) : jsstring :=
  first ++ concat (map (cons LF) rest).

(** A string that does not begin, or end, with white space. *)
Definition clean_start (s : jsstring) : bool :=
  match s with
  | [] => true
  | c :: _ => negb (is_ws c)
  end.

Definition clean_end (s : jsstring) : bool := clean_start (rev s).

(** The label of a line as the specification words it: the label, or
    the placeholder when the label is empty. *)
Definition label_or_placeholder (i : input) : jsstring :=
  if length (value i) =? 0 then placeholder i else value i.

(** The text of the specification before it is trimmed: the line of the
    root, then one line for every node below the root in depth-first
    pre-order, each [<prefix> <label-or-placeholder>]. *)
Definition format_line (f : list li) (c : path * li) : jsstring :=
  spec_prefix prefix f (fst c) ++ SP :: label_or_placeholder (li_input (snd c)).

Definition format_text (e : editor) : jsstring :=
  join_lines (label_or_placeholder (root e))
    (map (format_line (listEntry e)) (walk (listEntry e))).

(** ** What a run of [_prefix] may touch *)

(** A branch without the [dataset.prefix] annotations: identity, input,
    child sequence and its order are kept. *)
Fixpoint plain_li (n : li) {struct n} : li :=
  match n with
  | Li j inp _ ul =>
      Li j inp None
        match ul with
        | Some k => Some (map plain_li k)
        | None => None
        end
  end.

Definition plain (f : list li) : list li := map plain_li f.

(** The export run with the page carried along: the processor of
    [toString] reads the item and writes the closure variable only. *)
Definition export_run (cfg : prefix_tokens) (f : list li) (tree : jsstring)
    : list li * jsstring :=
  _prefix cfg
    (fun item prefix st =>
       let input := li_input item in
       (fst st, snd st ++ LF :: prefix ++ SP :: label input))
    f 0 [] (f, tree).

(** Each call of the processor as (element, prefix string). *)
Definition prefix_strings (cfg : prefix_tokens) (f : list li)
    : list (nat * jsstring) :=
  map (fun c => (li_id (fst c), snd c)) (calls cfg f 0 []).

(** Whether each node on the way to [p], and [p] itself, is the last of
    its siblings. *)
Definition last_chain (f : list li) (p : path) : list bool :=
  map (is_last f) (prefixes p).

Definition erase_item (c : li * jsstring) : li * jsstring :=
  (plain_li (fst c), snd c).

(** One write of [render]: [item.dataset.prefix = prefix]. *)
Definition write (page : list li) (w : nat * jsstring) : list li :=
  set_dataset_prefix (fst w) (snd w) page.

(** ** The tree the page holds *)

(** The identities of the branches of a forest. *)
Fixpoint ids_li (n : li) {struct n} : list nat :=
  match n with
  | Li j _ _ ul =>
      j ::
      match ul with
      | Some k => flat_map ids_li k
      | None => []
      end
  end.

Definition ids (f : list li) : list nat := flat_map ids_li f.

(** A node of the tree: which element it is, its label and placeholder,
    its children in order.  Listener flags and render annotations are
    not part of it. *)
Inductive node : Type :=
  Node (id : nat) (text hint : jsstring) (kids : list node).

Fixpoint content_li (n : li) {struct n} : node :=
  match n with
  | Li j inp _ ul =>
      Node j (value inp) (placeholder inp)
        match ul with
        | Some k => map content_li k
        | None => []
        end
  end.

Definition content (f : list li) : list node := map content_li f.

Fixpoint update_nth {A : Type} (i : nat) (g : A -> A) (l : list A) {struct l}
    : list A :=
  match l, i with
  | [], _ => []
  | x :: r, 0 => g x :: r
  | x :: r, S i' => x :: update_nth i' g r
  end.

Definition with_kids (g : list node -> list node) (n : node) : node :=
  match n with
  | Node j v h kids => Node j v h (g kids)
  end.

(** [new] becomes the last child of the node at [q] (of the root for the
    empty path); nothing else changes. *)
Fixpoint insert_last (q : path) (new : node) (f : list node) {struct q}
    : list node :=
  match q with
  | [] => f ++ [new]
  | i :: q' => update_nth i (with_kids (insert_last q' new)) f
  end.

(** While the root is the active branch the menu does not offer
    [addSibling]. *)
Definition root_gate (e : editor) : Prop :=
  activeBranch e = Some RootBranch -> addSibling_display (contextMenu e) = false.

(** A call that fails, or returns with the page as it was. *)
Definition fails_or_no_op {A : Type} (o : outcome A) (e : editor) : Prop :=
  match o with
  | Returns _ e' => e' = e
  | Throws _ => True
  | Untracked => True
  end.

(** ** The editor object, whatever the page holds

    A handler can meet a page that the tree above does not describe: a
    branch that was taken out of the tree and is still the active
    branch, or the root branch taken out of the page by [_moveBranch];
    [step] has no result then.  What a handler writes to the editor
    object itself is the same on every page.  [activeBranch] and the
    [display] of the menu entries are written by [_positionContextMenu]
    only; [inMoveState] by [moveBranch], in its first statement, and by
    [_moveBranch], after [appendChild]; the class of the menu by
    [_positionContextMenu], by [deleteBranch] after [removeChild], and by
    the timer of [_hideContextMenu]; [delayUpdate] by none of the
    handlers of these events.  A DOM call that throws ends the run with
    the fields as written so far.

    [handled ev e e'] holds when the listeners of [ev], run with the
    editor object as in [e] on whatever page, can leave the editor
    object as in [e']; the page of [e'] is left open. *)
Definition fields (e : editor) : bool * bool * option ref * contextMenu_t :=
  (delayUpdate e, inMoveState e, activeBranch e, contextMenu e).

Inductive handled : event -> editor -> editor -> Prop :=
| handled_no_write (ev : event) (e e' : editor) :
    (* no listener runs, or the run writes no field: [addSibling],
       [addChild], [clear], typing, hovering during a move, a run of
       [_moveBranch] or [deleteBranch] that throws at its first DOM call *)
    fields e' = fields e ->
    handled ev e e'
| handled_mouseover (t : ref) (e e' : editor) :
    (* [_handleBranchMouseOver] outside a move: [_positionContextMenu] *)
    inMoveState e = false ->
    fields e' = fields (_positionContextMenu t e) ->
    handled (mouseover t) e e'
| handled_click (t : ref) (e e' : editor) :
    (* a run of [_moveBranch] that gets past [appendChild] *)
    fields e' = fields (with_inMoveState false e) ->
    handled (click t) e e'
| handled_click_moveBranch (e e' : editor) :
    fields e' = fields (with_inMoveState true e) ->
    handled click_moveBranch e e'
| handled_click_deleteBranch (e e' : editor) :
    (* [deleteBranch] past [removeChild] *)
    fields e' = fields (hide_menu e) ->
    handled click_deleteBranch e e'
| handled_menu_hides (e e' : editor) :
    fields e' = fields (hide_menu e) ->
    handled menu_hides e e'.

Inductive handled_all : list event -> editor -> editor -> Prop :=
| handled_nil (e : editor) : handled_all [] e e
| handled_cons (ev : event) (evs : list event) (e e1 e' : editor) :
    handled ev e e1 ->
    handled_all evs e1 e' ->
    handled_all (ev :: evs) e e'.

(** ** A move that ends on the moved branch itself

    [README.md] is moved under [src]; the pointer leaves [src], comes
    back and clicks into its input.  The click listener that the move
    state attached to that input is still there. *)
Definition move_README_under_src : list event := [
  mouseover (Branch 3); mouseout (Branch 3); click_moveBranch;
  mouseover (Branch 1); click (Branch 1); mouseout (Branch 1)
].

Definition after_move : editor :=
  match run prefix move_README_under_src example with
  | Some e => e
  | None => example
  end.

Definition hover_src : editor :=
  match step prefix (mouseover (Branch 1)) after_move with
  | Some e => e
  | None => after_move
  end.

(** ** Reading an export back *)

(** The shape of a tree: who is whose child, and in which order. *)
Inductive shape : Type :=
  Shape (kids : list shape).

Fixpoint shape_li (n : li) {struct n} : shape :=
  match n with
  | Li _ _ _ ul =>
      Shape
        match ul with
        | Some k => map shape_li k
        | None => []
        end
  end.

Definition shape_of (f : list li) : list shape := map shape_li f.

Definition is_LF (c : ascii) : bool := nat_of_ascii c =? 10.

(** Modelled from the spec: the export is read line by line; this cuts
    the text at its line feeds. *)
Fixpoint split_lines (s : jsstring) : list jsstring :=
  match s with
  | [] => [[]]
  | c :: r =>
      if is_LF c then [] :: split_lines r
      else
        match split_lines r with
        | l :: ls => (c :: l) :: ls
        | [] => [[c]]
        end
  end.

Fixpoint jsstring_eqb (a b : jsstring) : bool :=
  match a, b with
  | [], [] => true
  | x :: a', y :: b' => Ascii.eqb x y && jsstring_eqb a' b'
  | _, _ => false
  end.

(** Modelled from the spec: the sources hold no reader for the export;
    this is the re-parsing "by indentation/connector pattern" of the
    specification.  The depth of a line is the number of four-character
    spacers ([|   ] or four spaces) in front of its connector ([|--] or
    [\--]). *)
Fixpoint line_depth (l : jsstring) {struct l} : option nat :=
  match l with
  | a :: b :: c :: r =>
      if jsstring_eqb [a; b; c] (str "|--") || jsstring_eqb [a; b; c] (str "\--")
      then Some 0
      else
        match r with
        | d :: r' =>
            if jsstring_eqb [a; b; c; d] (str "|   ")
               || jsstring_eqb [a; b; c; d] (str "    ")
            then option_map S (line_depth r')
            else None
        | [] => None
        end
  | _ => None
  end.

(** Modelled from the spec: every line after the first must read as a
    line of the tree. *)
Fixpoint all_depths (lines : list jsstring) : option (list nat) :=
  match lines with
  | [] => Some []
  | l :: rest =>
      match line_depth l, all_depths rest with
      | Some d, Some ds => Some (d :: ds)
      | _, _ => None
      end
  end.

(** Modelled from the spec: the forest of the lines at depth [d] that
    open the list; a deeper line belongs to the line before it. *)
Fixpoint build (fuel d : nat) (ls : list nat) {struct fuel}
    : list shape * list nat :=
  match fuel with
  | 0 => ([], ls)
  | S fuel' =>
      match ls with
      | [] => ([], [])
      | d' :: rest =>
          if d' =? d then
            let (kids, rest1) := build fuel' (S d) rest in
            let (sibs, rest2) := build fuel' d rest1 in
            (Shape kids :: sibs, rest2)
          else ([], ls)
      end
  end.

(** Modelled from the spec: the first line is the root, every further
    line a node below it. *)
Definition reparse (s : jsstring) : option (list shape) :=
  match split_lines s with
  | [] => None
  | _ :: lines =>
      match all_depths lines with
      | Some ds =>
          match build (length ds) 0 ds with
          | (f, []) => Some f
          | (_, _ :: _) => None
          end
      | None => None
      end
  end.

(** A string without a line feed. *)
Definition one_line (s : jsstring) : Prop := ~ In LF s.

(** The depths of the nodes of a forest in pre-order. *)
Fixpoint depths_li (d : nat) (n : li) {struct n} : list nat :=
  match n with
  | Li _ _ _ ul =>
      d ::
      match ul with
      | Some k => flat_map (depths_li (S d)) k
      | None => []
      end
  end.

Definition depths (d : nat) (f : list li) : list nat := flat_map (depths_li d) f.

(** Two pages for the round trip: a root whose label is a single space
    with one child [a], and a childless root whose label reads like a
    line of an export. *)
Definition blank_root : editor :=
  with_listEntry [Li 1 (set_value (str "a") newNode_input) None None]
    (with_root (set_value [SP] newNode_input) start).

Definition lone_root : editor :=
  with_root (set_value (str "\-- a") newNode_input) start.

(** The list goes on, if at all, with a line above depth [d]. *)
Definition head_below (d : nat) (rest : list nat) : Prop :=
  match rest with
  | [] => True
  | x :: _ => x < d
  end.

Definition built (f : list li) : Prop :=
  forall d rest fuel,
    head_below d rest ->
    length (depths d f) <= fuel ->
    build fuel d (depths d f ++ rest) = (shape_of f, rest).

(** A second tree, with other siblings around the same ancestor chain as
    [index.js] in the example. *)
Definition other_tree : list li := [
  Li 10 (set_value (str "lib") newNode_input) None
    (Some [Li 11 (set_value (str "main.c") newNode_input) None None]);
  Li 12 (set_value (str "doc") newNode_input) None
    (Some [Li 13 (set_value (str "a.txt") newNode_input) None None;
           Li 14 (set_value (str "b.txt") newNode_input) None None]);
  Li 15 (set_value (str "LICENSE") newNode_input) None None
].

(** * The rest of the editor

    What follows covers the behaviour of the editor beyond the export:
    the tree operations as changes of the tree by position, the
    bookkeeping of listeners, the [prefix] inputs and the folder drop. *)

(** ** Trees by position *)

Fixpoint cids_node (n : node) {struct n} : list nat :=
  match n with
  | Node j _ _ k => j :: flat_map cids_node k
  end.

(** The elements a tree is made of. *)
Definition cids (t : list node) : list nat := flat_map cids_node t.

Fixpoint remove_nth {A : Type} (i : nat) (l : list A) {struct l} : list A :=
  match l, i with
  | [], _ => []
  | _ :: r, 0 => r
  | x :: r, S i' => x :: remove_nth i' r
  end.

(** The tree without the node at [p] and everything below it. *)
Fixpoint delete_at (p : path) (t : list node) {struct p} : list node :=
  match p with
  | [] => t
  | i :: q =>
      match q with
      | [] => remove_nth i t
      | _ :: _ => update_nth i (with_kids (delete_at q)) t
      end
  end.

Definition with_ul (h : list li -> list li) (n : li) : li :=
  match n with
  | Li j inp d ul => Li j inp d (option_map h ul)
  end.

(** [g] applied to the branch at [p]. *)
Fixpoint update_at (p : path) (g : li -> li) (f : list li) {struct p} : list li :=
  match p with
  | [] => f
  | i :: q =>
      match q with
      | [] => update_nth i g f
      | _ :: _ => update_nth i (with_ul (update_at q g)) f
      end
  end.

(** The page holds every element once, and [nextId] is ahead of all of
    them. *)
Definition wf (e : editor) : Prop :=
  NoDup (ids (listEntry e)) /\
  Forall (fun i => i < nextId e) (ids (listEntry e)).

(** The branch [b] sits at [p]: the root branch at the empty path, an
    [<li>] at the path of the node it is. *)
Definition at_path (f : list li) (b : ref) (p : path) : Prop :=
  match b with
  | RootBranch => p = []
  | Branch id => exists n, node_at f p = Some n /\ li_id n = id
  end.

Definition kids_of (n : node) : list node :=
  match n with
  | Node _ _ _ k => k
  end.

(** The node at a path of a tree. *)
Fixpoint cnode_at (t : list node) (p : path) {struct p} : option node :=
  match p with
  | [] => None
  | i :: q =>
      match nth_error t i with
      | Some n =>
          match q with
          | [] => Some n
          | _ :: _ => cnode_at (kids_of n) q
          end
      | None => None
      end
  end.

(** What the export shows of a call of the processor: the label of the
    item and its prefix. *)
Definition shown (c : li * jsstring) : jsstring * jsstring :=
  (label (li_input (fst c)), snd c).

(** While the root is the active branch the menu offers neither
    [moveBranch] nor [deleteBranch]. *)
Definition root_guard (e : editor) : Prop :=
  activeBranch e = Some RootBranch ->
  moveBranch_display (contextMenu e) = false /\
  deleteBranch_display (contextMenu e) = false.

(** ** What [render] leaves on a branch *)

(** The writes of a run of [render] as they reach one branch. *)
Definition annotate (l : list (nat * jsstring)) (n : li) : li :=
  fold_left (fun m w => set_dataset_prefix_li (fst w) (snd w) m) l n.

(** ** The [prefix] inputs

    [prefix._handleChange] is the [change] listener of the four token
    inputs.  [target.className.replace('-', '_')] has a string for its
    pattern, so the first ['-'] only is replaced; the result names the
    property of [prefix] that receives [target.value].  A name that is
    none of the four tokens writes some other property of the object,
    which the editor does not read. *)
Fixpoint replace (pattern replacement : ascii) (s : jsstring) : jsstring :=
  match s with
  | [] => []
  | c :: r =>
      if Ascii.eqb c pattern then replacement :: r
      else c :: replace pattern replacement r
  end.

Definition set_property (name v : jsstring) (cfg : prefix_tokens) : prefix_tokens :=
  if jsstring_eqb name (str "branch") then
    {| branch := v; branch_last := branch_last cfg;
       spacer_branch := spacer_branch cfg; spacer_empty := spacer_empty cfg |}
  else if jsstring_eqb name (str "branch_last") then
    {| branch := branch cfg; branch_last := v;
       spacer_branch := spacer_branch cfg; spacer_empty := spacer_empty cfg |}
  else if jsstring_eqb name (str "spacer_branch") then
    {| branch := branch cfg; branch_last := branch_last cfg;
       spacer_branch := v; spacer_empty := spacer_empty cfg |}
  else if jsstring_eqb name (str "spacer_empty") then
    {| branch := branch cfg; branch_last := branch_last cfg;
       spacer_branch := spacer_branch cfg; spacer_empty := v |}
  else cfg.

(** The state is the [prefix] object with the editor; [className] and
    [value] are those of [target]. *)
Definition _handleChange (className value : jsstring)
    (s : prefix_tokens * editor) : prefix_tokens * editor :=
  let name := replace "-"%char "_"%char className in
  let cfg := set_property name value (fst s) in
  (cfg, update cfg (snd s)).

(** The inputs [prefix.els] registers, by the class of their selector,
    each with the tokens a change of it to [v] is to give. *)
Definition els (v : jsstring) (cfg : prefix_tokens)
    : list (jsstring * prefix_tokens) := [
  (str "branch",
   {| branch := v; branch_last := branch_last cfg;
      spacer_branch := spacer_branch cfg; spacer_empty := spacer_empty cfg |});
  (str "branch-last",
   {| branch := branch cfg; branch_last := v;
      spacer_branch := spacer_branch cfg; spacer_empty := spacer_empty cfg |});
  (str "spacer-branch",
   {| branch := branch cfg; branch_last := branch_last cfg;
      spacer_branch := v; spacer_empty := spacer_empty cfg |});
  (str "spacer-empty",
   {| branch := branch cfg; branch_last := branch_last cfg;
      spacer_branch := spacer_branch cfg; spacer_empty := v |})
].

(** ** The folder drop

    An entry of the File System API as the code reads it: its [name],
    whether it is a file or a directory, and for a directory what the one
    call of [readEntries] on its reader delivers later, the entries
    handed to the success callback or, for [None], an error. *)
Inductive entry : Type :=
| File (name : jsstring)
| Directory (name : jsstring) (reads : option (list entry)).

(** A call of [readEntries] whose callback has not run yet, with the
    [branch] the callback closes over. *)
Record reading := {
  branch_of : ref;
  result : option (list entry)
}.

Definition with_delayUpdate (b : bool) (e : editor) : editor := {|
  root := root e; listEntry := listEntry e; outer := outer e; nextId := nextId e;
  delayUpdate := b; inMoveState := inMoveState e;
  activeBranch := activeBranch e; contextMenu := contextMenu e
|}.

(** [folder._traverse(entry, branch)] for a directory [entry]:
    [branch.firstElementChild] is the input of the branch (of the root
    branch, [#root]); the callbacks given to [readEntries] run later.
    The state is the editor with the calls that are still to deliver. *)
Definition _traverse (name : jsstring) (reads : option (list entry))
    (branch : ref) (s : editor * list reading) : editor * list reading :=
  (on_input branch (set_value name) (fst s),
   snd s ++ [{| branch_of := branch; result := reads |}]).

(** The body of the loop in the success callback. *)
Definition _traverse_item (cfg : prefix_tokens) (item : entry) (branch : ref)
    (s : editor * list reading) : option (editor * list reading) :=
  match addChild cfg branch (fst s) with
  | Returns li e =>
      match item with
      | Directory name reads =>
          Some (_traverse name reads (Branch (li_id li)) (e, snd s))
      | File name =>
          Some (on_input (Branch (li_id li)) (set_value name) e, snd s)
      end
  | Throws _ => None
  | Untracked => None
  end.

Fixpoint _traverse_entries (cfg : prefix_tokens) (entries : list entry)
    (branch : ref) (s : editor * list reading) {struct entries}
    : option (editor * list reading) :=
  match entries with
  | [] => Some s
  | item :: rest =>
      match _traverse_item cfg item branch s with
      | Some s' => _traverse_entries cfg rest branch s'
      | None => None
      end
  end.

(** The browser delivers the [k]-th of the calls that are waiting: the
    success callback runs the loop, the error callback only logs.  The
    result is [None] when a callback acts on a branch that is not in the
    tree any more. *)
Definition read_done (cfg : prefix_tokens) (k : nat) (s : editor * list reading)
    : option (editor * list reading) :=
  match nth_error (snd s) k with
  | Some r =>
      match result r with
      | Some entries =>
          _traverse_entries cfg entries (branch_of r) (fst s, remove_nth k (snd s))
      | None => Some (fst s, remove_nth k (snd s))
      end
  | None => Some s
  end.

Fixpoint deliveries (cfg : prefix_tokens) (ks : list nat)
    (s : editor * list reading) : option (editor * list reading) :=
  match ks with
  | [] => Some s
  | k :: rest =>
      match read_done cfg k s with
      | Some s' => deliveries cfg rest s'
      | None => None
      end
  end.

(** [folder._handleDrop(event)], with [entry] the dropped item; the
    class of the drop zone is not modelled. *)
Definition _handleDrop (cfg : prefix_tokens) (entry : entry)
    (s : editor * list reading) : editor * list reading :=
  match entry with
  | File _ => s
  | Directory name reads =>
      let e := with_delayUpdate true (clear (fst s)) in
      let s1 := _traverse name reads RootBranch (e, snd s) in
      (update cfg (with_delayUpdate false (fst s1)), snd s1)
  end.

(** *** The tree a drop is to give *)

(** A tree of labels: the text and the placeholder of each node, without
    the identity of the elements. *)
Inductive names : Type :=
  Names (text hint : jsstring) (below : list names).

Fixpoint anon (c : node) {struct c} : names :=
  match c with
  | Node _ v h k => Names v h (map anon k)
  end.

Definition labels (f : list li) : list names := map anon (content f).

(** What a text input keeps of a string assigned to its value. *)
Definition sanitized (v : jsstring) : jsstring :=
  filter (fun c => negb (is_newline c)) v.

(** The labels of an entry and of all that its directory readers
    deliver, in the order of the listings. *)
Fixpoint tree_of (en : entry) {struct en} : names :=
  match en with
  | File name => Names (sanitized name) (str "Directory or File Name") []
  | Directory name reads =>
      Names (sanitized name) (str "Directory or File Name")
        match reads with
        | Some l => map tree_of l
        | None => []
        end
  end.

Definition delivered (reads : option (list entry)) : list names :=
  match reads with
  | Some l => map tree_of l
  | None => []
  end.

(** The number of calls of [readEntries] an entry gives rise to. *)
Fixpoint weight (en : entry) {struct en} : nat :=
  match en with
  | File _ => 0
  | Directory _ reads =>
      S match reads with
        | Some l => list_sum (map weight l)
        | None => 0
        end
  end.

Definition weight_of (r : reading) : nat :=
  S match result r with
    | Some l => list_sum (map weight l)
    | None => 0
    end.

Definition waiting (P : list reading) : nat := list_sum (map weight_of P).

Definition ref_eqb (a b : ref) : bool :=
  match a, b with
  | RootBranch, RootBranch => true
  | Branch i, Branch j => i =? j
  | _, _ => false
  end.

(** What the waiting calls are still to put below a branch. *)
Definition awaited (b : ref) (P : list reading) : list names :=
  flat_map (fun r => if ref_eqb (branch_of r) b then delivered (result r) else []) P.

(** The tree of labels once all waiting calls have delivered. *)
Fixpoint expected_node (P : list reading) (c : node) {struct c} : names :=
  match c with
  | Node j v h k => Names v h (map (expected_node P) k ++ awaited (Branch j) P)
  end.

Definition expected (P : list reading) (t : list node) : list names :=
  map (expected_node P) t ++ awaited RootBranch P.

(** The state of a drop under way: the elements are distinct, no branch
    waits for two calls, and every branch that waits is in the tree. *)
Definition present (f : list li) (b : ref) : Prop :=
  match b with
  | RootBranch => True
  | Branch j => In j (ids f)
  end.

Definition waits_in (f : list li) (r : reading) : Prop :=
  present f (branch_of r).

Definition drop_ok (s : editor * list reading) : Prop :=
  wf (fst s) /\
  NoDup (map branch_of (snd s)) /\
  Forall (waits_in (listEntry (fst s))) (snd s).

(** Every branch carries the prefix of its position. *)
Definition rendered (cfg : prefix_tokens) (e : editor) : Prop :=
  forall p m,
    node_at (listEntry e) p = Some m ->
    dataset_prefix m = Some (spec_prefix cfg (listEntry e) p).

Definition entry_name (en : entry) : jsstring :=
  match en with
  | File name => name
  | Directory name _ => name
  end.

(** The calls of [readEntries] made for an item whose node is
    [branch]. *)
Definition readers (en : entry) (branch : ref) : list reading :=
  match en with
  | File _ => []
  | Directory _ reads => [{| branch_of := branch; result := reads |}]
  end.

(** *** Trees of nodes by element *)

Definition add_kid (new : node) (c : node) : node :=
  with_kids (fun k => k ++ [new]) c.

Definition set_text (v : jsstring) (c : node) : node :=
  match c with
  | Node j _ h k => Node j v h k
  end.

Fixpoint cmodify (id : nat) (g : node -> node) (c : node) {struct c} : node :=
  match c with
  | Node j v h k =>
      if j =? id then g c else Node j v h (map (cmodify id g) k)
  end.

Section NodeInduction.

Variable P : node -> Prop.
Hypothesis step : forall j v h k, Forall P k -> P (Node j v h k).

Fixpoint node_ind' (c : node) : P c :=
  match c with
  | Node j v h k =>
      step j v h k
        ((fix all (l : list node) : Forall P l :=
            match l with
            | [] => Forall_nil P
            | x :: r => Forall_cons x (node_ind' x) (all r)
            end) k)
  end.

End NodeInduction.

(** A dropped directory: [a] holds a file and a directory that cannot be
    read, [b] holds a file. *)
Definition dropped : option (list entry) :=
  Some [ Directory (str "a") (Some [File (str "x"); Directory (str "e") None]);
         File (str "f");
         Directory (str "b") (Some [File (str "y")]) ].

(** [g] applied to the input of the element [id], wherever it is in the
    tree. *)
Fixpoint retouch (id : nat) (g : input -> input) (n : li) {struct n} : li :=
  match n with
  | Li j inp d ul =>
      Li j (if j =? id then g inp else inp) d
        match ul with
        | Some k => Some (map (retouch id g) k)
        | None => None
        end
  end.

(** ** Labels and line breaks *)

(** The inputs of the branches of a forest. *)
Fixpoint inputs_li (n : li) {struct n} : list input :=
  match n with
  | Li _ inp _ ul =>
      inp ::
      match ul with
      | Some k => flat_map inputs_li k
      | None => []
      end
  end.

Definition inputs (f : list li) : list input := flat_map inputs_li f.

(** Neither the value nor the placeholder of the input holds a line
    feed. *)
Definition single_line (i : input) : Prop :=
  one_line (value i) /\ one_line (placeholder i).

Definition tidy (e : editor) : Prop :=
  single_line (root e) /\ Forall single_line (inputs (listEntry e)).

(** No label holds a line feed, the root's or a node's. *)
Definition labels_hold_no_line_feed (e : editor) : Prop :=
  one_line (label (root e)) /\
  Forall (fun c => one_line (label (li_input (snd c)))) (walk (listEntry e)).
(** * Proofs *)


(** ** The calls of [_prefix], one after the other *)

Section Trace.

Variable cfg : prefix_tokens.



Lemma trace_inner_loop arr l items i :
  (fix loop (rest : list li) (i : nat) {struct rest} :=
     match rest with
     | [] => []
     | item :: rest' => trace_item cfg arr (i =? l - 1) item ++ loop rest' (i + 1)
     end) items i = trace_loop cfg arr l items i.
Proof.
  revert i. induction items as [|x r IH]; intros i; [reflexivity|].
  cbn [trace_loop]. now rewrite <- IH.
Qed.

Lemma trace_item_eq spacers last j inp d ul :
  trace_item cfg spacers last (Li j inp d ul) =
  (Li j inp d ul, join spacers ++ connector cfg last) ::
  match ul with
  | Some items =>
      trace_loop cfg (spacers ++ [spacer cfg last]) (length items) items 0
  | None => []
  end.
Proof.
  destruct ul as [items|]; [|reflexivity].
  cbn [trace_item]. f_equal. apply trace_inner_loop.
Qed.

Context {S : Type}.
Variable processor : li -> jsstring -> S -> S.


Lemma _prefix_inner_loop depth arr l items i s :
  (fix loop (rest : list li) (i : nat) (s : S) {struct rest} : S :=
     match rest with
     | [] => s
     | item :: rest' =>
         loop rest' (i + 1)
           (_prefix_item cfg processor depth arr (i =? l - 1) item s)
     end) items i s = _prefix_loop cfg processor depth arr l items i s.
Proof.
  revert i s. induction items as [|x r IH]; intros i s; [reflexivity|].
  cbn [_prefix_loop]. now rewrite <- IH.
Qed.

Lemma _prefix_item_eq depth spacers last j inp d ul s :
  _prefix_item cfg processor depth spacers last (Li j inp d ul) s =
  let s1 :=
    processor (Li j inp d ul) (join spacers ++ connector cfg last) s in
  match ul with
  | Some items =>
      _prefix_loop cfg processor (depth + 1) (spacers ++ [spacer cfg last])
        (length items) items 0 s1
  | None => s1
  end.
Proof.
  destruct ul as [items|]; [|reflexivity].
  cbn [_prefix_item]. cbv zeta. apply _prefix_inner_loop.
Qed.

Lemma _prefix_item_trace n :
  forall depth spacers last s,
    _prefix_item cfg processor depth spacers last n s =
    fold_left (feed processor) (trace_item cfg spacers last n) s.
Proof.
  induction n as [j inp d|j inp d k IH] using li_rect'; intros depth spacers last s.
  - reflexivity.
  - rewrite _prefix_item_eq, trace_item_eq. cbv zeta. cbn [fold_left].
    change ((feed processor) s (Li j inp d (Some k), join spacers ++ connector cfg last))
      with (processor (Li j inp d (Some k)) (join spacers ++ connector cfg last) s).
    generalize (processor (Li j inp d (Some k))
                  (join spacers ++ connector cfg last) s) as s1.
    generalize (length k) as l, 0 as i, (depth + 1) as dp,
      (spacers ++ [spacer cfg last]) as arr.
    induction IH as [|x r Hx _ IHr]; intros l i dp arr s1; [reflexivity|].
    cbn [_prefix_loop trace_loop]. rewrite fold_left_app, <- (Hx dp). apply IHr.
Qed.

Lemma _prefix_loop_trace rest :
  forall depth spacers l i s,
    _prefix_loop cfg processor depth spacers l rest i s =
    fold_left (feed processor) (trace_loop cfg spacers l rest i) s.
Proof.
  induction rest as [|x r IH]; intros depth spacers l i s; [reflexivity|].
  cbn [_prefix_loop trace_loop].
  now rewrite fold_left_app, <- (_prefix_item_trace x depth), IH.
Qed.

Lemma _prefix_trace items depth spacers s :
  _prefix cfg processor items depth spacers s =
  fold_left (feed processor) (trace_loop cfg spacers (length items) items 0) s.
Proof. apply _prefix_loop_trace. Qed.

End Trace.

Lemma fold_left_record (l acc : list (li * jsstring)) :
  fold_left (feed (fun item p acc => acc ++ [(item, p)])) l acc = acc ++ l.
Proof.
  revert acc. induction l as [|[it p] r IH]; intros acc; cbn [fold_left].
  - now rewrite app_nil_r.
  - unfold feed at 2. cbn [fst snd]. rewrite IH, <- app_assoc. reflexivity.
Qed.

Lemma calls_trace cfg items depth spacers :
  calls cfg items depth spacers = trace_loop cfg spacers (length items) items 0.
Proof.
  unfold calls. rewrite _prefix_trace. apply (fold_left_record _ []).
Qed.

(** ** Paths *)


Lemma ancestors_snoc q i : ancestors (q ++ [i]) = prefixes q.
Proof.
  unfold ancestors, prefixes. rewrite length_app. cbn [length].
  replace (length q + 1 - 1) with (length q) by lia.
  apply map_ext_in. intros k Hk. apply in_seq in Hk.
  rewrite firstn_app. replace (k - length q) with 0 by lia.
  cbn [firstn]. apply app_nil_r.
Qed.

Lemma prefixes_snoc q i : prefixes (q ++ [i]) = prefixes q ++ [q ++ [i]].
Proof.
  unfold prefixes at 1. rewrite length_app. cbn [length].
  rewrite seq_app, map_app. cbn [seq map]. f_equal.
  - apply map_ext_in. intros k Hk. apply in_seq in Hk.
    rewrite firstn_app. replace (k - length q) with 0 by lia.
    cbn [firstn]. apply app_nil_r.
  - f_equal.
    replace (1 + length q) with (length (q ++ [i])) by (rewrite length_app; cbn; lia).
    apply firstn_all.
Qed.

Lemma child_list_cons f j q x :
  nth_error f j = Some x ->
  child_list f (j :: q) = child_list (children x) q.
Proof.
  intros Hx. unfold child_list. cbn [node_at]. rewrite Hx.
  destruct q; reflexivity.
Qed.

Lemma child_list_cons_None f j q :
  nth_error f j = None -> child_list f (j :: q) = None.
Proof.
  intros Hx. unfold child_list. cbn [node_at]. now rewrite Hx.
Qed.

Lemma node_at_snoc q :
  forall f i kids,
    child_list f q = Some kids -> node_at f (q ++ [i]) = nth_error kids i.
Proof.
  induction q as [|j q IH]; intros f i kids Hk.
  - cbn in Hk. injection Hk as <-. cbn. now destruct (nth_error f i).
  - destruct (nth_error f j) as [x|] eqn:Hx.
    + rewrite (child_list_cons _ _ _ _ Hx) in Hk.
      cbn [app node_at]. rewrite Hx.
      destruct (q ++ [i]) eqn:Hq; [now destruct q|].
      rewrite <- Hq. now apply IH.
    + now rewrite (child_list_cons_None _ _ _ Hx) in Hk.
Qed.

Lemma child_list_snoc f q i x :
  node_at f (q ++ [i]) = Some x -> child_list f (q ++ [i]) = Some (children x).
Proof.
  intros Hx. unfold child_list.
  destruct (q ++ [i]) eqn:Hq; [now destruct q|]. now rewrite Hx.
Qed.

Lemma is_last_snoc f q i kids :
  child_list f q = Some kids -> is_last f (q ++ [i]) = (i + 1 =? length kids).
Proof.
  intros Hk. unfold is_last.
  destruct (q ++ [i]) eqn:Hq; [now destruct q|]. rewrite <- Hq.
  now rewrite removelast_last, last_last, Hk.
Qed.

(** ** The calls are the walk, each with the specified prefix *)

Section TraceSpec.

Variable cfg : prefix_tokens.


Lemma segments_snoc f q i :
  segments cfg f (q ++ [i]) = segments cfg f q ++ [spacer cfg (is_last f (q ++ [i]))].
Proof. unfold segments. now rewrite prefixes_snoc, map_app. Qed.

Lemma spec_prefix_snoc f q i :
  spec_prefix cfg f (q ++ [i]) =
  join (segments cfg f q) ++ connector cfg (is_last f (q ++ [i])).
Proof. unfold spec_prefix. now rewrite ancestors_snoc. Qed.



Lemma walk_li_eq n : walk_li n = ([], n) :: walk (children n).
Proof.
  destruct n as [j inp d [k|]]; [|reflexivity].
  cbn [walk_li children li_ul]. f_equal. unfold walk.
  generalize 0 as i. induction k as [|x r IH]; intros i; [reflexivity|].
  cbn [walk_from]. now rewrite IH.
Qed.

Lemma loop_ok f q kids :
  child_list f q = Some kids ->
  forall rest i,
    Forall (item_ok cfg) rest ->
    skipn i kids = rest ->
    trace_loop cfg (segments cfg f q) (length kids) rest i =
    map (described cfg f q) (walk_from i rest).
Proof.
  intros Hk rest. induction rest as [|x r IH]; intros i Hall Hrest; [reflexivity|].
  cbn [trace_loop walk_from]. rewrite map_app, map_map.
  inversion Hall as [|? ? Hx Hr]; subst.
  assert (Hnth : nth_error kids i = Some x).
  { rewrite <- (firstn_skipn i kids) at 1.
    assert (Hlen : i <= length kids).
    { destruct (Nat.le_gt_cases i (length kids)) as [H|H]; [exact H|].
      rewrite skipn_all2 in Hrest by lia. discriminate. }
    rewrite nth_error_app2; rewrite length_firstn, Nat.min_l by exact Hlen; [|lia].
    rewrite Nat.sub_diag, Hrest. reflexivity. }
  f_equal.
  - rewrite (Hx f q i kids Hk Hnth). apply map_ext. intros [p m].
    unfold described. cbn [fst snd]. now rewrite <- app_assoc.
  - rewrite Nat.add_1_r. apply IH; [exact Hr|].
    rewrite <- (Nat.add_1_l i), <- skipn_skipn, Hrest. reflexivity.
Qed.

Lemma is_last_index f q i kids n :
  child_list f q = Some kids ->
  nth_error kids i = Some n ->
  is_last f (q ++ [i]) = (i =? length kids - 1).
Proof.
  intros Hk Hnth. rewrite (is_last_snoc _ _ _ _ Hk).
  assert (Hlt : i < length kids) by (apply nth_error_Some; now rewrite Hnth).
  destruct (i =? length kids - 1) eqn:E.
  - apply Nat.eqb_eq in E. apply Nat.eqb_eq. lia.
  - apply Nat.eqb_neq in E. apply Nat.eqb_neq. lia.
Qed.

Lemma item_ok_all n : item_ok cfg n.
Proof.
  induction n as [j inp d|j inp d k IH] using li_rect';
    intros f q i kids Hk Hnth;
    pose proof (is_last_index _ _ _ _ _ Hk Hnth) as Hlast.
  - cbn [trace_item walk_li map]. unfold described. cbn [fst snd].
    now rewrite app_nil_r, spec_prefix_snoc, Hlast.
  - rewrite trace_item_eq, walk_li_eq. cbn [map]. f_equal.
    + unfold described. cbn [fst snd].
      now rewrite app_nil_r, spec_prefix_snoc, Hlast.
    + rewrite <- Hlast, <- segments_snoc.
      apply loop_ok; [|exact IH|reflexivity].
      apply (child_list_snoc f q i (Li j inp d (Some k))).
      rewrite (node_at_snoc _ _ _ _ Hk). exact Hnth.
Qed.

Lemma calls_spec f :
  calls cfg f 0 [] = map (fun c => (snd c, spec_prefix cfg f (fst c))) (walk f).
Proof.
  rewrite calls_trace.
  change (@nil jsstring) with (segments cfg f []).
  rewrite (loop_ok f [] f eq_refl f 0); [reflexivity| |reflexivity].
  apply Forall_forall. intros x _. apply item_ok_all.
Qed.

End TraceSpec.

(** ** The prefix of a node *)

Lemma in_walk_from f :
  forall i k x r m,
    nth_error f k = Some x ->
    In (r, m) (walk_li x) ->
    In ((i + k) :: r, m) (walk_from i f).
Proof.
  induction f as [|y f IH]; intros i k x r m Hk Hin; [now destruct k|].
  cbn [walk_from]. apply in_or_app. destruct k as [|k].
  - left. cbn in Hk. injection Hk as ->. rewrite Nat.add_0_r.
    apply in_map_iff. now exists (r, m).
  - right. cbn in Hk. replace (i + S k) with (S i + k) by lia. now apply IH with x.
Qed.

Lemma node_at_in_walk p :
  forall f n, node_at f p = Some n -> In (p, n) (walk f).
Proof.
  induction p as [|i q IH]; intros f n Hn; [discriminate|].
  cbn [node_at] in Hn. destruct (nth_error f i) as [x|] eqn:Hx; [|discriminate].
  apply (in_walk_from f 0 i x q n Hx). rewrite walk_li_eq.
  destruct q as [|j q].
  - injection Hn as ->. now left.
  - right. now apply IH.
Qed.

Lemma lookup_path_described (g : path -> jsstring) p l :
  In p l -> lookup_path p (combine l (map g l)) = Some (g p).
Proof.
  induction l as [|q l IH]; intros Hin; [contradiction|].
  cbn [map combine lookup_path]. unfold path_eqb.
  destruct (list_eq_dec Nat.eq_dec p q) as [->|Hne]; [reflexivity|].
  destruct Hin as [->|Hin]; [contradiction|]. now apply IH.
Qed.

(** The calls are made on the nodes of the walk, in its order. *)
Lemma calls_nodes cfg f : map fst (calls cfg f 0 []) = map snd (walk f).
Proof. rewrite calls_spec, map_map. reflexivity. Qed.

Lemma computed_prefix_spec cfg f p n :
  node_at f p = Some n -> computed_prefix cfg f p = Some (spec_prefix cfg f p).
Proof.
  intros Hn. unfold computed_prefix. rewrite calls_spec, map_map. cbn [snd].
  rewrite <- (map_map fst (spec_prefix cfg f)).
  apply lookup_path_described.
  apply in_map_iff. exists (p, n). split; [reflexivity|].
  now apply node_at_in_walk.
Qed.

Lemma last3_app (a t : jsstring) : length t = 3 -> last3 (a ++ t) = t.
Proof.
  intros Ht. unfold last3. rewrite length_app, Ht.
  replace (length a + 3 - 3) with (length a + 0) by lia.
  now rewrite skipn_app, Nat.add_0_r, skipn_all, Nat.sub_diag.
Qed.

(** Whatever the tokens are, the string ends in the token configured for
    the node's place among its siblings. *)
Lemma connector_is_configured_token cfg f p n :
  node_at f p = Some n ->
  exists spacers,
    computed_prefix cfg f p =
    Some (spacers ++ (if is_last f p then branch_last cfg else branch cfg)).
Proof.
  intros Hn. rewrite (computed_prefix_spec cfg f p n Hn).
  now exists (concat (map (fun q => spacer cfg (is_last f q)) (ancestors p))).
Qed.

(** C1.  For every tree and every node below the root, the prefix string
    [_prefix] hands to the processor for that node ends in the connector
    [\--] exactly when the node is the last element of its parent's child
    sequence, and in [|--] exactly when it is not. *)
Theorem connector_iff_last_child (f : list li) (p : path) (n : li) :
  node_at f p = Some n ->
  exists s,
    computed_prefix prefix f p = Some s /\
    (last3 s = str "\--" <-> is_last f p = true) /\
    (last3 s = str "|--" <-> is_last f p = false).
Proof.
  intros Hn. exists (spec_prefix prefix f p).
  split; [now apply computed_prefix_spec with n|].
  unfold spec_prefix, connector.
  destruct (is_last f p); rewrite last3_app by reflexivity;
    cbn; split; split; intro H; try reflexivity; discriminate H.
Qed.

Lemma connector_iff_last_child_witness :
  node_at (listEntry example) [0; 0] = Some (Li 2 (set_hasListeners true (set_value (str "index.js") newNode_input)) (Some (str "|   \--")) None) /\
  exists s,
    computed_prefix prefix (listEntry example) [0; 0] = Some s /\
    (last3 s = str "\--" <-> is_last (listEntry example) [0; 0] = true) /\
    (last3 s = str "|--" <-> is_last (listEntry example) [0; 0] = false).
Proof.
  split; [reflexivity|].
  apply (connector_iff_last_child (listEntry example) [0; 0]
           (Li 2 (set_hasListeners true (set_value (str "index.js") newNode_input))
              (Some (str "|   \--")) None)).
  reflexivity.
Defined.

(** C2.  For every tree and every node below the root, the prefix string
    computed for the node is the concatenation, root-most ancestor first,
    of one spacer per proper ancestor below the root (four spaces when
    that ancestor is the last of its siblings, a pipe and three spaces
    otherwise) followed by the connector of the node itself. *)
Theorem prefix_is_ancestor_spacers_then_connector (f : list li) (p : path) (n : li) :
  node_at f p = Some n ->
  computed_prefix prefix f p =
  Some
    (concat
       (map (fun a => if is_last f a then str "    " else str "|   ")
          (ancestors p))
     ++ (if is_last f p then str "\--" else str "|--")).
Proof.
  intros Hn. now rewrite (computed_prefix_spec prefix f p n Hn).
Qed.

Lemma prefix_is_ancestor_spacers_then_connector_witness :
  node_at (listEntry example) [0; 0] = Some (Li 2 (set_hasListeners true (set_value (str "index.js") newNode_input)) (Some (str "|   \--")) None) /\
  computed_prefix prefix (listEntry example) [0; 0] = Some (str "|   \--").
Proof.
  split; [reflexivity|].
  apply (prefix_is_ancestor_spacers_then_connector (listEntry example) [0; 0]
           (Li 2 (set_hasListeners true (set_value (str "index.js") newNode_input))
              (Some (str "|   \--")) None)).
  reflexivity.
Defined.

(** ** [trim] *)

Lemma clean_start_trimStart s : clean_start (trimStart s) = true.
Proof.
  induction s as [|c r IH]; [reflexivity|].
  cbn [trimStart]. destruct (is_ws c) eqn:E; [exact IH|].
  cbn [clean_start]. now rewrite E.
Qed.

Lemma trimStart_snoc a c :
  is_ws c = false -> trimStart (a ++ [c]) = trimStart a ++ [c].
Proof.
  intros Hc. induction a as [|x a IH]; cbn [app trimStart].
  - now rewrite Hc.
  - destruct (is_ws x); [exact IH|reflexivity].
Qed.

Lemma trimEnd_cons c r : is_ws c = false -> trimEnd (c :: r) = c :: trimEnd r.
Proof.
  intros Hc. unfold trimEnd. cbn [rev].
  now rewrite (trimStart_snoc _ _ Hc), rev_app_distr.
Qed.

Lemma clean_start_trimEnd s : clean_start s = true -> clean_start (trimEnd s) = true.
Proof.
  destruct s as [|c r]; [reflexivity|]. cbn [clean_start]. intros Hc.
  apply negb_true_iff in Hc. rewrite (trimEnd_cons _ _ Hc).
  cbn [clean_start]. now rewrite Hc.
Qed.

Lemma clean_end_trimEnd s : clean_end (trimEnd s) = true.
Proof.
  unfold clean_end, trimEnd. rewrite rev_involutive. apply clean_start_trimStart.
Qed.

Lemma trim_clean s : clean_start (trim s) = true /\ clean_end (trim s) = true.
Proof.
  unfold trim. split.
  - apply clean_start_trimEnd, clean_start_trimStart.
  - apply clean_end_trimEnd.
Qed.

(** ** [toString] *)

Lemma fold_left_lines (l : list (li * jsstring)) (tree : jsstring) :
  fold_left
    (feed (fun item prefix tree =>
             let input := li_input item in
             tree ++ LF :: prefix ++ SP :: label input)) l tree =
  tree ++ concat (map (fun c => LF :: snd c ++ SP :: label (li_input (fst c))) l).
Proof.
  revert tree. induction l as [|[it p] r IH]; intros tree; cbn [fold_left map concat].
  - now rewrite app_nil_r.
  - rewrite IH. unfold feed. cbn [fst snd]. now rewrite <- app_assoc.
Qed.

Lemma toString_lines cfg e :
  toString cfg e =
  trim (join_lines (label (root e))
          (map (export_line cfg (listEntry e)) (walk (listEntry e)))).
Proof.
  unfold toString. cbv zeta. f_equal.
  rewrite _prefix_trace, fold_left_lines, <- calls_trace with (depth := 0).
  rewrite calls_spec. unfold join_lines. now rewrite !map_map.
Qed.

(** ** The annotations do not steer the traversal *)

Lemma trace_loop_plain cfg rest :
  Forall (fun n => forall spacers last,
            trace_item cfg spacers last (plain_li n) =
            map erase_item (trace_item cfg spacers last n)) rest ->
  forall spacers l i,
    trace_loop cfg spacers l (map plain_li rest) i =
    map erase_item (trace_loop cfg spacers l rest i).
Proof.
  induction 1 as [|x r Hx _ IH]; intros spacers l i; [reflexivity|].
  cbn [map trace_loop]. now rewrite map_app, Hx, IH.
Qed.

Lemma trace_item_plain cfg n :
  forall spacers last,
    trace_item cfg spacers last (plain_li n) =
    map erase_item (trace_item cfg spacers last n).
Proof.
  induction n as [j inp d|j inp d k IH] using li_rect'; intros spacers last.
  - reflexivity.
  - cbn [plain_li]. rewrite !trace_item_eq. cbn [map]. f_equal.
    rewrite length_map. now apply trace_loop_plain.
Qed.

Lemma calls_plain cfg f :
  calls cfg (plain f) 0 [] = map erase_item (calls cfg f 0 []).
Proof.
  rewrite !calls_trace. unfold plain. rewrite length_map.
  apply trace_loop_plain. apply Forall_forall. intros x _. apply trace_item_plain.
Qed.

Lemma li_id_plain n : li_id (plain_li n) = li_id n.
Proof. now destruct n. Qed.

Lemma li_input_plain n : li_input (plain_li n) = li_input n.
Proof. now destruct n. Qed.

Lemma prefix_strings_plain cfg f :
  prefix_strings cfg (plain f) = prefix_strings cfg f.
Proof.
  unfold prefix_strings. rewrite calls_plain, map_map.
  apply map_ext. intros [n p]. unfold erase_item. cbn [fst snd].
  now rewrite li_id_plain.
Qed.

Lemma prefix_strings_same_plain cfg f g :
  plain f = plain g -> prefix_strings cfg f = prefix_strings cfg g.
Proof.
  intros H. now rewrite <- (prefix_strings_plain cfg f), H, prefix_strings_plain.
Qed.

(** ** [render] writes annotations only *)

Lemma plain_set_dataset_prefix_li id p n :
  plain_li (set_dataset_prefix_li id p n) = plain_li n.
Proof.
  induction n as [j inp d|j inp d k IH] using li_rect'; [reflexivity|].
  cbn [set_dataset_prefix_li plain_li]. do 2 f_equal.
  rewrite map_map. apply map_ext_Forall. exact IH.
Qed.

Lemma plain_set_dataset_prefix id p f :
  plain (set_dataset_prefix id p f) = plain f.
Proof.
  unfold plain, set_dataset_prefix. rewrite map_map.
  apply map_ext. intros n. apply plain_set_dataset_prefix_li.
Qed.

Lemma fold_feed_writes l :
  forall page,
    fold_left
      (feed (fun item prefix page => set_dataset_prefix (li_id item) prefix page))
      l page =
    fold_left write (map (fun c => (li_id (fst c), snd c)) l) page.
Proof.
  induction l as [|[n p] l IH]; intros page; [reflexivity|].
  cbn [fold_left map]. apply IH.
Qed.

Lemma render_list_writes cfg f :
  render_list cfg f = fold_left write (prefix_strings cfg f) f.
Proof.
  unfold render_list, prefix_strings. rewrite _prefix_trace, calls_trace.
  apply fold_feed_writes.
Qed.

Lemma plain_writes l : forall f, plain (fold_left write l f) = plain f.
Proof.
  induction l as [|w l IH]; intros f; [reflexivity|].
  cbn [fold_left]. rewrite IH. apply plain_set_dataset_prefix.
Qed.

Lemma plain_render_list cfg f : plain (render_list cfg f) = plain f.
Proof. rewrite render_list_writes. apply plain_writes. Qed.

(** Two writes: the later one wins on the same element, and writes on
    different elements commute. *)
Lemma write_write_head (a i j : nat) (p q : jsstring) (d : option jsstring) :
  (if a =? i then Some p else if a =? j then Some q else d) =
  if i =? j then (if a =? i then Some p else d)
  else if a =? j then Some q else if a =? i then Some p else d.
Proof.
  destruct (i =? j) eqn:E, (a =? i) eqn:Ei, (a =? j) eqn:Ej; try reflexivity;
    apply Nat.eqb_eq in Ej || apply Nat.eqb_neq in Ej;
    apply Nat.eqb_eq in Ei || apply Nat.eqb_neq in Ei;
    apply Nat.eqb_eq in E || apply Nat.eqb_neq in E; congruence.
Qed.

Lemma write_write_li i p j q n :
  set_dataset_prefix_li i p (set_dataset_prefix_li j q n) =
  if i =? j then set_dataset_prefix_li i p n
  else set_dataset_prefix_li j q (set_dataset_prefix_li i p n).
Proof.
  induction n as [a inp d|a inp d k IH] using li_rect'.
  - cbn [set_dataset_prefix_li]. rewrite write_write_head.
    now destruct (i =? j).
  - cbn [set_dataset_prefix_li]. rewrite write_write_head.
    assert (Hk :
      map (set_dataset_prefix_li i p) (map (set_dataset_prefix_li j q) k) =
      if i =? j then map (set_dataset_prefix_li i p) k
      else map (set_dataset_prefix_li j q) (map (set_dataset_prefix_li i p) k)).
    { destruct (i =? j) eqn:E; rewrite !map_map; apply map_ext_Forall;
        exact IH. }
    rewrite Hk. now destruct (i =? j).
Qed.

Lemma write_write i p j q f :
  set_dataset_prefix i p (set_dataset_prefix j q f) =
  if i =? j then set_dataset_prefix i p f
  else set_dataset_prefix j q (set_dataset_prefix i p f).
Proof.
  unfold set_dataset_prefix.
  destruct (i =? j) eqn:E; rewrite !map_map; apply map_ext; intros n;
    rewrite write_write_li, E; reflexivity.
Qed.

(** A write is lost when a later run writes the same element again. *)
Lemma writes_absorb l :
  forall i p f,
    In i (map fst l) ->
    fold_left write l (set_dataset_prefix i p f) = fold_left write l f.
Proof.
  induction l as [|[j q] l IH]; intros i p f Hin; [contradiction|].
  cbn [fold_left]. unfold write at 2 4. cbn [fst snd].
  rewrite write_write. destruct (j =? i) eqn:E; [reflexivity|].
  apply IH. destruct Hin as [Hin|Hin]; [|exact Hin].
  cbn in Hin. apply Nat.eqb_neq in E. congruence.
Qed.

Lemma writes_twice l l' :
  incl (map fst l') (map fst l) ->
  forall f, fold_left write l (fold_left write l' f) = fold_left write l f.
Proof.
  induction l' as [|[j q] l' IH]; intros Hincl f; [reflexivity|].
  cbn [fold_left]. rewrite IH.
  - apply writes_absorb. apply Hincl. now left.
  - intros x Hx. apply Hincl. now right.
Qed.

Lemma render_list_twice cfg f :
  render_list cfg (render_list cfg f) = render_list cfg f.
Proof.
  rewrite (render_list_writes cfg (render_list cfg f)).
  rewrite (prefix_strings_same_plain cfg _ f (plain_render_list cfg f)).
  rewrite render_list_writes. apply writes_twice. apply incl_refl.
Qed.

Lemma toString_calls cfg e :
  toString cfg e =
  trim (label (root e) ++
        concat (map (fun c => LF :: snd c ++ SP :: label (li_input (fst c)))
                  (calls cfg (listEntry e) 0 []))).
Proof.
  unfold toString. cbv zeta.
  now rewrite _prefix_trace, fold_left_lines, <- calls_trace with (depth := 0).
Qed.

Lemma toString_plain cfg e f :
  plain f = plain (listEntry e) ->
  toString cfg (with_listEntry f e) = toString cfg e.
Proof.
  intros H. rewrite !toString_calls. cbn [root listEntry with_listEntry].
  do 3 f_equal.
  assert (Hc : forall g,
    map (fun c => LF :: snd c ++ SP :: label (li_input (fst c))) (calls cfg g 0 []) =
    map (fun c => LF :: snd c ++ SP :: label (li_input (fst c)))
      (calls cfg (plain g) 0 [])).
  { intros g. rewrite calls_plain, map_map. apply map_ext. intros [n p].
    unfold erase_item. cbn [fst snd]. now rewrite li_input_plain. }
  now rewrite (Hc f), (Hc (listEntry e)), H.
Qed.

(** C6.  Running the prefix algorithm a second time on the tree as the
    first run left it, with the same tokens, hands the processor the same
    prefix string for every node: a second [render] writes what is
    already there, and the export is the same before and after. *)
Theorem prefix_run_idempotent (cfg : prefix_tokens) (e : editor) :
  prefix_strings cfg (listEntry (render cfg e)) = prefix_strings cfg (listEntry e)
  /\ render cfg (render cfg e) = render cfg e
  /\ toString cfg (render cfg e) = toString cfg e.
Proof.
  split; [|split].
  - apply prefix_strings_same_plain. apply plain_render_list.
  - unfold render. cbn [listEntry with_listEntry]. unfold with_listEntry.
    cbn. now rewrite render_list_twice.
  - apply toString_plain. apply plain_render_list.
Qed.

(** ** The prefix of a node and the rest of the tree *)

Lemma spec_prefix_chain cfg f g p :
  p <> [] ->
  last_chain f p = last_chain g p ->
  spec_prefix cfg f p = spec_prefix cfg g p.
Proof.
  intros Hp H. destruct (exists_last Hp) as (q & i & ->).
  unfold last_chain in H. rewrite prefixes_snoc, !map_app in H.
  apply app_inj_tail in H as [Hq Hi].
  rewrite !spec_prefix_snoc. unfold segments.
  rewrite <- (map_map (is_last f) (spacer cfg)), <- (map_map (is_last g) (spacer cfg)).
  now rewrite Hq, Hi.
Qed.

Lemma export_feed_page l :
  forall st : list li * jsstring,
    fst (fold_left
           (feed (fun item prefix st =>
                    let input := li_input item in
                    (fst st, snd st ++ LF :: prefix ++ SP :: label input)))
           l st) = fst st.
Proof.
  induction l as [|c l IH]; intros st; [reflexivity|].
  cbn [fold_left]. now rewrite IH.
Qed.

Lemma export_run_page cfg f tree : fst (export_run cfg f tree) = f.
Proof.
  unfold export_run. rewrite _prefix_trace. apply export_feed_page.
Qed.

Lemma export_run_string cfg e :
  toString cfg e = trim (snd (export_run cfg (listEntry e) (label (root e)))).
Proof.
  unfold toString, export_run. cbv zeta. f_equal.
  rewrite !_prefix_trace.
  generalize (trace_loop cfg [] (length (listEntry e)) (listEntry e) 0) as l.
  generalize (label (root e)) as tree. generalize (listEntry e) as page.
  intros page tree l. revert tree.
  induction l as [|c l IH]; intros tree; [reflexivity|].
  cbn [fold_left]. unfold feed at 2 4. cbn [fst snd]. apply IH.
Qed.

(** C10.  A run of the prefix algorithm leaves the tree as it was: after
    [render] every branch has the identity, input, child sequence and
    order it had (only [dataset.prefix] is written), the export run does
    not write the page at all, and the prefix of a node is decided by
    which of the nodes on its own ancestor chain are last among their
    siblings: two trees that agree on that chain give the node the same
    prefix, whatever else they hold. *)
Theorem prefix_run_frame (cfg : prefix_tokens) (f : list li) :
  plain (render_list cfg f) = plain f
  /\ (forall tree, fst (export_run cfg f tree) = f)
  /\ (forall g p n m,
        node_at f p = Some n ->
        node_at g p = Some m ->
        last_chain f p = last_chain g p ->
        computed_prefix cfg f p = computed_prefix cfg g p).
Proof.
  split; [apply plain_render_list|].
  split; [intros tree; apply export_run_page|].
  intros g p n m Hn Hm Hc.
  rewrite (computed_prefix_spec cfg f p n Hn), (computed_prefix_spec cfg g p m Hm).
  f_equal. apply spec_prefix_chain; [|exact Hc].
  intros ->. discriminate Hn.
Qed.

Lemma prefix_run_frame_witness :
  computed_prefix prefix (listEntry example) [0; 0] =
  computed_prefix prefix other_tree [0; 0].
Proof.
  destruct (prefix_run_frame prefix (listEntry example)) as (_ & _ & H).
  apply (H other_tree [0; 0]
           (Li 2 (set_hasListeners true (set_value (str "index.js") newNode_input))
              (Some (str "|   \--")) None)
           (Li 11 (set_value (str "main.c") newNode_input) None None));
    vm_compute; reflexivity.
Defined.

(** ** [clear] *)

Lemma clear_loop_nil children : clear_loop children = [].
Proof. induction children as [|x r IH]; [reflexivity|exact IH]. Qed.

(** C9.  For every tree, after [clear()] the child sequence of the root
    is empty, and the root itself is still there with its label as it
    was. *)
Theorem clear_empties_root_children (e : editor) :
  listEntry (clear e) = [] /\ root (clear e) = root e.
Proof.
  unfold clear. cbn [listEntry root with_listEntry].
  split; [apply clear_loop_nil|reflexivity].
Qed.

(** ** The example of the specification *)

Lemma example_tree :
  content (listEntry example) =
  [ Node 1 (str "src") (str "Directory or File Name")
      [ Node 2 (str "index.js") (str "Directory or File Name") [] ];
    Node 3 (str "README.md") (str "Directory or File Name") [] ]
  /\ value (root example) = str "project".
Proof. split; vm_compute; reflexivity. Qed.

Lemma example_export :
  toString prefix example =
  str "project" ++ LF :: str "|-- src" ++ LF :: str "|   \-- index.js"
  ++ LF :: str "\-- README.md".
Proof. vm_compute. reflexivity. Qed.

(** The export reads the labels and the child sequences; the listener
    flags and the annotations written by [update] do not show in it. *)
Lemma trace_loop_map_inputs cfg g rest :
  Forall (fun n => forall spacers last,
            trace_item cfg spacers last (map_inputs g n) =
            map (fun c => (map_inputs g (fst c), snd c))
              (trace_item cfg spacers last n)) rest ->
  forall spacers l i,
    trace_loop cfg spacers l (map (map_inputs g) rest) i =
    map (fun c => (map_inputs g (fst c), snd c)) (trace_loop cfg spacers l rest i).
Proof.
  induction 1 as [|x r Hx _ IH]; intros spacers l i; [reflexivity|].
  cbn [map trace_loop]. now rewrite map_app, Hx, IH.
Qed.

Lemma trace_item_map_inputs cfg g n :
  forall spacers last,
    trace_item cfg spacers last (map_inputs g n) =
    map (fun c => (map_inputs g (fst c), snd c)) (trace_item cfg spacers last n).
Proof.
  induction n as [j inp d|j inp d k IH] using li_rect'; intros spacers last.
  - reflexivity.
  - cbn [map_inputs]. rewrite !trace_item_eq. cbn [map]. f_equal.
    rewrite length_map. now apply trace_loop_map_inputs.
Qed.

Lemma toString_map_inputs cfg g e :
  (forall inp, label (g inp) = label inp) ->
  toString cfg (with_root (g (root e))
                  (with_listEntry (map (map_inputs g) (listEntry e)) e)) =
  toString cfg e.
Proof.
  intros Hg. rewrite !toString_calls.
  cbn [root listEntry with_root with_listEntry]. rewrite Hg. do 3 f_equal.
  rewrite !calls_trace, length_map, trace_loop_map_inputs
    by (apply Forall_forall; intros x _; apply trace_item_map_inputs).
  rewrite map_map. apply map_ext. intros [n p]. cbn [fst snd].
  destruct n as [j inp d u]. cbn [map_inputs li_input]. now rewrite Hg.
Qed.

Lemma toString_update cfg e : toString cfg (update cfg e) = toString cfg e.
Proof.
  unfold update. destruct (delayUpdate e); [reflexivity|].
  unfold render. rewrite toString_plain by apply plain_render_list.
  unfold _addMenuListeners. now apply toString_map_inputs.
Qed.

Lemma removeChild_first i1 i3 inp1 d1 u1 inp3 d3 u3 :
  i3 <> i1 ->
  u3 = None \/ u3 = Some [] ->
  removeChild i1 [Li i1 inp1 d1 u1; Li i3 inp3 d3 u3] = [Li i3 inp3 d3 u3].
Proof.
  intros Hne Hu3. apply Nat.eqb_neq in Hne.
  unfold removeChild, eq_id. cbn [map filter removeChild_li li_id].
  rewrite Nat.eqb_refl, Hne. cbn [negb].
  now destruct Hu3 as [-> | ->].
Qed.

Lemma export_single cfg e it :
  children it = [] ->
  listEntry e = [it] ->
  toString cfg e =
  trim (label (root e) ++ LF :: branch_last cfg ++ SP :: label (li_input it)).
Proof.
  intros Hc Hf. rewrite toString_calls, Hf, calls_trace.
  cbn [length trace_loop].
  destruct it as [j inp d [k|]]; cbn [children li_ul] in Hc; subst;
    rewrite trace_item_eq; cbn; now rewrite app_nil_r.
Qed.

(** C7.  On a tree [project] with the children [src] (holding
    [index.js]) and [README.md], whatever elements and placeholders it
    is made of, deleting the branch [src] and exporting gives [project],
    a line feed, and [\-- README.md]. *)
Theorem delete_src_then_export
    (e : editor) (i1 i2 i3 : nat) (h1 h2 h3 : jsstring) :
  value (root e) = str "project" ->
  content (listEntry e) =
    [ Node i1 (str "src") h1 [ Node i2 (str "index.js") h2 [] ];
      Node i3 (str "README.md") h3 [] ] ->
  i3 <> i1 ->
  exists e',
    deleteBranch prefix (Branch i1) e = Returns tt e' /\
    toString prefix e' = str "project" ++ LF :: str "\-- README.md".
Proof.
  intros Hroot Htree Hne.
  destruct (listEntry e) as [|[a1 inp1 d1 u1] [|[a3 inp3 d3 u3] [|]]] eqn:Hf;
    try discriminate Htree.
  cbn [content map content_li] in Htree.
  injection Htree as -> Hv1 Hh1 Hk1 -> Hv3 Hh3 Hk3.
  assert (Hu3 : u3 = None \/ u3 = Some []).
  { destruct u3 as [[|]|]; [now right|discriminate Hk3|now left]. }
  unfold deleteBranch, inside. rewrite Hf. cbn [existsb inside_li].
  rewrite Nat.eqb_refl. cbn [orb]. eexists. split; [reflexivity|].
  rewrite (removeChild_first _ _ _ _ _ _ _ _ Hne Hu3), toString_update.
  rewrite (export_single prefix _ (Li i3 inp3 d3 u3)).
  - unfold hide_menu. cbn [root with_contextMenu with_listEntry li_input].
    unfold label. rewrite Hroot, Hv3. vm_compute. reflexivity.
  - now destruct Hu3 as [-> | ->].
  - reflexivity.
Qed.

Lemma delete_src_then_export_witness :
  exists e',
    deleteBranch prefix (Branch 1) example = Returns tt e' /\
    toString prefix e' = str "project" ++ LF :: str "\-- README.md".
Proof.
  apply (delete_src_then_export example 1 2 3
           (str "Directory or File Name") (str "Directory or File Name")
           (str "Directory or File Name")).
  - vm_compute. reflexivity.
  - vm_compute. reflexivity.
  - discriminate.
Defined.

(** ** Branches and their identities *)

Lemma NoDup_app_disjoint {A : Type} (l1 l2 : list A) (a : A) :
  NoDup (l1 ++ l2) -> In a l1 -> ~ In a l2.
Proof.
  induction l1 as [|x l1 IH]; intros Hnd Hin; [contradiction|].
  cbn in Hnd. inversion Hnd as [|? ? Hx Hnd']; subst.
  destruct Hin as [->|Hin]; [|now apply IH].
  intros H2. apply Hx. apply in_or_app. now right.
Qed.

Lemma ids_li_eq n : ids_li n = li_id n :: ids (children n).
Proof. destruct n as [j inp d [k|]]; reflexivity. Qed.

Lemma li_id_in_ids_li n : In (li_id n) (ids_li n).
Proof. rewrite ids_li_eq. now left. Qed.

Lemma ids_cons x r : ids (x :: r) = ids_li x ++ ids r.
Proof. reflexivity. Qed.

Lemma in_ids f x i : In x f -> In i (ids_li x) -> In i (ids f).
Proof. intros Hx Hi. apply in_flat_map. now exists x. Qed.

Lemma node_at_cons f j q n :
  node_at f (j :: q) = Some n ->
  exists x, nth_error f j = Some x /\
            (q = [] /\ n = x \/ q <> [] /\ node_at (children x) q = Some n).
Proof.
  cbn [node_at]. destruct (nth_error f j) as [x|]; [|discriminate].
  intros H. exists x. split; [reflexivity|].
  destruct q as [|a q]; [left|right].
  - now injection H as ->.
  - split; [discriminate|exact H].
Qed.

Lemma node_at_ids p : forall f n, node_at f p = Some n -> In (li_id n) (ids f).
Proof.
  induction p as [|j q IH]; intros f n Hn; [discriminate|].
  apply node_at_cons in Hn as (x & Hx & [[-> ->]|[_ Hn]]).
  - apply in_ids with x; [now apply nth_error_In with j|apply li_id_in_ids_li].
  - apply in_ids with x; [now apply nth_error_In with j|].
    rewrite ids_li_eq. right. now apply IH.
Qed.

(** ** [addSibling] *)

Section AppendSibling.

Variables (i : nat) (new : li).

Lemma existsb_eq_id_false f :
  (forall y, In y f -> li_id y <> i) -> existsb (eq_id i) f = false.
Proof.
  intros H. apply not_true_is_false. intros E.
  apply existsb_exists in E as (y & Hy & E).
  apply Nat.eqb_eq in E. now apply (H y).
Qed.

Lemma appendSibling_li_below n :
  ~ In i (ids (children n)) -> appendSibling_li i new n = n.
Proof.
  induction n as [j inp d|j inp d k IH] using li_rect'; intros Hk; [reflexivity|].
  cbn [appendSibling_li]. cbn [children li_ul] in Hk.
  rewrite existsb_eq_id_false.
  - do 2 f_equal. rewrite <- (map_id k) at 2. apply map_ext_Forall.
    rewrite Forall_forall in IH |- *. intros x Hx. apply IH; [exact Hx|].
    intros H. apply Hk. apply in_ids with x; [exact Hx|].
    rewrite ids_li_eq. now right.
  - intros y Hy E. apply Hk. apply in_ids with y; [exact Hy|].
    rewrite <- E. apply li_id_in_ids_li.
Qed.

Lemma appendSibling_li_absent n :
  ~ In i (ids_li n) -> appendSibling_li i new n = n.
Proof.
  intros Hi. apply appendSibling_li_below. intros H. apply Hi.
  rewrite ids_li_eq. now right.
Qed.

Lemma appendSibling_elsewhere f :
  forall j x,
    NoDup (ids f) ->
    nth_error f j = Some x ->
    In i (ids_li x) ->
    map (appendSibling_li i new) f = update_nth j (appendSibling_li i new) f.
Proof.
  induction f as [|y r IH]; intros j x Hnd Hx Hi; [reflexivity|].
  rewrite ids_cons in Hnd. destruct j as [|j]; cbn [map update_nth].
  - cbn in Hx. injection Hx as ->. f_equal.
    rewrite <- (map_id r) at 2. apply map_ext_in. intros z Hz.
    apply appendSibling_li_absent. intros H.
    apply (NoDup_app_disjoint _ _ i Hnd Hi). now apply in_ids with z.
  - cbn in Hx. f_equal.
    + apply appendSibling_li_absent. intros H.
      apply (NoDup_app_disjoint _ _ i Hnd H).
      apply in_ids with x; [now apply nth_error_In with j|exact Hi].
    + apply IH with x; [now apply NoDup_app_remove_l in Hnd|exact Hx|exact Hi].
Qed.

Lemma top_level_absent f :
  forall j x,
    NoDup (ids f) ->
    nth_error f j = Some x ->
    In i (ids (children x)) ->
    forall y, In y f -> li_id y <> i.
Proof.
  induction f as [|y0 r IH]; intros j x Hnd Hx Hi y Hy; [contradiction|].
  rewrite ids_cons in Hnd. destruct j as [|j].
  - cbn in Hx. injection Hx as ->. rewrite ids_li_eq in Hnd.
    cbn in Hnd. inversion Hnd as [|? ? Hhead Hnd']; subst.
    destruct Hy as [->|Hy].
    + intros E. apply Hhead. rewrite E. apply in_or_app. now left.
    + intros E. apply (NoDup_app_disjoint _ _ i Hnd' Hi).
      apply in_ids with y; [exact Hy|]. rewrite <- E. apply li_id_in_ids_li.
  - cbn in Hx. destruct Hy as [->|Hy].
    + intros E.
      apply (NoDup_app_disjoint _ _ i Hnd); [rewrite <- E; apply li_id_in_ids_li|].
      apply in_ids with x; [now apply nth_error_In with j|].
      rewrite ids_li_eq. now right.
    + apply IH with j x; [now apply NoDup_app_remove_l in Hnd|exact Hx|exact Hi|exact Hy].
Qed.

Lemma update_nth_id {A : Type} (l : list A) :
  forall k, update_nth k (fun m => m) l = l.
Proof.
  induction l as [|a l IH]; intros [|k]; cbn; try reflexivity. now rewrite IH.
Qed.

Lemma content_update_nth (g : li -> li) (g' : node -> node) f :
  forall j x,
    nth_error f j = Some x ->
    content_li (g x) = g' (content_li x) ->
    content (update_nth j g f) = update_nth j g' (content f).
Proof.
  induction f as [|y r IH]; intros j x Hx Hg; [now destruct j|].
  destruct j as [|j]; cbn in Hx |- *.
  - injection Hx as ->. now rewrite Hg.
  - f_equal. now apply IH with x.
Qed.

Lemma content_appendSibling q :
  forall f k n,
    NoDup (ids f) ->
    node_at f (q ++ [k]) = Some n ->
    li_id n = i ->
    content (appendSibling i new f) = insert_last q (content_li new) (content f).
Proof.
  induction q as [|j q IH]; intros f k n Hnd Hn Hid.
  - cbn [app] in Hn. apply node_at_cons in Hn as (x & Hx & [[_ ->]|[Hq _]]);
      [|contradiction].
    unfold appendSibling.
    assert (Hex : existsb (eq_id i) f = true).
    { apply existsb_exists. exists x. split; [now apply nth_error_In with k|].
      now apply Nat.eqb_eq. }
    rewrite Hex. cbn [insert_last]. unfold content. rewrite map_app. cbn [map].
    f_equal. rewrite (appendSibling_elsewhere f k x Hnd Hx)
      by (rewrite <- Hid; apply li_id_in_ids_li).
    rewrite (content_update_nth _ (fun m => m) f k x Hx).
    + apply update_nth_id.
    + f_equal. apply appendSibling_li_below.
      clear Hex.
      assert (Hin : In x f) by now apply nth_error_In with k.
      apply in_split in Hin as (l1 & l2 & ->).
      unfold ids in Hnd. rewrite flat_map_app in Hnd. cbn [flat_map] in Hnd.
      apply NoDup_app_remove_l in Hnd. apply NoDup_app_remove_r in Hnd.
      rewrite ids_li_eq in Hnd. inversion Hnd as [|? ? Hhead _]; subst.
      exact Hhead.
  - cbn [app] in Hn. apply node_at_cons in Hn as (x & Hx & [[Hq _]|[_ Hn]]);
      [now destruct q|].
    assert (Hi : In i (ids (children x))) by (rewrite <- Hid; now apply node_at_ids with (q ++ [k])).
    unfold appendSibling.
    rewrite (existsb_eq_id_false f (top_level_absent f j x Hnd Hx Hi)).
    cbn [insert_last].
    rewrite (appendSibling_elsewhere f j x Hnd Hx)
      by (rewrite ids_li_eq; now right).
    apply content_update_nth with x; [exact Hx|].
    destruct x as [a inp d [kk|]]; [|contradiction].
    cbn [appendSibling_li content_li with_kids children li_ul] in *. f_equal.
    apply (IH kk k n); [|exact Hn|exact Hid].
    assert (Hin : In (Li a inp d (Some kk)) f) by now apply nth_error_In with j.
    apply in_split in Hin as (l1 & l2 & ->).
    unfold ids in Hnd. rewrite flat_map_app in Hnd. cbn [flat_map ids_li] in Hnd.
    apply NoDup_app_remove_l in Hnd. apply NoDup_app_remove_r in Hnd.
    now inversion Hnd.
Qed.

End AppendSibling.

(** ** [update] keeps the tree *)

Lemma content_li_plain n : content_li (plain_li n) = content_li n.
Proof.
  induction n as [j inp d|j inp d k IH] using li_rect'; [reflexivity|].
  cbn [plain_li content_li]. f_equal. rewrite map_map. now apply map_ext_Forall.
Qed.

Lemma content_same_plain f g : plain f = plain g -> content f = content g.
Proof.
  intros H.
  assert (Hc : forall h, content h = content (plain h)).
  { intros h. unfold content, plain. rewrite map_map.
    apply map_ext. intros n. now rewrite content_li_plain. }
  now rewrite (Hc f), (Hc g), H.
Qed.

Lemma content_li_map_inputs g n :
  (forall inp, value (g inp) = value inp /\ placeholder (g inp) = placeholder inp) ->
  content_li (map_inputs g n) = content_li n.
Proof.
  intros Hg. induction n as [j inp d|j inp d k IH] using li_rect';
    cbn [map_inputs content_li]; destruct (Hg inp) as [-> ->]; [reflexivity|].
  f_equal. rewrite map_map. now apply map_ext_Forall.
Qed.

Lemma content_update cfg e :
  content (listEntry (update cfg e)) = content (listEntry e).
Proof.
  unfold update. destruct (delayUpdate e); [reflexivity|].
  unfold render, _addMenuListeners. cbn [listEntry with_listEntry with_root].
  rewrite (content_same_plain _ _ (plain_render_list cfg _)).
  unfold content. rewrite map_map. apply map_ext. intros n.
  apply content_li_map_inputs. intros inp. now split.
Qed.

Lemma in_ids_inside i f : In i (ids f) -> inside i f = true.
Proof.
  assert (Hli : forall n, In i (ids_li n) -> inside_li i n = true).
  { induction n as [j inp d|j inp d k IH] using li_rect'; cbn [ids_li inside_li];
      intros [->|H]; try (now rewrite Nat.eqb_refl); [contradiction|].
    apply orb_true_iff. right. apply in_flat_map in H as (x & Hx & Hi).
    apply existsb_exists. exists x. split; [exact Hx|].
    rewrite Forall_forall in IH. now apply IH. }
  intros H. apply in_flat_map in H as (x & Hx & Hi).
  apply existsb_exists. exists x. split; [exact Hx|now apply Hli].
Qed.

(** ** The menu never offers [addSibling] on the root *)

Lemma fields_update cfg e : fields (update cfg e) = fields e.
Proof. unfold update. now destruct (delayUpdate e) eqn:E. Qed.

Lemma fields_on_input t g e : fields (on_input t g e) = fields e.
Proof. now destruct t. Qed.

Lemma fields_addSibling cfg b e e' :
  settle (addSibling cfg b e) = Some e' -> fields e' = fields e.
Proof.
  unfold addSibling. destruct b as [|id]; [|destruct (inside id (listEntry e))];
    cbn [settle]; intros H; inversion H; now rewrite fields_update.
Qed.

Lemma fields_addChild cfg b e e' :
  settle (addChild cfg b e) = Some e' -> fields e' = fields e.
Proof.
  unfold addChild. destruct b as [|id]; [|destruct (inside id (listEntry e))];
    cbn [settle]; intros H; inversion H; now rewrite fields_update.
Qed.

Lemma fields_moveBranch b e e' :
  settle (moveBranch b e) = Some e' -> fields e' = fields (with_inMoveState true e).
Proof.
  unfold moveBranch. destruct b as [|id]; [|destruct (inside id (listEntry e))];
    cbn [settle]; intros H; inversion H; reflexivity.
Qed.

Lemma fields_deleteBranch cfg b e e' :
  settle (deleteBranch cfg b e) = Some e' -> fields e' = fields (hide_menu e).
Proof.
  unfold deleteBranch. destruct b as [|id]; [|destruct (inside id (listEntry e))];
    cbn [settle]; intros H; inversion H; now rewrite fields_update.
Qed.

Lemma fields__moveBranch cfg t e e' :
  settle (_moveBranch cfg t e) = Some e' ->
  fields e' = fields e \/ fields e' = fields (with_inMoveState false e).
Proof.
  unfold _moveBranch. destruct (activeBranch e) as [[|a]|] eqn:Ha; cbn [settle];
    [discriminate| |intros H; inversion H; now left].
  destruct (find a (listEntry e)) as [sub|]; [|discriminate].
  destruct t as [|d].
  - cbn [settle]. intros H. inversion H. right. now rewrite fields_update.
  - destruct (inside_li d sub); [|destruct (inside d _)]; cbn [settle];
      intros H; inversion H; [now left|right; now rewrite fields_update].
Qed.

Lemma fields_with_inMoveState b e e1 :
  fields e1 = fields e ->
  fields (with_inMoveState b e1) = fields (with_inMoveState b e).
Proof. unfold fields. cbn. intros H. now inversion H. Qed.

Lemma fields_dispatch_click cfg n :
  forall t e e',
    dispatch_click cfg n t e = Some e' ->
    fields e' = fields e \/ fields e' = fields (with_inMoveState false e).
Proof.
  induction n as [|n IH]; intros t e e' H; cbn [dispatch_click] in H.
  - inversion H. now left.
  - destruct (settle (_moveBranch cfg t e)) as [e1|] eqn:E; [|discriminate].
    apply fields__moveBranch in E. apply IH in H.
    destruct E as [E|E], H as [H|H].
    + left. congruence.
    + right. rewrite H. now apply fields_with_inMoveState.
    + right. congruence.
    + right. rewrite H, (fields_with_inMoveState false _ _ E). reflexivity.
Qed.

(** Where the tree follows the page, [step] is one of the runs of
    [handled]. *)
Lemma step_handled cfg ev e e' : step cfg ev e = Some e' -> handled ev e e'.
Proof.
  intros H. destruct ev; cbn [step] in H.
  - destruct (input_of target e) as [inp|];
      [|inversion H; now apply handled_no_write].
    inversion H. destruct (hasListeners inp); [|now apply handled_no_write].
    unfold _handleBranchMouseOver. destruct (inMoveState e) eqn:Hm.
    + apply handled_no_write. apply fields_on_input.
    + now apply handled_mouseover.
  - apply handled_no_write.
    destruct (input_of target e) as [inp|]; inversion H; [|reflexivity].
    destruct (hasListeners inp); [|reflexivity].
    unfold _handleBranchMouseOut. destruct (inMoveState e); [|reflexivity].
    apply fields_on_input.
  - destruct (input_of target e) as [inp|];
      [|inversion H; now apply handled_no_write].
    apply fields_dispatch_click in H as [H|H];
      [now apply handled_no_write|now apply handled_click].
  - apply handled_no_write. destruct (_ && _); [|now inversion H].
    unfold menu_addSibling in H. destruct (activeBranch e) as [b|];
      [|now inversion H]. now apply fields_addSibling with cfg b.
  - apply handled_no_write. destruct (el_active _); [|now inversion H].
    unfold menu_addChild in H. destruct (activeBranch e) as [b|];
      [|now inversion H]. now apply fields_addChild with cfg b.
  - destruct (_ && _); [|inversion H; now apply handled_no_write].
    apply handled_click_moveBranch. unfold menu_moveBranch in H.
    destruct (activeBranch e) as [b|]; [|now inversion H].
    now apply fields_moveBranch with b.
  - destruct (_ && _); [|inversion H; now apply handled_no_write].
    unfold menu_deleteBranch in H. destruct (activeBranch e) as [b|].
    + apply handled_click_deleteBranch. now apply fields_deleteBranch with cfg b.
    + inversion H. now apply handled_no_write.
  - inversion H. now apply handled_no_write.
  - inversion H. now apply handled_menu_hides.
  - inversion H. apply handled_no_write. apply fields_on_input.
Qed.

Lemma run_handled_all cfg evs :
  forall e e', run cfg evs e = Some e' -> handled_all evs e e'.
Proof.
  induction evs as [|ev evs IH]; intros e e' H; cbn [run] in H.
  - inversion H. constructor.
  - destruct (step cfg ev e) as [e1|] eqn:E; [|discriminate].
    apply handled_cons with e1; [now apply step_handled with cfg|now apply IH].
Qed.

(** What holds of the fields wherever [_positionContextMenu] has set
    them, and is not touched by the other writes, holds after every
    event. *)
Lemma handled_keeps (Q : editor -> Prop) :
  (forall e e', fields e' = fields e -> Q e -> Q e') ->
  (forall t e, Q (_positionContextMenu t e)) ->
  (forall b e, Q e -> Q (with_inMoveState b e)) ->
  (forall e, Q e -> Q (hide_menu e)) ->
  forall ev e e', Q e -> handled ev e e' -> Q e'.
Proof.
  intros Hf Hp Hm Hh ev e e' G H. destruct H as [ev e e' H|t e e' _ H|t e e' H|e e' H|e e' H|e e' H];
    apply (Hf _ _ H); auto.
Qed.

Lemma handled_all_keeps (Q : editor -> Prop) :
  (forall e e', fields e' = fields e -> Q e -> Q e') ->
  (forall t e, Q (_positionContextMenu t e)) ->
  (forall b e, Q e -> Q (with_inMoveState b e)) ->
  (forall e, Q e -> Q (hide_menu e)) ->
  forall evs e e', Q e -> handled_all evs e e' -> Q e'.
Proof.
  intros Hf Hp Hm Hh evs e e' G H. induction H as [e|ev evs e e1 e' H1 _ IH];
    [exact G|]. apply IH. now apply (handled_keeps Q Hf Hp Hm Hh ev e e1).
Qed.

Lemma root_gate_fields e e' : fields e' = fields e -> root_gate e -> root_gate e'.
Proof.
  unfold fields, root_gate. intros H. injection H as _ _ Ha Hc.
  now rewrite Ha, Hc.
Qed.

Lemma root_gate__positionContextMenu t e : root_gate (_positionContextMenu t e).
Proof.
  unfold root_gate, _positionContextMenu. cbn. intros H. now injection H as ->.
Qed.

Lemma handled_all_root_gate evs e e' :
  root_gate e -> handled_all evs e e' -> root_gate e'.
Proof.
  apply (handled_all_keeps root_gate).
  - apply root_gate_fields.
  - apply root_gate__positionContextMenu.
  - intros b e0 G. exact G.
  - intros e0 G. exact G.
Qed.

Lemma outer_update cfg e : outer (update cfg e) = outer e.
Proof. unfold update. now destruct (delayUpdate e). Qed.

Lemma value_root_update cfg e : value (root (update cfg e)) = value (root e).
Proof. unfold update. now destruct (delayUpdate e). Qed.

(** C8, as the code has it.  [addSibling] has no check of its own for
    the root: called on the root branch it appends the new node to the
    parent element of the root branch, outside the tree, whose nodes stay
    as they are.  The editor does not make that call: after every
    sequence of events, whatever the handlers met on the page, while the
    root is the active branch the menu does not display [addSibling], so
    a click on the entry does nothing; the sequences meant include every
    run that the tree follows.  For every node below the root,
    [addSibling] makes a node with an empty label and no children and
    appends it as the last child of the node's parent; all other nodes
    and their order stay as they are. *)
Theorem addSibling_root_gated_else_appends_last (cfg : prefix_tokens) (e : editor) :
  (exists e',
      addSibling cfg RootBranch e = Returns (newNode_li (nextId e)) e' /\
      outer e' = outer e ++ [newNode_li (nextId e)] /\
      content (listEntry e') = content (listEntry e))
  /\ (forall evs e',
        root_gate e ->
        handled_all evs e e' ->
        activeBranch e' = Some RootBranch ->
        addSibling_display (contextMenu e') = false /\
        step cfg click_addSibling e' = Some e')
  /\ (forall evs e', run cfg evs e = Some e' -> handled_all evs e e')
  /\ (forall q k n,
        NoDup (ids (listEntry e)) ->
        node_at (listEntry e) (q ++ [k]) = Some n ->
        exists e',
          addSibling cfg (Branch (li_id n)) e = Returns (newNode_li (nextId e)) e' /\
          content (listEntry e') =
            insert_last q
              (Node (nextId e) [] (str "Directory or File Name") [])
              (content (listEntry e)) /\
          value (root e') = value (root e)).
Proof.
  split; [|split; [|split]].
  - eexists. split; [reflexivity|].
    rewrite outer_update, content_update. split; reflexivity.
  - intros evs e' G Hall Hact.
    pose proof (handled_all_root_gate evs e e' G Hall Hact) as Hoff.
    split; [exact Hoff|]. cbn [step]. rewrite Hoff. now rewrite andb_false_r.
  - intros evs e'. apply run_handled_all.
  - intros q k n Hnd Hn. unfold addSibling.
    rewrite (in_ids_inside _ _ (node_at_ids _ _ _ Hn)).
    eexists. split; [reflexivity|].
    rewrite content_update, value_root_update. split; [|reflexivity].
    cbn [listEntry with_listEntry with_nextId].
    now apply (content_appendSibling (li_id n) (newNode_li (nextId e)) q _ k n).
Qed.

Lemma addSibling_root_gated_else_appends_last_witness :
  (exists e',
     addSibling prefix (Branch 2) example = Returns (newNode_li 4) e' /\
     content (listEntry e') =
       [ Node 1 (str "src") (str "Directory or File Name")
           [ Node 2 (str "index.js") (str "Directory or File Name") [];
             Node 4 [] (str "Directory or File Name") [] ];
         Node 3 (str "README.md") (str "Directory or File Name") [] ] /\
     value (root e') = str "project")
  /\ el_active (contextMenu (_positionContextMenu RootBranch example)) = true
  /\ addSibling_display (contextMenu (_positionContextMenu RootBranch example)) = false
  /\ step prefix click_addSibling (_positionContextMenu RootBranch example) =
     Some (_positionContextMenu RootBranch example).
Proof.
  destruct (addSibling_root_gated_else_appends_last prefix example) as (_ & G & S & H).
  split; [|split; [reflexivity|]].
  - refine (H [0] 0
              (Li 2 (set_hasListeners true (set_value (str "index.js") newNode_input))
                 (Some (str "|   \--")) None) _ _).
    + vm_compute. repeat constructor; cbn; intuition discriminate.
    + vm_compute. reflexivity.
  - apply (G [mouseover RootBranch] (_positionContextMenu RootBranch example)).
    + intros _. vm_compute. reflexivity.
    + apply S. vm_compute. reflexivity.
    + reflexivity.
Defined.

Lemma addSibling_on_root_appends_outside :
  settle (addSibling prefix RootBranch start) =
  Some (update prefix (with_nextId 2 (with_outer [newNode_li 1] start))) /\
  option_map outer (settle (addSibling prefix RootBranch start)) = Some [newNode_li 1] /\
  outer start = [].
Proof. repeat split; vm_compute; reflexivity. Qed.

(** The first half of C8 as stated fails: [addSibling] on the root branch
    neither fails nor leaves the page as it was. *)
Lemma addSibling_on_root_is_no_no_op :
  ~ fails_or_no_op (addSibling prefix RootBranch start) start.
Proof. vm_compute. discriminate. Qed.

(** ** [_moveBranch] into the moved branch *)

(** When the destination is the active branch or lies below it, the
    branch has left its parent by the time [appendChild] refuses. *)
Lemma _moveBranch_into_own_subtree cfg e a d sub :
  activeBranch e = Some (Branch a) ->
  find a (listEntry e) = Some sub ->
  inside_li d sub = true ->
  _moveBranch cfg (Branch d) e =
  Throws (with_listEntry (removeChild a (listEntry e)) e).
Proof.
  intros Ha Hf Hd. unfold _moveBranch. now rewrite Ha, Hf, Hd.
Qed.

Lemma removeChild_gone a f : ~ In a (ids (removeChild a f)).
Proof.
  assert (Hli : forall n, li_id n <> a -> ~ In a (ids_li (removeChild_li a n))).
  { induction n as [j inp d|j inp d k IH] using li_rect'; cbn [li_id];
      intros Hj; cbn [removeChild_li ids_li]; intros [E|H]; try contradiction.
    apply in_flat_map in H as (x & Hx & Hin).
    apply filter_In in Hx as [Hx Hkeep].
    apply in_map_iff in Hx as (y & <- & Hy).
    rewrite Forall_forall in IH. apply (IH y Hy); [|exact Hin].
    unfold eq_id in Hkeep. apply negb_true_iff, Nat.eqb_neq in Hkeep.
    now destruct y. }
  unfold removeChild. intros H.
  apply in_flat_map in H as (x & Hx & Hin).
  apply filter_In in Hx as [Hx Hkeep].
  apply in_map_iff in Hx as (y & <- & Hy).
  apply (Hli y); [|exact Hin].
  unfold eq_id in Hkeep. apply negb_true_iff, Nat.eqb_neq in Hkeep.
  now destruct y.
Qed.

Lemma find_li_ids a n : forall sub, find_li a n = Some sub -> In a (ids_li n).
Proof.
  induction n as [j inp d|j inp d k IH] using li_rect'; intros sub H;
    cbn [find_li] in H; cbn [ids_li]; destruct (j =? a) eqn:E.
  - left. now apply Nat.eqb_eq.
  - discriminate H.
  - left. now apply Nat.eqb_eq.
  - right. clear E. induction IH as [|x r Hx _ IHr]; [discriminate H|].
    cbn [flat_map]. apply in_or_app.
    destruct (find_li a x) as [m|] eqn:Ex.
    + left. now apply Hx with m.
    + right. now apply IHr.
Qed.

Lemma find_ids a f sub : find a f = Some sub -> In a (ids f).
Proof.
  induction f as [|x r IH]; [discriminate|]. cbn [find]. rewrite ids_cons.
  intros H. apply in_or_app. destruct (find_li a x) as [m|] eqn:Ex.
  - left. now apply find_li_ids with m.
  - right. now apply IH.
Qed.

(** For every tree: a move whose destination is the moved branch or lies
    below it is refused by throwing, and the branch is lost. *)
Lemma _moveBranch_into_own_subtree_loses cfg e a d sub :
  activeBranch e = Some (Branch a) ->
  find a (listEntry e) = Some sub ->
  inside_li d sub = true ->
  exists e',
    _moveBranch cfg (Branch d) e = Throws e' /\
    In a (ids (listEntry e)) /\
    ~ In a (ids (listEntry e')).
Proof.
  intros Ha Hf Hd. eexists.
  split; [apply (_moveBranch_into_own_subtree cfg e a d sub Ha Hf Hd)|].
  split; [now apply find_ids with sub|apply removeChild_gone].
Qed.

Lemma after_move_tree :
  run prefix move_README_under_src example = Some after_move /\
  content (listEntry after_move) =
  [ Node 1 (str "src") (str "Directory or File Name")
      [ Node 2 (str "index.js") (str "Directory or File Name") [];
        Node 3 (str "README.md") (str "Directory or File Name") [] ] ] /\
  inMoveState after_move = false /\
  option_map clickListeners (input_of (Branch 1) after_move) = Some 1.
Proof. split; [|split; [|split]]; vm_compute; reflexivity. Qed.

(** C3 at the failing input.  After [README.md] was moved under [src], a
    click into the input of [src] runs [_moveBranch] with [src] as both
    the active branch and the destination: the call throws, and [src]
    with everything below it is gone from the tree. *)
Theorem move_onto_itself_drops_the_branch :
  activeBranch hover_src = Some (Branch 1) /\
  _moveBranch prefix (Branch 1) hover_src =
    Throws (with_listEntry [] hover_src) /\
  option_map listEntry (step prefix (click (Branch 1)) hover_src) = Some [] /\
  option_map (toString prefix) (step prefix (click (Branch 1)) hover_src) =
    Some (str "project") /\
  toString prefix hover_src =
    str "project" ++ LF :: str "\-- src" ++ LF :: str "    |-- index.js"
    ++ LF :: str "    \-- README.md".
Proof. split; [|split; [|split; [|split]]]; vm_compute; reflexivity. Qed.

(** ** Reading an export back: from depths to the tree *)

Lemma depths_li_eq d n : depths_li d n = d :: depths (S d) (children n).
Proof. destruct n as [j inp a [k|]]; reflexivity. Qed.

Lemma shape_li_eq n : shape_li n = Shape (shape_of (children n)).
Proof. destruct n as [j inp a [k|]]; reflexivity. Qed.

Lemma build_stops fuel d rest :
  head_below d rest -> build fuel d rest = ([], rest).
Proof.
  destruct fuel as [|fuel]; [reflexivity|].
  destruct rest as [|x rest]; [reflexivity|]. cbn [head_below build]. intros H.
  replace (x =? d) with false; [reflexivity|].
  symmetry. apply Nat.eqb_neq. lia.
Qed.

Lemma depths_cons d x r :
  depths d (x :: r) = d :: depths (S d) (children x) ++ depths d r.
Proof. unfold depths. cbn [flat_map]. now rewrite depths_li_eq. Qed.

Lemma built_forest f : Forall (fun n => built (children n)) f -> built f.
Proof.
  induction 1 as [|x r Hx _ IH]; intros d rest fuel Hrest Hfuel.
  - apply build_stops. exact Hrest.
  - rewrite depths_cons in *. cbn [length] in Hfuel.
    rewrite length_app in Hfuel.
    destruct fuel as [|fuel]; [lia|].
    cbn [app build]. rewrite Nat.eqb_refl, <- app_assoc.
    rewrite (Hx (S d) (depths d r ++ rest) fuel).
    + rewrite (IH d rest fuel Hrest) by lia.
      cbn [shape_of map]. now rewrite shape_li_eq.
    + destruct r as [|y r].
      * destruct rest; cbn in *; [exact I|lia].
      * rewrite depths_cons. cbn. lia.
    + lia.
Qed.

Lemma built_all f : built f.
Proof.
  assert (H : forall n, built (children n)).
  { induction n as [j inp a|j inp a k IH] using li_rect'.
    - apply built_forest. constructor.
    - apply built_forest. exact IH. }
  apply built_forest. apply Forall_forall. intros n _. apply H.
Qed.

Lemma build_depths f :
  build (length (depths 0 f)) 0 (depths 0 f) = (shape_of f, []).
Proof.
  rewrite <- (app_nil_r (depths 0 f)) at 2.
  apply built_all; [exact I|lia].
Qed.

(** The depth of a node is the number of its ancestors below the root. *)
Lemma depths_walk_from f :
  Forall (fun n => forall d,
            map (fun c => d + length (fst c)) (walk_li n) = depths_li d n) f ->
  forall i d,
    map (fun c => d + length (fst c)) (walk_from i f) = depths (S d) f.
Proof.
  induction 1 as [|x r Hx _ IH]; intros i d; [reflexivity|].
  cbn [walk_from]. unfold depths. cbn [flat_map].
  rewrite map_app, map_map, <- (Hx (S d)). f_equal; [|apply IH].
  apply map_ext. intros [q m]. cbn [fst length]. lia.
Qed.

Lemma depths_walk_li n :
  forall d, map (fun c => d + length (fst c)) (walk_li n) = depths_li d n.
Proof.
  induction n as [j inp a|j inp a k IH] using li_rect'; intros d.
  - cbn. now rewrite Nat.add_0_r.
  - rewrite walk_li_eq, depths_li_eq. cbn [map fst length children li_ul].
    rewrite Nat.add_0_r. f_equal. now apply depths_walk_from.
Qed.

Lemma depths_shift f : forall d, depths (S d) f = map S (depths d f).
Proof.
  assert (H : forall n d, depths_li (S d) n = map S (depths_li d n)).
  { induction n as [j inp a|j inp a k IH] using li_rect'; intros d; [reflexivity|].
    cbn [depths_li map]. f_equal.
    induction IH as [|x r Hx _ IHr]; [reflexivity|].
    cbn [flat_map]. now rewrite map_app, Hx, IHr. }
  intros d. unfold depths. induction f as [|x r IH]; [reflexivity|].
  cbn [flat_map]. now rewrite map_app, H, IH.
Qed.

Lemma depths_walk f :
  map (fun c => length (ancestors (fst c))) (walk f) = depths 0 f.
Proof.
  assert (H : map (fun c => 0 + length (fst c)) (walk f) = depths 1 f).
  { apply depths_walk_from. apply Forall_forall. intros n _. apply depths_walk_li. }
  rewrite depths_shift in H.
  assert (Hp : map pred (map (fun c => 0 + length (fst c)) (walk f)) =
               map pred (map S (depths 0 f))) by now rewrite H.
  rewrite !map_map in Hp. cbn [pred] in Hp. rewrite map_id in Hp.
  rewrite <- Hp. apply map_ext. intros [p m]. cbn [fst].
  unfold ancestors. rewrite length_map, length_seq. lia.
Qed.

(** ** Reading an export back: lines *)

Lemma line_depth_prefix (bs : list bool) (b : bool) (t : jsstring) :
  line_depth (concat (map (spacer prefix) bs) ++ connector prefix b ++ t) =
  Some (length bs).
Proof.
  induction bs as [|x bs IH].
  - now destruct b.
  - cbn [map concat length]. destruct x; cbn [spacer prefix];
      cbn -[line_depth] in *; cbn [line_depth]; cbn; now rewrite IH.
Qed.

Lemma spec_prefix_tokens f p :
  spec_prefix prefix f p =
  concat (map (spacer prefix) (map (is_last f) (ancestors p)))
  ++ connector prefix (is_last f p).
Proof. unfold spec_prefix. now rewrite map_map. Qed.

Lemma line_depth_spec_prefix f p t :
  line_depth (spec_prefix prefix f p ++ t) = Some (length (ancestors p)).
Proof.
  rewrite spec_prefix_tokens, <- app_assoc, line_depth_prefix.
  now rewrite length_map.
Qed.

(** A prefix ends in the dash of its connector. *)
Lemma spec_prefix_dash f p :
  exists q, spec_prefix prefix f p = q ++ [ascii_of_nat 45].
Proof.
  rewrite spec_prefix_tokens.
  destruct (is_last f p);
    [exists (concat (map (spacer prefix) (map (is_last f) (ancestors p))) ++ str "\-")
    |exists (concat (map (spacer prefix) (map (is_last f) (ancestors p))) ++ str "|-")];
    now rewrite <- app_assoc.
Qed.

Lemma one_line_app a b : one_line a -> one_line b -> one_line (a ++ b).
Proof. unfold one_line. intros Ha Hb H. apply in_app_or in H. tauto. Qed.

Lemma one_line_spec_prefix f p : one_line (spec_prefix prefix f p).
Proof.
  rewrite spec_prefix_tokens. apply one_line_app.
  - induction (map (is_last f) (ancestors p)) as [|x bs IH]; [exact (fun H => H)|].
    cbn [map concat]. apply one_line_app; [|exact IH].
    destruct x; cbv; intuition discriminate.
  - destruct (is_last f p); cbv; intuition discriminate.
Qed.

Lemma is_LF_false c : c <> LF -> is_LF c = false.
Proof.
  intros Hc. unfold is_LF. apply Nat.eqb_neq. intros H. apply Hc.
  rewrite <- (ascii_nat_embedding c), H. reflexivity.
Qed.

Lemma split_lines_one_line a : one_line a -> split_lines a = [a].
Proof.
  induction a as [|c a IH]; intros H; [reflexivity|].
  cbn [split_lines]. rewrite is_LF_false by (intros ->; apply H; now left).
  rewrite IH; [reflexivity|]. intros Hin. apply H. now right.
Qed.

Lemma split_lines_app a rest :
  one_line a -> split_lines (a ++ LF :: rest) = a :: split_lines rest.
Proof.
  induction a as [|c a IH]; intros H; [reflexivity|].
  cbn [app split_lines]. rewrite is_LF_false by (intros ->; apply H; now left).
  rewrite IH; [reflexivity|]. intros Hin. apply H. now right.
Qed.

Lemma split_lines_joined a ms :
  one_line a -> Forall one_line ms ->
  split_lines (a ++ concat (map (cons LF) ms)) = a :: ms.
Proof.
  intros Ha Hms. revert a Ha. induction Hms as [|m ms Hm _ IH]; intros a Ha.
  - cbn [map concat]. rewrite app_nil_r. now apply split_lines_one_line.
  - cbn [map concat app]. rewrite split_lines_app by exact Ha.
    f_equal. now apply IH.
Qed.

Lemma all_depths_lines ls ds :
  Forall2 (fun l d => line_depth l = Some d) ls ds ->
  all_depths ls = Some ds.
Proof.
  induction 1 as [|l d ls ds Hl _ IH]; [reflexivity|].
  cbn [all_depths]. now rewrite Hl, IH.
Qed.

(** ** Reading an export back: what [trim] takes away *)

Lemma trimStart_keep u c v :
  is_ws c = false -> trimStart (u ++ c :: v) = trimStart u ++ c :: v.
Proof.
  intros Hc. induction u as [|x u IH]; cbn [app trimStart].
  - now rewrite Hc.
  - destruct (is_ws x); [exact IH|reflexivity].
Qed.

Lemma trimEnd_keep a c b :
  is_ws c = false -> trimEnd (a ++ c :: b) = a ++ c :: trimEnd b.
Proof.
  intros Hc. unfold trimEnd. rewrite rev_app_distr. cbn [rev].
  rewrite <- app_assoc. cbn [app]. rewrite (trimStart_keep _ _ _ Hc).
  rewrite rev_app_distr. cbn [rev]. rewrite rev_involutive, <- app_assoc.
  reflexivity.
Qed.

Lemma not_blank_split r :
  forallb is_ws r = false ->
  exists u c v, r = u ++ c :: v /\ is_ws c = false.
Proof.
  induction r as [|x r IH]; [discriminate|]. cbn [forallb].
  destruct (is_ws x) eqn:E; cbn [andb]; intros H.
  - destruct (IH H) as (u & c & v & -> & Hc). now exists (x :: u), c, v.
  - now exists [], x, r.
Qed.

Lemma in_trimStart c s : In c (trimStart s) -> In c s.
Proof.
  induction s as [|x s IH]; [exact (fun H => H)|]. cbn [trimStart].
  destruct (is_ws x); [intros H; right; now apply IH|exact (fun H => H)].
Qed.

Lemma one_line_trimStart s : one_line s -> one_line (trimStart s).
Proof. intros H Hin. apply H. now apply in_trimStart. Qed.

Lemma one_line_trimEnd s : one_line s -> one_line (trimEnd s).
Proof.
  intros H Hin. apply H. unfold trimEnd in Hin.
  apply in_rev in Hin. apply in_trimStart in Hin. now apply in_rev.
Qed.

(** The trimmed text keeps its lines; only the white space in front of
    the first and after the last visible character goes. *)
Lemma trim_lines r ls0 p a t :
  forallb is_ws r = false ->
  is_ws a = false ->
  trim (r ++ concat (map (cons LF) (ls0 ++ [p ++ a :: t]))) =
  trimStart r ++ concat (map (cons LF) (ls0 ++ [p ++ a :: trimEnd t])).
Proof.
  intros Hr Ha. destruct (not_blank_split r Hr) as (u & c & v & -> & Hc).
  unfold trim. rewrite <- app_assoc. cbn [app].
  rewrite !(trimStart_keep _ _ _ Hc).
  rewrite !map_app, !concat_app. cbn [map concat]. rewrite !app_nil_r.
  replace (trimStart u ++
           c :: v ++ concat (map (cons LF) ls0) ++ LF :: p ++ a :: t)
    with ((trimStart u ++ c :: v ++ concat (map (cons LF) ls0) ++ LF :: p)
          ++ a :: t).
  - rewrite (trimEnd_keep _ _ _ Ha). rewrite <- !app_assoc. cbn [app].
    now rewrite <- !app_assoc.
  - rewrite <- !app_assoc. cbn [app]. now rewrite <- !app_assoc.
Qed.

(** ** Reading an export back: the round trip *)

Lemma walk_nil f : walk f = [] -> f = [].
Proof.
  destruct f as [|x r]; [reflexivity|]. unfold walk. cbn [walk_from].
  rewrite walk_li_eq. discriminate.
Qed.

Lemma one_line_export_line f c :
  one_line (label (li_input (snd c))) -> one_line (export_line prefix f c).
Proof.
  intros H. unfold export_line. apply one_line_app; [apply one_line_spec_prefix|].
  intros [E|Hin]; [discriminate E|now apply H].
Qed.

Lemma line_depth_export_line f c :
  line_depth (export_line prefix f c) = Some (length (ancestors (fst c))).
Proof. apply line_depth_spec_prefix. Qed.

Lemma one_line_dec s : existsb is_LF s = false -> one_line s.
Proof.
  intros H Hin.
  assert (E : existsb is_LF s = true)
    by (apply existsb_exists; exists LF; now split).
  rewrite H in E. discriminate E.
Qed.

Lemma all_one_line_dec (w : list (path * li)) :
  forallb (fun c => negb (existsb is_LF (label (li_input (snd c))))) w = true ->
  Forall (fun c => one_line (label (li_input (snd c)))) w.
Proof.
  intros H. apply Forall_forall. intros c Hc. apply one_line_dec.
  rewrite forallb_forall in H. apply negb_true_iff. now apply H.
Qed.

(** ** The format of the export *)

Lemma label_or_placeholder_label i : label_or_placeholder i = label i.
Proof. unfold label_or_placeholder, label, js_or. now destruct (value i). Qed.

Lemma format_text_lines e :
  format_text e =
  join_lines (label (root e))
    (map (export_line prefix (listEntry e)) (walk (listEntry e))).
Proof.
  unfold format_text. rewrite label_or_placeholder_label. f_equal.
  apply map_ext. intros c. unfold format_line, export_line.
  now rewrite label_or_placeholder_label.
Qed.

Lemma trimStart_split s :
  exists a, forallb is_ws a = true /\ s = a ++ trimStart s.
Proof.
  induction s as [|c r (a & Ha & Hr)]; [now exists []|].
  cbn [trimStart]. destruct (is_ws c) eqn:E.
  - exists (c :: a). cbn [forallb app]. rewrite E, Ha. split; [reflexivity|].
    now rewrite <- Hr.
  - now exists [].
Qed.

Lemma trimEnd_split s :
  exists b, forallb is_ws b = true /\ s = trimEnd s ++ b.
Proof.
  destruct (trimStart_split (rev s)) as (a & Ha & Hs).
  exists (rev a). split.
  - rewrite forallb_forall in *. intros x Hx. apply Ha. now apply in_rev.
  - unfold trimEnd. rewrite <- rev_app_distr, <- Hs. now rewrite rev_involutive.
Qed.

(** [trim] takes white space off the two ends, and nothing else. *)
Lemma trim_split s :
  exists a b,
    forallb is_ws a = true /\ forallb is_ws b = true /\ s = a ++ trim s ++ b.
Proof.
  destruct (trimStart_split s) as (a & Ha & Hs).
  destruct (trimEnd_split (trimStart s)) as (b & Hb & Ht).
  exists a, b. split; [exact Ha|]. split; [exact Hb|].
  unfold trim. now rewrite <- Ht.
Qed.

Lemma trimStart_clean s : clean_start s = true -> trimStart s = s.
Proof.
  destruct s as [|c r]; [reflexivity|]. cbn [clean_start trimStart].
  intros H. apply negb_true_iff in H. now rewrite H.
Qed.

Lemma trim_clean_text s :
  clean_start s = true -> clean_end s = true -> trim s = s.
Proof.
  intros Hs He. unfold trim. rewrite (trimStart_clean s Hs).
  unfold trimEnd. rewrite (trimStart_clean (rev s) He). apply rev_involutive.
Qed.

(** C4, as the code has it.  The export is the text of the format (the
    label of the root, or its placeholder when the label is empty, then
    for every node below the root in depth-first pre-order a line made of
    its prefix, a space and its label, or its placeholder when the label
    is empty) with the white space at its two ends taken off, and nothing
    else: it neither begins nor ends with white space.  When the text of
    the format itself neither begins nor ends with white space, the
    export is that text, and when moreover no label holds a line feed its
    first line is the line of the root and one line follows for every
    node. *)
Theorem toString_format (e : editor) :
  (exists a b,
      forallb is_ws a = true /\ forallb is_ws b = true /\
      format_text e = a ++ toString prefix e ++ b)
  /\ clean_start (toString prefix e) = true
  /\ clean_end (toString prefix e) = true
  /\ (clean_start (format_text e) = true ->
      clean_end (format_text e) = true ->
      toString prefix e = format_text e /\
      (one_line (label_or_placeholder (root e)) ->
       Forall (fun c => one_line (label_or_placeholder (li_input (snd c))))
         (walk (listEntry e)) ->
       split_lines (toString prefix e) =
       label_or_placeholder (root e) ::
       map (format_line (listEntry e)) (walk (listEntry e)))).
Proof.
  assert (Ht : toString prefix e = trim (format_text e)).
  { rewrite format_text_lines. apply toString_lines. }
  split; [|split; [|split]].
  - rewrite Ht. apply trim_split.
  - rewrite Ht. apply trim_clean.
  - rewrite Ht. apply trim_clean.
  - intros Hs He. rewrite Ht, (trim_clean_text _ Hs He). split; [reflexivity|].
    intros Hroot Hlabels. unfold format_text, join_lines.
    apply split_lines_joined; [exact Hroot|].
    apply Forall_forall. intros l Hl. apply in_map_iff in Hl as (c & <- & Hc).
    rewrite Forall_forall in Hlabels. specialize (Hlabels c Hc).
    unfold format_line. apply one_line_app; [apply one_line_spec_prefix|].
    intros [E|Hin]; [discriminate E|now apply Hlabels].
Qed.

Lemma toString_format_witness :
  toString prefix example = format_text example /\
  split_lines (toString prefix example) =
  [str "project"; str "|-- src"; str "|   \-- index.js"; str "\-- README.md"].
Proof.
  destruct (toString_format example) as (_ & _ & _ & H).
  destruct H as [H1 H2]; [vm_compute; reflexivity|vm_compute; reflexivity|].
  split; [exact H1|]. rewrite H2.
  - vm_compute. reflexivity.
  - apply one_line_dec. vm_compute. reflexivity.
  - apply Forall_forall. intros c Hc. rewrite label_or_placeholder_label.
    revert c Hc. apply Forall_forall. apply all_one_line_dec.
    vm_compute. reflexivity.
Defined.

(** C4 as stated fails: a root whose label is a single space, with the
    one child [a], exports the one line of the child; the line of the
    root is trimmed away. *)
Lemma toString_loses_a_blank_root_line :
  ~ (forall e,
       split_lines (toString prefix e) =
       label_or_placeholder (root e) ::
       map (format_line (listEntry e)) (walk (listEntry e))).
Proof.
  intros H. specialize (H blank_root). vm_compute in H. discriminate H.
Qed.

(** C5, as the code has it.  When no label or placeholder shown holds a
    line feed, and the root line is not made of white space only or the
    root has no children, reading the export back by the spacers and
    connectors of its lines gives the parent/child relationships and the
    sibling order of the tree. *)
Theorem export_reparse_roundtrip (e : editor) :
  one_line (label (root e)) ->
  Forall (fun c => one_line (label (li_input (snd c)))) (walk (listEntry e)) ->
  forallb is_ws (label (root e)) = false \/ listEntry e = [] ->
  reparse (toString prefix e) = Some (shape_of (listEntry e)).
Proof.
  intros Hroot Hlabels Hvisible. rewrite toString_lines. unfold reparse.
  destruct (walk (listEntry e)) as [|c0 w] eqn:HW.
  - rewrite (walk_nil _ HW). unfold join_lines. cbn [map concat].
    rewrite app_nil_r, split_lines_one_line; [reflexivity|].
    unfold trim. now apply one_line_trimEnd, one_line_trimStart.
  - assert (Hr : forallb is_ws (label (root e)) = false).
    { destruct Hvisible as [H|H]; [exact H|]. rewrite H in HW. discriminate HW. }
    assert (Hne : c0 :: w <> []) by discriminate.
    destruct (exists_last Hne) as (w0 & cl & Hw). rewrite Hw in *. clear Hne.
    apply Forall_app in Hlabels as [Hl0 Hl1]. inversion Hl1 as [|? ? Hcl _]; subst.
    unfold join_lines. rewrite map_app. cbn [map]. unfold export_line at 2.
    destruct (spec_prefix_dash (listEntry e) (fst cl)) as (q & Hq).
    rewrite Hq, <- app_assoc. cbn [app].
    rewrite trim_lines by (exact Hr || reflexivity).
    rewrite split_lines_joined.
    + rewrite (all_depths_lines _
                 (map (fun c => length (ancestors (fst c))) (w0 ++ [cl]))).
      * rewrite <- HW, depths_walk, build_depths. reflexivity.
      * rewrite map_app. apply Forall2_app.
        -- clear. induction w0 as [|c w0 IH]; constructor; [|exact IH].
           apply line_depth_export_line.
        -- constructor; [|constructor].
           replace (q ++ ascii_of_nat 45 :: trimEnd (SP :: label (li_input (snd cl))))
             with (spec_prefix prefix (listEntry e) (fst cl)
                   ++ trimEnd (SP :: label (li_input (snd cl))))
             by (rewrite Hq, <- app_assoc; reflexivity).
           apply line_depth_spec_prefix.
    + now apply one_line_trimStart.
    + apply Forall_app. split.
      * apply Forall_forall. intros l Hin. apply in_map_iff in Hin as (c & <- & Hc).
        apply one_line_export_line. rewrite Forall_forall in Hl0. now apply Hl0.
      * constructor; [|constructor].
        replace (q ++ ascii_of_nat 45 :: trimEnd (SP :: label (li_input (snd cl))))
          with (spec_prefix prefix (listEntry e) (fst cl)
                ++ trimEnd (SP :: label (li_input (snd cl))))
          by (rewrite Hq, <- app_assoc; reflexivity).
        apply one_line_app; [apply one_line_spec_prefix|].
        apply one_line_trimEnd. intros [E|Hin]; [discriminate E|now apply Hcl].
Qed.

Lemma export_reparse_roundtrip_witness :
  reparse (toString prefix example) = Some [Shape [Shape []]; Shape []].
Proof.
  apply (export_reparse_roundtrip example).
  - apply one_line_dec. vm_compute. reflexivity.
  - apply all_one_line_dec. vm_compute. reflexivity.
  - left. vm_compute. reflexivity.
Defined.

Lemma blank_root_export :
  label (root blank_root) = [SP] /\
  shape_of (listEntry blank_root) = [Shape []] /\
  toString prefix blank_root = str "\-- a".
Proof. repeat split; vm_compute; reflexivity. Qed.

Lemma lone_root_export :
  label (root lone_root) = str "\-- a" /\
  shape_of (listEntry lone_root) = [] /\
  toString prefix lone_root = str "\-- a".
Proof. repeat split; vm_compute; reflexivity. Qed.

(** C5 as stated fails: two trees of different shape have the same
    export, so no reading of exports gives back the shape of every
    tree. *)
Lemma export_not_injective_on_shapes :
  ~ exists read : jsstring -> option (list shape),
      forall e, read (toString prefix e) = Some (shape_of (listEntry e)).
Proof.
  intros (read & H).
  pose proof (H blank_root) as H1. pose proof (H lone_root) as H2.
  change (toString prefix blank_root) with (toString prefix lone_root) in H1.
  rewrite H2 in H1. discriminate H1.
Qed.

(** * The rest of the editor: proofs *)

(** ** Elements and positions *)

Lemma ids_content_li n : cids_node (content_li n) = ids_li n.
Proof.
  induction n as [j inp d|j inp d k IH] using li_rect'; [reflexivity|].
  cbn [content_li cids_node ids_li]. f_equal.
  induction IH as [|x r Hx _ IHr]; [reflexivity|].
  cbn [map flat_map]. now rewrite Hx, IHr.
Qed.

Lemma ids_content f : cids (content f) = ids f.
Proof.
  unfold cids, content, ids. induction f as [|x r IH]; [reflexivity|].
  cbn [map flat_map]. now rewrite ids_content_li, IH.
Qed.

Lemma modify_li_absent id g y : ~ In id (ids_li y) -> modify_li id g y = y.
Proof.
  induction y as [j inp d|j inp d k IH] using li_rect'; cbn [ids_li modify_li];
    intros H; destruct (j =? id) eqn:E;
    try (apply Nat.eqb_eq in E; exfalso; apply H; now left); [reflexivity|].
  do 2 f_equal. rewrite <- (map_id k) at 2. apply map_ext_Forall.
  rewrite Forall_forall in IH |- *. intros x Hx. apply IH; [exact Hx|].
  intros Hin. apply H. right. apply in_flat_map. now exists x.
Qed.

(** A function that leaves alone every branch not holding the element
    changes one entry of a list of distinct branches. *)
Lemma map_only_at id (h : li -> li) f :
  (forall y, ~ In id (ids_li y) -> h y = y) ->
  forall j x,
    NoDup (ids f) ->
    nth_error f j = Some x ->
    In id (ids_li x) ->
    map h f = update_nth j h f.
Proof.
  intros Hh. induction f as [|y r IH]; intros j x Hnd Hx Hi; [reflexivity|].
  rewrite ids_cons in Hnd. destruct j as [|j]; cbn [map update_nth].
  - cbn in Hx. injection Hx as ->. f_equal.
    rewrite <- (map_id r) at 2. apply map_ext_in. intros z Hz.
    apply Hh. intros H.
    apply (NoDup_app_disjoint _ _ id Hnd Hi). now apply in_ids with z.
  - cbn in Hx. f_equal.
    + apply Hh. intros H.
      apply (NoDup_app_disjoint _ _ id Hnd H).
      apply in_ids with x; [now apply nth_error_In with j|exact Hi].
    + apply IH with x; [now apply NoDup_app_remove_l in Hnd|exact Hx|exact Hi].
Qed.

Lemma NoDup_nth f j x :
  NoDup (ids f) -> nth_error f j = Some x -> NoDup (ids_li x).
Proof.
  intros Hnd Hx. apply nth_error_In in Hx. apply in_split in Hx as (l1 & l2 & ->).
  unfold ids in Hnd. rewrite flat_map_app in Hnd. cbn [flat_map] in Hnd.
  now apply NoDup_app_remove_l, NoDup_app_remove_r in Hnd.
Qed.

Lemma NoDup_children f j x :
  NoDup (ids f) -> nth_error f j = Some x ->
  NoDup (ids (children x)) /\ ~ In (li_id x) (ids (children x)).
Proof.
  intros Hnd Hx. pose proof (NoDup_nth f j x Hnd Hx) as H.
  rewrite ids_li_eq in H. inversion H; subst. now split.
Qed.

Lemma update_nth_ext {A : Type} (g h : A -> A) l :
  forall j x, nth_error l j = Some x -> g x = h x ->
              update_nth j g l = update_nth j h l.
Proof.
  induction l as [|y r IH]; intros [|j] x Hx E; cbn in *; try reflexivity.
  - injection Hx as ->. now rewrite E.
  - f_equal. now apply IH with x.
Qed.

Lemma modify_update_at g p :
  forall f n,
    NoDup (ids f) ->
    node_at f p = Some n ->
    modify (li_id n) g f = update_at p g f.
Proof.
  induction p as [|i q IH]; intros f n Hnd Hn; [discriminate|].
  apply node_at_cons in Hn as (x & Hx & [[-> ->]|[Hq Hn]]).
  - cbn [update_at]. unfold modify.
    rewrite (map_only_at (li_id x) _ f (modify_li_absent _ g) i x Hnd Hx
               (li_id_in_ids_li x)).
    apply update_nth_ext with x; [exact Hx|].
    destruct x as [j inp d u]. cbn [modify_li li_id]. now rewrite Nat.eqb_refl.
  - destruct (NoDup_children f i x Hnd Hx) as [Hk Hself].
    assert (Hin : In (li_id n) (ids (children x))) by now apply node_at_ids with q.
    cbn [update_at]. destruct q as [|a q]; [contradiction|]. unfold modify.
    rewrite (map_only_at (li_id n) _ f (modify_li_absent _ g) i x Hnd Hx)
      by (rewrite ids_li_eq; now right).
    apply update_nth_ext with x; [exact Hx|].
    destruct x as [j inp d [k|]]; [|contradiction].
    cbn [modify_li with_ul option_map children li_ul li_id] in *.
    replace (j =? li_id n) with false.
    + do 2 f_equal. now apply (IH k n).
    + symmetry. apply Nat.eqb_neq. intros ->. contradiction.
Qed.

Lemma nth_error_update_nth {A : Type} (g : A -> A) (f : list A) :
  forall i x, nth_error f i = Some x -> nth_error (update_nth i g f) i = Some (g x).
Proof.
  induction f as [|y r IH]; intros [|i] x Hx; cbn in *; try discriminate.
  - now injection Hx as ->.
  - now apply IH.
Qed.

Lemma node_at_nil p : node_at [] p = None.
Proof. destruct p as [|[|i] q]; reflexivity. Qed.

Lemma content_update_at_appendChild item p :
  forall f n,
    node_at f p = Some n ->
    content (update_at p (appendChild_li item) f) =
    insert_last p (content_li item) (content f).
Proof.
  induction p as [|i q IH]; intros f n Hn; [discriminate|].
  apply node_at_cons in Hn as (x & Hx & [[-> ->]|[Hq Hn]]).
  - cbn [update_at insert_last]. apply content_update_nth with x; [exact Hx|].
    destruct x as [j inp d [k|]]; cbn [appendChild_li content_li with_kids].
    + unfold content. now rewrite map_app.
    + reflexivity.
  - cbn [update_at insert_last]. destruct q as [|a q]; [contradiction|].
    apply content_update_nth with x; [exact Hx|].
    destruct x as [j inp d [k|]];
      [|cbn [children li_ul] in Hn; now rewrite node_at_nil in Hn].
    cbn [with_ul option_map content_li with_kids children li_ul] in *. f_equal.
    now apply (IH k n).
Qed.

Lemma content_modify_appendChild item p f n :
  NoDup (ids f) ->
  node_at f p = Some n ->
  content (modify (li_id n) (appendChild_li item) f) =
  insert_last p (content_li item) (content f).
Proof.
  intros Hnd Hn. rewrite (modify_update_at _ p f n Hnd Hn).
  now apply content_update_at_appendChild with n.
Qed.

(** ** [addChild] *)

Lemma addChild_content cfg e b p :
  NoDup (ids (listEntry e)) ->
  at_path (listEntry e) b p ->
  exists e',
    addChild cfg b e = Returns (newNode_li (nextId e)) e' /\
    content (listEntry e') =
      insert_last p (Node (nextId e) [] (str "Directory or File Name") [])
        (content (listEntry e)) /\
    nextId e' = nextId e + 1.
Proof.
  intros Hnd Hat. destruct b as [|id]; cbn [at_path] in Hat.
  - subst p. eexists. split; [reflexivity|].
    rewrite content_update. split.
    + cbn [listEntry with_listEntry with_nextId insert_last]. unfold content.
      now rewrite map_app.
    + unfold update. now destruct (delayUpdate _).
  - destruct Hat as (n & Hn & <-). unfold addChild.
    rewrite (in_ids_inside _ _ (node_at_ids _ _ _ Hn)).
    eexists. split; [reflexivity|]. rewrite content_update. split.
    + cbn [listEntry with_listEntry with_nextId].
      now apply (content_modify_appendChild (newNode_li (nextId e)) p).
    + unfold update. now destruct (delayUpdate _).
Qed.

(** ** [deleteBranch] *)

Lemma filter_all {A : Type} (t : A -> bool) l :
  (forall x, In x l -> t x = true) -> filter t l = l.
Proof.
  induction l as [|x r IH]; intros H; [reflexivity|]. cbn [filter].
  rewrite (H x (or_introl eq_refl)). f_equal. apply IH.
  intros y Hy. apply H. now right.
Qed.

Lemma li_id_removeChild_li id y : li_id (removeChild_li id y) = li_id y.
Proof. now destruct y. Qed.

Lemma removeChild_li_below id y :
  ~ In id (ids (children y)) -> removeChild_li id y = y.
Proof.
  induction y as [j inp d|j inp d k IH] using li_rect'; intros Hk; [reflexivity|].
  cbn [removeChild_li]. cbn [children li_ul] in Hk. do 2 f_equal.
  assert (Hmap : map (removeChild_li id) k = k).
  { rewrite <- (map_id k) at 2. apply map_ext_Forall.
    rewrite Forall_forall in IH |- *. intros x Hx. apply IH; [exact Hx|].
    intros H. apply Hk. apply in_ids with x; [exact Hx|].
    rewrite ids_li_eq. now right. }
  rewrite Hmap. apply filter_all. intros x Hx. unfold eq_id.
  apply negb_true_iff, Nat.eqb_neq. intros E. apply Hk.
  apply in_ids with x; [exact Hx|]. rewrite <- E. apply li_id_in_ids_li.
Qed.

Lemma removeChild_li_absent id y :
  ~ In id (ids_li y) -> removeChild_li id y = y.
Proof.
  intros H. apply removeChild_li_below. intros Hin. apply H.
  rewrite ids_li_eq. now right.
Qed.

Lemma filter_remove_nth f :
  forall i x,
    NoDup (ids f) ->
    nth_error f i = Some x ->
    filter (fun y => negb (eq_id (li_id x) y)) f = remove_nth i f.
Proof.
  induction f as [|y r IH]; intros i x Hnd Hx; [now destruct i|].
  rewrite ids_cons in Hnd. destruct i as [|i]; cbn in Hx; cbn [filter remove_nth].
  - injection Hx as ->. unfold eq_id at 1. rewrite Nat.eqb_refl. cbn [negb].
    apply filter_all. intros z Hz. unfold eq_id.
    apply negb_true_iff, Nat.eqb_neq. intros E.
    apply (NoDup_app_disjoint _ _ (li_id x) Hnd (li_id_in_ids_li x)).
    apply in_ids with z; [exact Hz|]. rewrite <- E. apply li_id_in_ids_li.
  - replace (negb (eq_id (li_id x) y)) with true.
    + f_equal. apply IH; [now apply NoDup_app_remove_l in Hnd|exact Hx].
    + symmetry. unfold eq_id. apply negb_true_iff, Nat.eqb_neq. intros E.
      apply (NoDup_app_disjoint _ _ (li_id x) Hnd);
        [rewrite <- E; apply li_id_in_ids_li|].
      apply in_ids with x; [now apply nth_error_In with i|apply li_id_in_ids_li].
Qed.

Lemma content_remove_nth f : forall i, content (remove_nth i f) = remove_nth i (content f).
Proof.
  induction f as [|y r IH]; intros [|i]; cbn; try reflexivity.
  f_equal. apply IH.
Qed.

Lemma update_nth_in {A : Type} (g : A -> A) l :
  forall j y, In y (update_nth j g l) -> In y l \/ exists x, In x l /\ y = g x.
Proof.
  induction l as [|a r IH]; intros [|j] y H; cbn in H; try contradiction.
  - destruct H as [<-|H]; [right; exists a; split; [now left|reflexivity]|].
    left. now right.
  - destruct H as [<-|H]; [left; now left|].
    destruct (IH j y H) as [Hin|(x & Hx & ->)]; [left; now right|].
    right. exists x. split; [now right|reflexivity].
Qed.

Lemma content_removeChild p :
  forall f n,
    NoDup (ids f) ->
    node_at f p = Some n ->
    content (removeChild (li_id n) f) = delete_at p (content f).
Proof.
  induction p as [|i q IH]; intros f n Hnd Hn; [discriminate|].
  apply node_at_cons in Hn as (x & Hx & [[-> ->]|[Hq Hn]]).
  - cbn [delete_at]. unfold removeChild.
    destruct (NoDup_children f i x Hnd Hx) as [_ Hself].
    rewrite (map_only_at (li_id x) _ f (removeChild_li_absent _) i x Hnd Hx
               (li_id_in_ids_li x)).
    rewrite (update_nth_ext _ (fun y => y) f i x Hx (removeChild_li_below _ _ Hself)).
    rewrite update_nth_id, (filter_remove_nth f i x Hnd Hx).
    apply content_remove_nth.
  - destruct (NoDup_children f i x Hnd Hx) as [Hk Hself].
    assert (Hin : In (li_id n) (ids (children x))) by now apply node_at_ids with q.
    cbn [delete_at]. destruct q as [|a q]; [contradiction|]. unfold removeChild.
    rewrite (map_only_at (li_id n) _ f (removeChild_li_absent _) i x Hnd Hx)
      by (rewrite ids_li_eq; now right).
    rewrite filter_all.
    + apply content_update_nth with x; [exact Hx|].
      destruct x as [j inp d [k|]]; [|contradiction].
      cbn [removeChild_li content_li with_kids children li_ul] in *. f_equal.
      now apply (IH k n).
    + intros y Hy. unfold eq_id. apply negb_true_iff, Nat.eqb_neq.
      apply update_nth_in in Hy as [Hy|(z & Hz & ->)].
      * now apply (top_level_absent (li_id n) f i x Hnd Hx Hin).
      * rewrite li_id_removeChild_li.
        now apply (top_level_absent (li_id n) f i x Hnd Hx Hin).
Qed.

Lemma deleteBranch_content cfg e p n :
  NoDup (ids (listEntry e)) ->
  node_at (listEntry e) p = Some n ->
  exists e',
    deleteBranch cfg (Branch (li_id n)) e = Returns tt e' /\
    content (listEntry e') = delete_at p (content (listEntry e)) /\
    value (root e') = value (root e) /\
    el_active (contextMenu e') = false.
Proof.
  intros Hnd Hn. unfold deleteBranch.
  rewrite (in_ids_inside _ _ (node_at_ids _ _ _ Hn)).
  eexists. split; [reflexivity|].
  rewrite content_update, value_root_update. split; [|split].
  - cbn [listEntry hide_menu with_contextMenu with_listEntry].
    now apply content_removeChild.
  - reflexivity.
  - unfold update. now destruct (delayUpdate _).
Qed.

(** ** No element is lost or doubled *)

Lemma cnode_at_content p :
  forall f, cnode_at (content f) p = option_map content_li (node_at f p).
Proof.
  induction p as [|i q IH]; intros f; [reflexivity|].
  cbn [cnode_at node_at]. unfold content at 1. rewrite nth_error_map.
  destruct (nth_error f i) as [x|]; [|reflexivity]. cbn [option_map].
  destruct q as [|a q]; [reflexivity|].
  rewrite <- IH. destruct x as [j inp d [k|]]; reflexivity.
Qed.

Lemma perm_update_nth {A : Type} (F : A -> list nat) (g : A -> A) extra l :
  forall j x,
    nth_error l j = Some x ->
    Permutation (F (g x)) (extra ++ F x) ->
    Permutation (flat_map F (update_nth j g l)) (extra ++ flat_map F l).
Proof.
  induction l as [|y r IH]; intros [|j] x Hx Hp; cbn in Hx; try discriminate.
  - injection Hx as ->. cbn [update_nth flat_map].
    rewrite Hp, app_assoc. reflexivity.
  - cbn [update_nth flat_map]. rewrite (IH j x Hx Hp).
    rewrite !app_assoc. apply Permutation_app_tail, Permutation_app_comm.
Qed.

Lemma perm_update_nth_less {A : Type} (F : A -> list nat) (g : A -> A) extra l :
  forall j x,
    nth_error l j = Some x ->
    Permutation (F x) (extra ++ F (g x)) ->
    Permutation (flat_map F l) (extra ++ flat_map F (update_nth j g l)).
Proof.
  induction l as [|y r IH]; intros [|j] x Hx Hp; cbn in Hx; try discriminate.
  - injection Hx as ->. cbn [update_nth flat_map].
    rewrite Hp, app_assoc. reflexivity.
  - cbn [update_nth flat_map]. rewrite (IH j x Hx Hp).
    rewrite !app_assoc. apply Permutation_app_tail, Permutation_app_comm.
Qed.

Lemma perm_remove_nth {A : Type} (F : A -> list nat) l :
  forall j x,
    nth_error l j = Some x ->
    Permutation (flat_map F l) (F x ++ flat_map F (remove_nth j l)).
Proof.
  induction l as [|y r IH]; intros [|j] x Hx; cbn in Hx; try discriminate.
  - injection Hx as ->. reflexivity.
  - cbn [remove_nth flat_map]. rewrite (IH j x Hx).
    rewrite !app_assoc. apply Permutation_app_tail, Permutation_app_comm.
Qed.

Lemma perm_delete_at p :
  forall t c,
    cnode_at t p = Some c ->
    Permutation (cids t) (cids_node c ++ cids (delete_at p t)).
Proof.
  induction p as [|i q IH]; intros t c Hc; [discriminate|].
  cbn [cnode_at] in Hc. destruct (nth_error t i) as [x|] eqn:Hx; [|discriminate].
  cbn [delete_at]. destruct q as [|a q].
  - injection Hc as ->. now apply perm_remove_nth.
  - unfold cids. apply perm_update_nth_less with x; [exact Hx|].
    destruct x as [j v h k]. cbn [with_kids cids_node kids_of] in *.
    fold (cids k). fold (cids (delete_at (a :: q) k)).
    rewrite (IH k c Hc). apply Permutation_middle.
Qed.

Lemma perm_insert_last c p :
  forall t,
    p = [] \/ (exists c', cnode_at t p = Some c') ->
    Permutation (cids (insert_last p c t)) (cids_node c ++ cids t).
Proof.
  induction p as [|i q IH]; intros t Hp.
  - cbn [insert_last]. unfold cids. rewrite flat_map_app. cbn [flat_map].
    rewrite app_nil_r. apply Permutation_app_comm.
  - destruct Hp as [Hp|(c' & Hc)]; [discriminate|].
    cbn [cnode_at] in Hc. destruct (nth_error t i) as [x|] eqn:Hx; [|discriminate].
    cbn [insert_last]. unfold cids. apply perm_update_nth with x; [exact Hx|].
    destruct x as [j v h k]. cbn [with_kids cids_node kids_of] in *.
    fold (cids (insert_last q c k)). fold (cids k).
    rewrite (IH k).
    + apply Permutation_middle.
    + destruct q as [|a q]; [now left|right; now exists c'].
Qed.

Lemma perm_removeChild f p n :
  NoDup (ids f) ->
  node_at f p = Some n ->
  Permutation (ids f) (ids_li n ++ ids (removeChild (li_id n) f)).
Proof.
  intros Hnd Hn.
  rewrite <- (ids_content f), <- (ids_content (removeChild _ f)), <- ids_content_li.
  rewrite (content_removeChild p f n Hnd Hn).
  apply perm_delete_at. now rewrite cnode_at_content, Hn.
Qed.

Lemma perm_appendChild item f p n :
  NoDup (ids f) ->
  node_at f p = Some n ->
  Permutation (ids (modify (li_id n) (appendChild_li item) f)) (ids_li item ++ ids f).
Proof.
  intros Hnd Hn.
  rewrite <- (ids_content f), <- (ids_content (modify _ _ f)), <- ids_content_li.
  rewrite (content_modify_appendChild item p f n Hnd Hn).
  apply perm_insert_last. right. exists (content_li n).
  now rewrite cnode_at_content, Hn.
Qed.

(** ** Finding a branch by its element *)

Lemma find_li_eq id j inp d ul :
  find_li id (Li j inp d ul) =
  if j =? id then Some (Li j inp d ul)
  else match ul with
       | Some k => find id k
       | None => None
       end.
Proof.
  cbn [find_li]. destruct (j =? id); [reflexivity|].
  destruct ul as [k|]; [|reflexivity].
  induction k as [|x r IH]; [reflexivity|]. cbn [find]. now rewrite IH.
Qed.

Lemma find_li_absent id y : ~ In id (ids_li y) -> find_li id y = None.
Proof.
  intros H. destruct (find_li id y) as [m|] eqn:E; [|reflexivity].
  exfalso. apply H. now apply find_li_ids with m.
Qed.

Lemma find_node_at p :
  forall f n,
    NoDup (ids f) -> node_at f p = Some n -> find (li_id n) f = Some n.
Proof.
  induction p as [|i q IH]; intros f n Hnd Hn; [discriminate|].
  apply node_at_cons in Hn as (x & Hx & Hcase).
  assert (Hin : In (li_id n) (ids_li x)).
  { destruct Hcase as [[_ ->]|[_ Hn]]; [apply li_id_in_ids_li|].
    rewrite ids_li_eq. right. now apply node_at_ids with q. }
  assert (Hfx : find_li (li_id n) x = Some n).
  { destruct Hcase as [[_ ->]|[Hq Hn]].
    - destruct x as [j inp d u]. rewrite find_li_eq. cbn [li_id].
      now rewrite Nat.eqb_refl.
    - destruct (NoDup_children f i x Hnd Hx) as [Hk Hself].
      destruct x as [j inp d [k|]];
        [|cbn [children li_ul] in Hn; now rewrite node_at_nil in Hn].
      rewrite find_li_eq. cbn [children li_ul li_id] in *.
      replace (j =? li_id n) with false; [now apply IH|].
      symmetry. apply Nat.eqb_neq. intros ->. apply Hself.
      now apply node_at_ids with q. }
  clear Hcase. revert i Hx Hnd. induction f as [|y r IHf]; intros i Hx Hnd;
    [now destruct i|].
  rewrite ids_cons in Hnd. cbn [find]. destruct i as [|i]; cbn in Hx.
  - injection Hx as ->. now rewrite Hfx.
  - rewrite find_li_absent.
    + apply IHf with i; [exact Hx|now apply NoDup_app_remove_l in Hnd].
    + intros H. apply (NoDup_app_disjoint _ _ _ Hnd H).
      apply in_ids with x; [now apply nth_error_In with i|exact Hin].
Qed.

Lemma inside_li_ids id n : inside_li id n = true -> In id (ids_li n).
Proof.
  induction n as [j inp d|j inp d k IH] using li_rect'; cbn [inside_li ids_li];
    intros H; apply orb_true_iff in H as [H|H];
    try (left; now apply Nat.eqb_eq); try discriminate.
  right. apply existsb_exists in H as (x & Hx & Hi).
  apply in_flat_map. exists x. split; [exact Hx|].
  rewrite Forall_forall in IH. now apply IH.
Qed.

Lemma inside_ids id f : inside id f = true -> In id (ids f).
Proof.
  intros H. apply existsb_exists in H as (x & Hx & Hi).
  apply in_ids with x; [exact Hx|now apply inside_li_ids].
Qed.

Lemma ids_node_at id f :
  In id (ids f) -> exists p n, node_at f p = Some n /\ li_id n = id.
Proof.
  assert (Hli : forall n, In id (ids_li n) ->
            li_id n = id \/
            exists q m, q <> [] /\ node_at (children n) q = Some m /\ li_id m = id).
  { induction n as [j inp d|j inp d k IH] using li_rect'; cbn [ids_li li_id].
    - intros [E|H]; [now left|contradiction].
    - intros [E|H]; [now left|].
    right. apply in_flat_map in H as (x & Hx & Hi).
    apply In_nth_error in Hx as Hnth. destruct Hnth as (i & Hnth).
    rewrite Forall_forall in IH.
    destruct (IH x Hx Hi) as [E|(q & m & Hq & Hm & E)].
    + exists [i], x. cbn [children li_ul node_at]. rewrite Hnth.
      repeat split; [discriminate|exact E].
    + exists (i :: q), m. cbn [children li_ul node_at]. rewrite Hnth.
      destruct q as [|a q]; [contradiction|].
      repeat split; [discriminate|exact Hm|exact E]. }
  intros H. apply in_flat_map in H as (x & Hx & Hi).
  apply In_nth_error in Hx as (i & Hnth).
  destruct (Hli x Hi) as [E|(q & m & Hq & Hm & E)].
  - exists [i], x. cbn [node_at]. now rewrite Hnth.
  - exists (i :: q), m. cbn [node_at]. rewrite Hnth.
    destruct q as [|a q]; [contradiction|]. now split.
Qed.

(** ** [_moveBranch] to a destination outside the moved branch *)

Lemma ids_update cfg e : ids (listEntry (update cfg e)) = ids (listEntry e).
Proof. now rewrite <- !ids_content, content_update. Qed.

Lemma nextId_update cfg e : nextId (update cfg e) = nextId e.
Proof. unfold update. now destruct (delayUpdate e). Qed.

Lemma inMoveState_update cfg e : inMoveState (update cfg e) = inMoveState e.
Proof. unfold update. now destruct (delayUpdate e). Qed.

Lemma NoDup_removeChild f p n :
  NoDup (ids f) ->
  node_at f p = Some n ->
  NoDup (ids_li n ++ ids (removeChild (li_id n) f)).
Proof.
  intros Hnd Hn. apply (Permutation_NoDup (perm_removeChild f p n Hnd Hn) Hnd).
Qed.

Lemma _moveBranch_returns cfg e dest p q n :
  NoDup (ids (listEntry e)) ->
  activeBranch e = Some (Branch (li_id n)) ->
  node_at (listEntry e) p = Some n ->
  at_path (removeChild (li_id n) (listEntry e)) dest q ->
  exists f',
    _moveBranch cfg dest e =
      Returns tt (update cfg (with_inMoveState false (with_listEntry f' e))) /\
    content f' = insert_last q (content_li n) (delete_at p (content (listEntry e))) /\
    Permutation (ids f') (ids (listEntry e)).
Proof.
  intros Hnd Hact Hn Hdest. unfold _moveBranch.
  rewrite Hact, (find_node_at p _ n Hnd Hn).
  pose proof (NoDup_removeChild _ p n Hnd Hn) as Hnd2.
  pose proof (perm_removeChild _ p n Hnd Hn) as Hperm.
  destruct dest as [|d]; cbn [at_path] in Hdest.
  - subst q. eexists. split; [reflexivity|]. split.
    + unfold content. rewrite map_app. cbn [insert_last map].
      fold (content (removeChild (li_id n) (listEntry e))).
      now rewrite (content_removeChild p _ n Hnd Hn).
    + unfold ids. rewrite flat_map_app. cbn [flat_map]. rewrite app_nil_r.
      fold (ids (removeChild (li_id n) (listEntry e))) (ids (listEntry e)).
      rewrite Hperm. apply Permutation_app_comm.
  - destruct Hdest as (m & Hm & <-).
    pose proof (node_at_ids _ _ _ Hm) as Hin.
    assert (Hout : inside_li (li_id m) n = false).
    { apply not_true_is_false. intros H. apply inside_li_ids in H.
      now apply (NoDup_app_disjoint _ _ _ Hnd2 H). }
    rewrite Hout, (in_ids_inside _ _ Hin).
    eexists. split; [reflexivity|].
    apply NoDup_app_remove_l in Hnd2 as Hnd3. split.
    + rewrite (content_modify_appendChild n q _ m Hnd3 Hm).
      now rewrite (content_removeChild p _ n Hnd Hn).
    + rewrite (perm_appendChild n _ q m Hnd3 Hm). now rewrite Hperm.
Qed.

(** X3.  On a page of distinct elements, [_moveBranch] with a
    destination that is left in the tree once the active branch is
    detached takes the active branch out of its parent's list and makes
    it, with everything below it, the last child of the destination; no
    element is lost or doubled, and the move state ends. *)
Theorem _moveBranch_reparents
    (cfg : prefix_tokens) (e : editor) (dest : ref) (p q : path) (n : li) :
  NoDup (ids (listEntry e)) ->
  activeBranch e = Some (Branch (li_id n)) ->
  node_at (listEntry e) p = Some n ->
  at_path (removeChild (li_id n) (listEntry e)) dest q ->
  exists e',
    _moveBranch cfg dest e = Returns tt e' /\
    content (listEntry e') =
      insert_last q (content_li n) (delete_at p (content (listEntry e))) /\
    Permutation (ids (listEntry e')) (ids (listEntry e)) /\
    inMoveState e' = false.
Proof.
  intros Hnd Hact Hn Hdest.
  destruct (_moveBranch_returns cfg e dest p q n Hnd Hact Hn Hdest)
    as (f' & Hret & Hc & Hp).
  eexists. split; [exact Hret|].
  rewrite content_update, ids_update, inMoveState_update.
  cbn [listEntry inMoveState with_listEntry with_inMoveState].
  now repeat split.
Qed.

Lemma _moveBranch_reparents_witness :
  exists e',
    _moveBranch prefix (Branch 1) (_positionContextMenu (Branch 3) example) =
      Returns tt e' /\
    content (listEntry e') =
      [ Node 1 (str "src") (str "Directory or File Name")
          [ Node 2 (str "index.js") (str "Directory or File Name") [];
            Node 3 (str "README.md") (str "Directory or File Name") [] ] ] /\
    Permutation (ids (listEntry e')) [1; 2; 3] /\
    inMoveState e' = false.
Proof.
  apply (_moveBranch_reparents prefix (_positionContextMenu (Branch 3) example)
           (Branch 1) [1] [0]
           (Li 3 (set_hasListeners true (set_value (str "README.md") newNode_input))
              (Some (str "\--")) None)).
  - vm_compute. repeat constructor; cbn; intuition discriminate.
  - vm_compute. reflexivity.
  - vm_compute. reflexivity.
  - eexists. split; vm_compute; reflexivity.
Defined.

(** ** Elements stay distinct under [update], [addChild] and typing *)

Lemma wf_update cfg e : wf e -> wf (update cfg e).
Proof. unfold wf. now rewrite ids_update, nextId_update. Qed.

Lemma wf_same_tree e e' :
  ids (listEntry e') = ids (listEntry e) -> nextId e' = nextId e -> wf e -> wf e'.
Proof. unfold wf. now intros -> ->. Qed.

Lemma wf_add e f' :
  Permutation (ids f') (nextId e :: ids (listEntry e)) ->
  wf e -> wf (with_nextId (nextId e + 1) (with_listEntry f' e)).
Proof.
  unfold wf. cbn [listEntry nextId with_nextId with_listEntry].
  intros Hp [Hnd Hlt]. symmetry in Hp. split.
  - apply (Permutation_NoDup Hp). constructor; [|exact Hnd].
    intros Hin. rewrite Forall_forall in Hlt. specialize (Hlt _ Hin). lia.
  - apply (Permutation_Forall Hp). constructor; [lia|].
    apply (Forall_impl _ (fun i H => Nat.lt_lt_succ_r _ _ H)) in Hlt.
    rewrite Nat.add_1_r. exact Hlt.
Qed.

Lemma ids_li_map_inputs g y : ids_li (map_inputs g y) = ids_li y.
Proof.
  induction y as [j inp d|j inp d k IH] using li_rect'; [reflexivity|].
  cbn [map_inputs ids_li]. f_equal.
  induction IH as [|x r Hx _ IHr]; [reflexivity|].
  cbn [map flat_map]. now rewrite Hx, IHr.
Qed.

Lemma ids_map (h : li -> li) f :
  (forall y, ids_li (h y) = ids_li y) -> ids (map h f) = ids f.
Proof.
  intros H. unfold ids. induction f as [|x r IH]; [reflexivity|].
  cbn [map flat_map]. now rewrite H, IH.
Qed.

Lemma ids_li_modify id g y :
  (forall z, ids_li (g z) = ids_li z) -> ids_li (modify_li id g y) = ids_li y.
Proof.
  intros Hg. induction y as [j inp d|j inp d k IH] using li_rect';
    cbn [modify_li]; destruct (j =? id); try apply Hg; [reflexivity|].
  cbn [ids_li]. f_equal.
  induction IH as [|x r Hx _ IHr]; [reflexivity|].
  cbn [map flat_map]. now rewrite Hx, IHr.
Qed.

Lemma ids_modify id g f :
  (forall z, ids_li (g z) = ids_li z) -> ids (modify id g f) = ids f.
Proof. intros Hg. apply ids_map. intros y. now apply ids_li_modify. Qed.

Lemma ids_li_with_input g y : ids_li (with_input g y) = ids_li y.
Proof. now destruct y. Qed.

Lemma ids_on_input t g e : ids (listEntry (on_input t g e)) = ids (listEntry e).
Proof.
  destruct t as [|id]; [reflexivity|]. cbn [on_input listEntry with_listEntry].
  apply ids_modify. apply ids_li_with_input.
Qed.

Lemma nextId_on_input t g e : nextId (on_input t g e) = nextId e.
Proof. now destruct t. Qed.

Lemma perm_appendChild_in id item f :
  NoDup (ids f) ->
  In id (ids f) ->
  Permutation (ids (modify id (appendChild_li item) f)) (ids_li item ++ ids f).
Proof.
  intros Hnd Hin. destruct (ids_node_at id f Hin) as (p & n & Hn & <-).
  now apply perm_appendChild with p.
Qed.

Lemma wf_settle_addChild cfg b e e' :
  wf e -> settle (addChild cfg b e) = Some e' -> wf e'.
Proof.
  intros Hwf. unfold addChild. destruct b as [|id].
  - cbn [settle]. intros H. injection H as <-. apply wf_update.
    apply wf_add; [|exact Hwf]. unfold ids. rewrite flat_map_app.
    cbn [flat_map newNode_li ids_li]. symmetry. apply Permutation_cons_append.
  - destruct (inside id (listEntry e)) eqn:Hin; [|discriminate].
    cbn [settle]. intros H. injection H as <-. apply wf_update.
    apply wf_add; [|exact Hwf].
    apply (perm_appendChild_in id (newNode_li (nextId e)) _ (proj1 Hwf)).
    now apply inside_ids.
Qed.

Lemma wf_on_input t g e : wf e -> wf (on_input t g e).
Proof. apply wf_same_tree; [apply ids_on_input|apply nextId_on_input]. Qed.

(** ** [addChild] and [deleteBranch] by position *)

(** X1.  [addChild] on any branch of a page of distinct elements, the
    root branch included, returns a new node, one that is not on the page
    yet, with an empty label and no children, and makes it the last child
    of that branch; every other node stays where it was. *)
Theorem addChild_appends_last_child
    (cfg : prefix_tokens) (e : editor) (b : ref) (p : path) :
  wf e ->
  at_path (listEntry e) b p ->
  exists e',
    addChild cfg b e = Returns (newNode_li (nextId e)) e' /\
    ~ In (nextId e) (ids (listEntry e)) /\
    content (listEntry e') =
      insert_last p (Node (nextId e) [] (str "Directory or File Name") [])
        (content (listEntry e)) /\
    wf e'.
Proof.
  intros Hwf Hat.
  destruct (addChild_content cfg e b p (proj1 Hwf) Hat) as (e' & Hadd & Hc & _).
  exists e'. split; [exact Hadd|]. split; [|split; [exact Hc|]].
  - intros H. destruct Hwf as [_ Hlt]. rewrite Forall_forall in Hlt.
    specialize (Hlt _ H). lia.
  - apply (wf_settle_addChild cfg b e); [exact Hwf|now rewrite Hadd].
Qed.

Lemma addChild_appends_last_child_witness :
  exists e',
    addChild prefix (Branch 3) example = Returns (newNode_li 4) e' /\
    ~ In 4 (ids (listEntry example)) /\
    content (listEntry e') =
      [ Node 1 (str "src") (str "Directory or File Name")
          [ Node 2 (str "index.js") (str "Directory or File Name") [] ];
        Node 3 (str "README.md") (str "Directory or File Name")
          [ Node 4 [] (str "Directory or File Name") [] ] ] /\
    wf e'.
Proof.
  apply (addChild_appends_last_child prefix example (Branch 3) [1]).
  - split; vm_compute; repeat constructor; cbn; intuition discriminate.
  - eexists. split; vm_compute; reflexivity.
Defined.

(** X2.  [deleteBranch] on a node of a page of distinct elements takes
    the node and everything below it out of its parent's list: the
    elements of that subtree, and no others, leave the page; all other
    nodes keep their place and order, the root keeps its label, and the
    menu is hidden at once. *)
Theorem deleteBranch_removes_subtree
    (cfg : prefix_tokens) (e : editor) (p : path) (n : li) :
  NoDup (ids (listEntry e)) ->
  node_at (listEntry e) p = Some n ->
  exists e',
    deleteBranch cfg (Branch (li_id n)) e = Returns tt e' /\
    content (listEntry e') = delete_at p (content (listEntry e)) /\
    Permutation (ids (listEntry e)) (ids_li n ++ ids (listEntry e')) /\
    value (root e') = value (root e) /\
    el_active (contextMenu e') = false.
Proof.
  intros Hnd Hn.
  destruct (deleteBranch_content cfg e p n Hnd Hn) as (e' & Hdel & Hc & Hv & Hm).
  exists e'. repeat split; try assumption.
  rewrite <- (ids_content (listEntry e')), Hc, <- (ids_content (listEntry e)),
    <- ids_content_li.
  apply perm_delete_at. now rewrite cnode_at_content, Hn.
Qed.

Lemma deleteBranch_removes_subtree_witness :
  exists e',
    deleteBranch prefix (Branch 1) example = Returns tt e' /\
    content (listEntry e') =
      [ Node 3 (str "README.md") (str "Directory or File Name") [] ] /\
    Permutation [1; 2; 3] ([1; 2] ++ ids (listEntry e')) /\
    value (root e') = str "project" /\
    el_active (contextMenu e') = false.
Proof.
  apply (deleteBranch_removes_subtree prefix example [0]
           (Li 1 (set_hasListeners true (set_value (str "src") newNode_input))
              (Some (str "|--"))
              (Some [Li 2 (set_hasListeners true
                             (set_value (str "index.js") newNode_input))
                       (Some (str "|   \--")) None]))).
  - vm_compute. repeat constructor; cbn; intuition discriminate.
  - vm_compute. reflexivity.
Defined.

(** ** The export is decided by the tree *)

Lemma content_li_inv n m :
  content_li n = content_li m ->
  li_id n = li_id m /\ value (li_input n) = value (li_input m) /\
  placeholder (li_input n) = placeholder (li_input m) /\
  content (children n) = content (children m).
Proof.
  destruct n as [j inp d [k|]], m as [j' inp' d' [k'|]];
    cbn [content_li li_id li_input children li_ul content map];
    intros H; inversion H; repeat split; reflexivity.
Qed.

Lemma trace_item_children cfg spacers last n :
  trace_item cfg spacers last n =
  (n, join spacers ++ connector cfg last) ::
  trace_loop cfg (spacers ++ [spacer cfg last]) (length (children n)) (children n) 0.
Proof. destruct n as [j inp d [k|]]; rewrite trace_item_eq; reflexivity. Qed.

Lemma content_length f g : content f = content g -> length f = length g.
Proof.
  intros H. apply (f_equal (@length node)) in H. unfold content in H.
  now rewrite !length_map in H.
Qed.

Lemma shown_trace_loop cfg f :
  Forall (fun n => forall m spacers last,
            content_li n = content_li m ->
            map shown (trace_item cfg spacers last n) =
            map shown (trace_item cfg spacers last m)) f ->
  forall g spacers l i,
    content f = content g ->
    map shown (trace_loop cfg spacers l f i) =
    map shown (trace_loop cfg spacers l g i).
Proof.
  induction 1 as [|x r Hx _ IH]; intros [|y g] spacers l i Hc;
    try discriminate Hc; [reflexivity|].
  cbn [content map] in Hc. injection Hc as Hxy Hrg.
  cbn [trace_loop]. rewrite !map_app. f_equal; [now apply Hx|now apply IH].
Qed.

Lemma shown_trace_item cfg n :
  forall m spacers last,
    content_li n = content_li m ->
    map shown (trace_item cfg spacers last n) =
    map shown (trace_item cfg spacers last m).
Proof.
  induction n as [j inp d|j inp d k IH] using li_rect'; intros m spacers last Hc;
    destruct (content_li_inv _ _ Hc) as (_ & Hv & Hp & Hk);
    rewrite !trace_item_children; cbn [map]; f_equal;
    try (unfold shown, label; cbn [fst snd]; now rewrite Hv, Hp).
  - cbn [children li_ul] in *. destruct (children m); [reflexivity|discriminate Hk].
  - cbn [children li_ul] in *. rewrite (content_length _ _ Hk).
    now apply shown_trace_loop.
Qed.

Lemma toString_content cfg e e' :
  label (root e) = label (root e') ->
  content (listEntry e) = content (listEntry e') ->
  toString cfg e = toString cfg e'.
Proof.
  intros Hr Hc. rewrite !toString_calls, Hr. do 2 f_equal.
  rewrite !calls_trace, (content_length _ _ Hc).
  assert (Hs : forall l : list (li * jsstring),
    map (fun c => LF :: snd c ++ SP :: label (li_input (fst c))) l =
    map (fun s => LF :: snd s ++ SP :: fst s) (map shown l)).
  { intros l. rewrite map_map. reflexivity. }
  assert (Hall : Forall (fun n => forall m spacers last,
            content_li n = content_li m ->
            map shown (trace_item cfg spacers last n) =
            map shown (trace_item cfg spacers last m)) (listEntry e))
    by (apply Forall_forall; intros n _; apply shown_trace_item).
  now rewrite !Hs, (shown_trace_loop cfg _ Hall (listEntry e') [] _ 0 Hc).
Qed.

(** ** [addChild] and [deleteBranch] undo each other *)

Lemma cnode_at_cids p :
  forall t c, cnode_at t p = Some c ->
              In (match c with Node j _ _ _ => j end) (cids t).
Proof.
  induction p as [|i q IH]; intros t c Hc; [discriminate|].
  cbn [cnode_at] in Hc. destruct (nth_error t i) as [x|] eqn:Hx; [|discriminate].
  apply nth_error_In in Hx. unfold cids. apply in_flat_map. exists x.
  split; [exact Hx|]. destruct q as [|a q].
  - injection Hc as ->. destruct c. now left.
  - destruct x as [j v h k]. cbn [kids_of cids_node] in *. right.
    now apply (IH k c).
Qed.

Lemma nth_error_update_nth_other {A : Type} (g : A -> A) l :
  forall i j, i <> j -> nth_error (update_nth i g l) j = nth_error l j.
Proof.
  induction l as [|y r IH]; intros [|i] [|j] Hij; cbn; try reflexivity;
    [contradiction|]. apply IH. congruence.
Qed.

Lemma update_nth_twice {A : Type} (g h : A -> A) l :
  forall i, update_nth i g (update_nth i h l) = update_nth i (fun x => g (h x)) l.
Proof.
  induction l as [|y r IH]; intros [|i]; cbn; try reflexivity. now rewrite IH.
Qed.

Lemma update_nth_same {A : Type} (g : A -> A) l :
  forall i, (forall x, nth_error l i = Some x -> g x = x) -> update_nth i g l = l.
Proof.
  induction l as [|y r IH]; intros [|i] H; cbn; try reflexivity.
  - now rewrite (H y eq_refl).
  - f_equal. apply IH. exact H.
Qed.

Lemma remove_nth_last {A : Type} (l : list A) x : remove_nth (length l) (l ++ [x]) = l.
Proof. induction l as [|y r IH]; cbn; [reflexivity|now rewrite IH]. Qed.

Lemma delete_inserted j h p :
  forall t p' c,
    ~ In j (cids t) ->
    cnode_at (insert_last p (Node j [] h []) t) p' = Some c ->
    (match c with Node i _ _ _ => i end) = j ->
    delete_at p' (insert_last p (Node j [] h []) t) = t.
Proof.
  induction p as [|i q IH]; intros t p' c Hj Hc Hid.
  - cbn [insert_last] in *. destruct p' as [|i' q']; [discriminate|].
    cbn [cnode_at] in Hc.
    destruct (nth_error (t ++ [Node j [] h []]) i') as [x|] eqn:Hx; [|discriminate].
    destruct (Nat.lt_ge_cases i' (length t)) as [Hlt|Hge].
    + exfalso. rewrite nth_error_app1 in Hx by exact Hlt. apply Hj.
      rewrite <- Hid. apply (cnode_at_cids (i' :: q') t c).
      cbn [cnode_at]. now rewrite Hx.
    + rewrite nth_error_app2 in Hx by exact Hge.
      destruct (i' - length t) as [|d] eqn:Ed; cbn in Hx;
        [|destruct d; discriminate].
      injection Hx as <-. cbn [kids_of] in Hc.
      destruct q' as [|a q']; [|destruct a; discriminate].
      cbn [delete_at]. replace i' with (length t) by lia. apply remove_nth_last.
  - cbn [insert_last] in *. destruct p' as [|i' q']; [discriminate|].
    cbn [cnode_at] in Hc.
    destruct (Nat.eq_dec i i') as [<-|Hne].
    + destruct (nth_error t i) as [x|] eqn:Hx.
      * rewrite (nth_error_update_nth _ _ _ _ Hx) in Hc.
        destruct x as [jx vx hx kx]. cbn [with_kids kids_of] in Hc.
        assert (Hjx : ~ In j (cids kx)).
        { intros H. apply Hj. unfold cids. apply in_flat_map.
          exists (Node jx vx hx kx). split; [now apply nth_error_In with i|].
          cbn [cids_node]. now right. }
        destruct q' as [|a q'].
        -- exfalso. injection Hc as <-. apply Hj. unfold cids. apply in_flat_map.
           exists (Node jx vx hx kx). split; [now apply nth_error_In with i|].
           cbn [cids_node]. left. exact Hid.
        -- cbn [delete_at]. rewrite update_nth_twice. apply update_nth_same.
           intros y Hy. rewrite Hx in Hy. injection Hy as <-.
           cbn [with_kids]. f_equal. now apply (IH kx (a :: q') c).
      * exfalso. rewrite update_nth_same in Hc by (intros y Hy; now rewrite Hx in Hy).
        now rewrite Hx in Hc.
    + exfalso. rewrite nth_error_update_nth_other in Hc by exact Hne.
      apply Hj. rewrite <- Hid. now apply (cnode_at_cids (i' :: q') t c).
Qed.

Lemma label_root_update cfg e : label (root (update cfg e)) = label (root e).
Proof. unfold update. now destruct (delayUpdate e). Qed.

Lemma at_path_valid f b p :
  at_path f b p -> p = [] \/ exists c, cnode_at (content f) p = Some c.
Proof.
  destruct b as [|id]; cbn [at_path]; [now left|].
  intros (n & Hn & _). right. exists (content_li n).
  now rewrite cnode_at_content, Hn.
Qed.

(** X5.  On a page of distinct elements, adding a child to any branch
    and deleting that child again gives back the tree and the export
    there were before. *)
Theorem addChild_then_deleteBranch
    (cfg : prefix_tokens) (e : editor) (b : ref) (p : path) :
  wf e ->
  at_path (listEntry e) b p ->
  exists li e1 e2,
    addChild cfg b e = Returns li e1 /\
    deleteBranch cfg (Branch (li_id li)) e1 = Returns tt e2 /\
    content (listEntry e2) = content (listEntry e) /\
    toString cfg e2 = toString cfg e.
Proof.
  intros Hwf Hat.
  destruct (addChild_content cfg e b p (proj1 Hwf) Hat) as (e1 & Hadd & Hc1 & _).
  assert (Hwf1 : wf e1) by (apply (wf_settle_addChild cfg b e); [exact Hwf|now rewrite Hadd]).
  assert (Hfresh : ~ In (nextId e) (cids (content (listEntry e)))).
  { rewrite ids_content. intros H. destruct Hwf as [_ Hlt].
    rewrite Forall_forall in Hlt. specialize (Hlt _ H). lia. }
  assert (Hin : In (nextId e) (ids (listEntry e1))).
  { rewrite <- ids_content, Hc1.
    apply (Permutation_in _ (Permutation_sym
             (perm_insert_last _ p _ (at_path_valid _ _ _ Hat)))).
    now left. }
  destruct (ids_node_at _ _ Hin) as (p' & n' & Hn' & Hid').
  destruct (deleteBranch_content cfg e1 p' n' (proj1 Hwf1) Hn')
    as (e2 & Hdel & Hc2 & Hv & _).
  exists (newNode_li (nextId e)), e1, e2.
  assert (Hc : content (listEntry e2) = content (listEntry e)).
  { rewrite Hc2, Hc1. apply (delete_inserted _ _ p _ p' (content_li n')).
    - exact Hfresh.
    - now rewrite <- Hc1, cnode_at_content, Hn'.
    - destruct n'. exact Hid'. }
  split; [exact Hadd|]. split; [cbn [newNode_li li_id]; now rewrite <- Hid'|].
  split; [exact Hc|]. apply toString_content; [|exact Hc].
  assert (Hr1 : label (root e1) = label (root e)).
  { unfold addChild in Hadd. destruct b as [|id];
      [|destruct (inside id (listEntry e))]; try discriminate Hadd;
      injection Hadd as <-; now rewrite label_root_update. }
  assert (Hr2 : label (root e2) = label (root e1)).
  { unfold deleteBranch in Hdel. destruct (inside (li_id n') (listEntry e1));
      [|discriminate Hdel].
    injection Hdel as <-. now rewrite label_root_update. }
  now rewrite Hr2, Hr1.
Qed.

Lemma addChild_then_deleteBranch_witness :
  exists li e1 e2,
    addChild prefix (Branch 3) example = Returns li e1 /\
    deleteBranch prefix (Branch (li_id li)) e1 = Returns tt e2 /\
    content (listEntry e2) = content (listEntry example) /\
    toString prefix e2 = toString prefix example.
Proof.
  apply (addChild_then_deleteBranch prefix example (Branch 3) [1]).
  - split; vm_compute; repeat constructor; cbn; intuition discriminate.
  - eexists. split; vm_compute; reflexivity.
Defined.

(** X6.  On a page of distinct elements, adding a sibling to a node
    gives the tree, and the export, that adding a child to its parent
    gives. *)
Theorem addSibling_is_addChild_of_parent
    (cfg : prefix_tokens) (e : editor) (b : ref) (q : path) (k : nat) (n : li) :
  NoDup (ids (listEntry e)) ->
  node_at (listEntry e) (q ++ [k]) = Some n ->
  at_path (listEntry e) b q ->
  exists li e1 e2,
    addSibling cfg (Branch (li_id n)) e = Returns li e1 /\
    addChild cfg b e = Returns li e2 /\
    content (listEntry e1) = content (listEntry e2) /\
    toString cfg e1 = toString cfg e2.
Proof.
  intros Hnd Hn Hat.
  destruct (addChild_content cfg e b q Hnd Hat) as (e2 & Hadd & Hc2 & _).
  unfold addSibling. rewrite (in_ids_inside _ _ (node_at_ids _ _ _ Hn)).
  do 3 eexists. split; [reflexivity|]. split; [exact Hadd|].
  assert (Hc : content (listEntry (update cfg
             (with_nextId (nextId e + 1)
                (with_listEntry
                   (appendSibling (li_id n) (newNode_li (nextId e)) (listEntry e)) e)))) =
               content (listEntry e2)).
  { rewrite content_update, Hc2. cbn [listEntry with_listEntry with_nextId].
    now apply (content_appendSibling (li_id n) (newNode_li (nextId e)) q _ k n). }
  split; [exact Hc|]. apply toString_content; [|exact Hc].
  rewrite label_root_update. cbn [root with_nextId with_listEntry].
  unfold addChild in Hadd. destruct b as [|id];
    [|destruct (inside id (listEntry e))]; try discriminate Hadd;
    injection Hadd as <-; now rewrite label_root_update.
Qed.

Lemma addSibling_is_addChild_of_parent_witness :
  exists li e1 e2,
    addSibling prefix (Branch 2) example = Returns li e1 /\
    addChild prefix (Branch 1) example = Returns li e2 /\
    content (listEntry e1) = content (listEntry e2) /\
    toString prefix e1 = toString prefix e2.
Proof.
  apply (addSibling_is_addChild_of_parent prefix example (Branch 1) [0] 0
           (Li 2 (set_hasListeners true (set_value (str "index.js") newNode_input))
              (Some (str "|   \--")) None)).
  - vm_compute. repeat constructor; cbn; intuition discriminate.
  - vm_compute. reflexivity.
  - eexists. split; vm_compute; reflexivity.
Defined.

(** ** Positions under changes that keep the shape *)

Lemma node_at_map (h : li -> li) :
  (forall n, children (h n) = map h (children n)) ->
  forall p f, node_at (map h f) p = option_map h (node_at f p).
Proof.
  intros Hh. induction p as [|i q IH]; intros f; [reflexivity|].
  cbn [node_at]. rewrite nth_error_map.
  destruct (nth_error f i) as [x|]; [|reflexivity]. cbn [option_map].
  destruct q as [|a q]; [reflexivity|]. now rewrite Hh, IH.
Qed.

Lemma children_map_inputs g n :
  children (map_inputs g n) = map (map_inputs g) (children n).
Proof. destruct n as [j inp d [k|]]; reflexivity. Qed.

Lemma children_set_dataset_prefix_li i s n :
  children (set_dataset_prefix_li i s n) =
  map (set_dataset_prefix_li i s) (children n).
Proof. destruct n as [j inp d [k|]]; reflexivity. Qed.

Lemma li_input_map_inputs g n : li_input (map_inputs g n) = g (li_input n).
Proof. now destruct n. Qed.

Lemma update_at_cons i a r g f :
  update_at (i :: a :: r) g f = update_nth i (with_ul (update_at (a :: r) g)) f.
Proof. reflexivity. Qed.

Lemma node_at_update_at g p :
  forall f n q,
    node_at f p = Some n ->
    node_at (update_at p g f) (p ++ q) = node_at [g n] (0 :: q).
Proof.
  induction p as [|i r IH]; intros f n q Hn; [discriminate|].
  apply node_at_cons in Hn as (x & Hx & [[-> ->]|[Hr Hn]]).
  - cbn [update_at app node_at nth_error].
    now rewrite (nth_error_update_nth g f i x Hx).
  - destruct r as [|a r]; [contradiction|].
    rewrite update_at_cons. cbn [app node_at].
    rewrite (nth_error_update_nth _ f i x Hx).
    destruct x as [j inp d [k|]];
      [|cbn [children li_ul] in Hn; now rewrite node_at_nil in Hn].
    cbn [with_ul option_map children li_ul] in *.
    exact (IH k n q Hn).
Qed.

(** ** [moveBranch] and the inputs of the moving branch *)

(** X7.  On a page of distinct elements, [moveBranch] on a node starts
    the move state, keeps the tree, and leaves every input of the moving
    branch, its own and those below it, without the hover listeners: a
    pointer that enters or leaves one of them does nothing. *)
Theorem moveBranch_silences_moving_branch
    (cfg : prefix_tokens) (e : editor) (p : path) (n : li) :
  NoDup (ids (listEntry e)) ->
  node_at (listEntry e) p = Some n ->
  exists e',
    moveBranch (Branch (li_id n)) e = Returns tt e' /\
    inMoveState e' = true /\
    content (listEntry e') = content (listEntry e) /\
    forall q m,
      node_at (listEntry e') (p ++ q) = Some m ->
      hasListeners (li_input m) = false /\
      step cfg (mouseover (Branch (li_id m))) e' = Some e' /\
      step cfg (mouseout (Branch (li_id m))) e' = Some e'.
Proof.
  intros Hnd Hn. unfold moveBranch.
  rewrite (in_ids_inside _ _ (node_at_ids _ _ _ Hn)).
  eexists. split; [reflexivity|]. split; [reflexivity|].
  cbn [_removeMenuListeners listEntry with_listEntry with_inMoveState].
  assert (Hids : ids (modify (li_id n) (map_inputs (set_hasListeners false))
                        (listEntry e)) = ids (listEntry e))
    by (apply ids_modify; intros z; apply ids_li_map_inputs).
  split.
  - rewrite <- (ids_content (listEntry e)) in Hnd.
    rewrite (modify_update_at _ p _ n) by (now rewrite <- ids_content || exact Hn).
    clear Hids. revert Hn. generalize (listEntry e) as f. clear.
    induction p as [|i r IH]; intros f Hn; [discriminate|].
    apply node_at_cons in Hn as (x & Hx & [[-> ->]|[Hr Hn]]).
    + cbn [update_at]. rewrite (content_update_nth _ (fun c => c) f i x Hx).
      * apply update_nth_id.
      * apply content_li_map_inputs. intros inp. now split.
    + destruct r as [|a r]; [contradiction|]. rewrite update_at_cons.
      rewrite (content_update_nth _ (fun c => c) f i x Hx);
        [apply update_nth_id|].
      destruct x as [j inp d [k|]];
        [|cbn [children li_ul] in Hn; now rewrite node_at_nil in Hn].
      cbn [with_ul option_map content_li children li_ul] in *. f_equal.
      apply (IH k Hn).
  - intros q m Hm.
    assert (Hoff : hasListeners (li_input m) = false).
    { rewrite (modify_update_at _ p _ n Hnd Hn) in Hm.
      rewrite (node_at_update_at _ p _ n q Hn) in Hm.
      change [map_inputs (set_hasListeners false) n]
        with (map (map_inputs (set_hasListeners false)) [n]) in Hm.
      rewrite (node_at_map _ (children_map_inputs _)) in Hm.
      destruct (node_at [n] (0 :: q)) as [m0|]; [|discriminate].
      injection Hm as <-. now rewrite li_input_map_inputs. }
    split; [exact Hoff|].
    assert (Hin : input_of (Branch (li_id m))
              (with_listEntry
                 (modify (li_id n) (map_inputs (set_hasListeners false)) (listEntry e))
                 (with_inMoveState true e)) = Some (li_input m)).
    { cbn [input_of listEntry with_listEntry].
      rewrite (find_node_at (p ++ q) _ m); [reflexivity| |exact Hm].
      now rewrite Hids. }
    cbn [step]. now rewrite Hin, Hoff.
Qed.

Lemma moveBranch_silences_moving_branch_witness :
  exists e',
    moveBranch (Branch 1) example = Returns tt e' /\
    inMoveState e' = true /\
    content (listEntry e') = content (listEntry example) /\
    forall q m,
      node_at (listEntry e') ([0] ++ q) = Some m ->
      hasListeners (li_input m) = false /\
      step prefix (mouseover (Branch (li_id m))) e' = Some e' /\
      step prefix (mouseout (Branch (li_id m))) e' = Some e'.
Proof.
  apply (moveBranch_silences_moving_branch prefix example [0]
           (Li 1 (set_hasListeners true (set_value (str "src") newNode_input))
              (Some (str "|--"))
              (Some [Li 2 (set_hasListeners true
                             (set_value (str "index.js") newNode_input))
                       (Some (str "|   \--")) None]))).
  - vm_compute. repeat constructor; cbn; intuition discriminate.
  - vm_compute. reflexivity.
Defined.

(** ** The menu never offers [moveBranch] or [deleteBranch] on the root *)

Lemma root_guard_fields e e' : fields e' = fields e -> root_guard e -> root_guard e'.
Proof.
  unfold fields, root_guard. intros H. injection H as _ _ Ha Hc.
  now rewrite Ha, Hc.
Qed.

Lemma root_guard__positionContextMenu t e : root_guard (_positionContextMenu t e).
Proof.
  unfold root_guard, _positionContextMenu. cbn. intros H. injection H as ->. now split.
Qed.

Lemma handled_all_root_guard evs e e' :
  root_guard e -> handled_all evs e e' -> root_guard e'.
Proof.
  apply (handled_all_keeps root_guard).
  - apply root_guard_fields.
  - apply root_guard__positionContextMenu.
  - intros b e0 G. exact G.
  - intros e0 G. exact G.
Qed.

(** X8.  From a page where the menu is not offering them on the root,
    after every sequence of events, whatever the handlers met on the page
    (the sequences that the tree follows are among them), whenever the
    root is the active branch the entries [moveBranch] and [deleteBranch]
    are not displayed, and a click on either does nothing: the menu never
    deletes or moves the root. *)
Theorem root_is_never_moved_or_deleted_by_the_menu
    (cfg : prefix_tokens) (evs : list event) (e e' : editor) :
  root_guard e ->
  handled_all evs e e' \/ run cfg evs e = Some e' ->
  activeBranch e' = Some RootBranch ->
  moveBranch_display (contextMenu e') = false /\
  deleteBranch_display (contextMenu e') = false /\
  step cfg click_moveBranch e' = Some e' /\
  step cfg click_deleteBranch e' = Some e'.
Proof.
  intros G Hall Hact.
  assert (Hall' : handled_all evs e e').
  { destruct Hall as [H|H]; [exact H|now apply run_handled_all with cfg]. }
  destruct (handled_all_root_guard evs e e' G Hall' Hact) as [Hm Hd].
  cbn [step]. rewrite Hm, Hd, !andb_false_r. now repeat split.
Qed.

Lemma root_is_never_moved_or_deleted_by_the_menu_witness :
  el_active (contextMenu (_positionContextMenu RootBranch example)) = true /\
  activeBranch (_positionContextMenu RootBranch example) = Some RootBranch /\
  moveBranch_display (contextMenu (_positionContextMenu RootBranch example)) = false /\
  deleteBranch_display (contextMenu (_positionContextMenu RootBranch example)) = false /\
  step prefix click_moveBranch (_positionContextMenu RootBranch example) =
    Some (_positionContextMenu RootBranch example) /\
  step prefix click_deleteBranch (_positionContextMenu RootBranch example) =
    Some (_positionContextMenu RootBranch example).
Proof.
  split; [reflexivity|]. split; [reflexivity|].
  apply (root_is_never_moved_or_deleted_by_the_menu prefix
           (build_example ++ [mouseover RootBranch]) start
           (_positionContextMenu RootBranch example)).
  - intros H. vm_compute in H. discriminate H.
  - right. vm_compute. reflexivity.
  - reflexivity.
Defined.

(** ** What [update] leaves on every branch *)

Lemma walk_ids_from f :
  Forall (fun n => map (fun c => li_id (snd c)) (walk_li n) = ids_li n) f ->
  forall i, map (fun c => li_id (snd c)) (walk_from i f) = ids f.
Proof.
  induction 1 as [|x r Hx _ IH]; intros i; [reflexivity|].
  cbn [walk_from]. rewrite ids_cons, map_app, map_map. cbn [snd].
  f_equal; [exact Hx|apply IH].
Qed.

Lemma walk_ids_li n : map (fun c => li_id (snd c)) (walk_li n) = ids_li n.
Proof.
  induction n as [j inp a|j inp a k IH] using li_rect'; [reflexivity|].
  rewrite walk_li_eq, ids_li_eq. cbn [map snd li_id children li_ul]. f_equal.
  now apply walk_ids_from.
Qed.

(** The walk meets the elements in the order of [ids]. *)
Lemma walk_ids f : map (fun c => li_id (snd c)) (walk f) = ids f.
Proof.
  apply walk_ids_from. apply Forall_forall. intros n _. apply walk_ids_li.
Qed.

Lemma prefix_strings_spec cfg f :
  prefix_strings cfg f =
  map (fun c => (li_id (snd c), spec_prefix cfg f (fst c))) (walk f).
Proof. unfold prefix_strings. rewrite calls_spec, map_map. reflexivity. Qed.

Lemma prefix_strings_keys cfg f : map fst (prefix_strings cfg f) = ids f.
Proof. rewrite prefix_strings_spec, map_map. cbn [fst]. apply walk_ids. Qed.

Lemma li_id_write i s n : li_id (set_dataset_prefix_li i s n) = li_id n.
Proof. now destruct n as [j inp d [k|]]. Qed.

Lemma li_input_write i s n : li_input (set_dataset_prefix_li i s n) = li_input n.
Proof. now destruct n as [j inp d [k|]]. Qed.

Lemma dataset_prefix_write i s n :
  dataset_prefix (set_dataset_prefix_li i s n) =
  if li_id n =? i then Some s else dataset_prefix n.
Proof. now destruct n as [j inp d [k|]]. Qed.

(** Writes keep the element and its input; when every element is written
    once, a branch ends with the string written for it. *)
Lemma annotate_spec l :
  forall n,
    li_id (annotate l n) = li_id n /\
    li_input (annotate l n) = li_input n /\
    (~ In (li_id n) (map fst l) ->
     dataset_prefix (annotate l n) = dataset_prefix n) /\
    (forall s, NoDup (map fst l) -> In (li_id n, s) l ->
               dataset_prefix (annotate l n) = Some s).
Proof.
  induction l as [|[j q] l IH]; intros n.
  - cbn. repeat split; intros; try reflexivity. contradiction.
  - change (annotate ((j, q) :: l) n) with (annotate l (set_dataset_prefix_li j q n)).
    destruct (IH (set_dataset_prefix_li j q n)) as (Hid & Hinp & Hkeep & Hset).
    rewrite li_id_write in Hid, Hkeep, Hset. rewrite li_input_write in Hinp.
    split; [exact Hid|]. split; [exact Hinp|]. split.
    + intros Hn. cbn [map fst] in Hn. rewrite Hkeep.
      * rewrite dataset_prefix_write. destruct (li_id n =? j) eqn:E; [|reflexivity].
        apply Nat.eqb_eq in E. exfalso. apply Hn. left. now symmetry.
      * intros H. apply Hn. now right.
    + intros s Hnd Hin. cbn [map fst] in Hnd. inversion Hnd as [|a r Hnotin Hnd']; subst.
      destruct Hin as [Heq|Hin].
      * injection Heq as -> ->. rewrite (Hkeep Hnotin).
        now rewrite dataset_prefix_write, Nat.eqb_refl.
      * now apply Hset.
Qed.

Lemma node_at_writes l :
  forall f p,
    node_at (fold_left write l f) p = option_map (annotate l) (node_at f p).
Proof.
  induction l as [|w l IH]; intros f p.
  - cbn [fold_left]. now destruct (node_at f p).
  - cbn [fold_left]. rewrite IH. unfold write, set_dataset_prefix.
    rewrite (node_at_map _ (children_set_dataset_prefix_li (fst w) (snd w))).
    now destruct (node_at f p).
Qed.

Lemma child_list_map (h : li -> li) :
  (forall n, children (h n) = map h (children n)) ->
  forall f q, child_list (map h f) q = option_map (map h) (child_list f q).
Proof.
  intros Hh f [|i q]; [reflexivity|]. unfold child_list.
  rewrite (node_at_map h Hh). destruct (node_at f (i :: q)); cbn [option_map];
    [now rewrite Hh|reflexivity].
Qed.

Lemma is_last_map (h : li -> li) :
  (forall n, children (h n) = map h (children n)) ->
  forall f p, is_last (map h f) p = is_last f p.
Proof.
  intros Hh f [|i q]; [reflexivity|]. unfold is_last.
  rewrite (child_list_map h Hh). destruct (child_list f _); cbn [option_map];
    [now rewrite length_map|reflexivity].
Qed.

Lemma spec_prefix_map cfg (h : li -> li) :
  (forall n, children (h n) = map h (children n)) ->
  forall f p, spec_prefix cfg (map h f) p = spec_prefix cfg f p.
Proof.
  intros Hh f p. unfold spec_prefix. rewrite (is_last_map h Hh). do 2 f_equal.
  apply map_ext. intros q. now rewrite (is_last_map h Hh).
Qed.

Lemma children_plain_li n : children (plain_li n) = map plain_li (children n).
Proof. destruct n as [j inp d [k|]]; reflexivity. Qed.

Lemma spec_prefix_same_plain cfg f g p :
  plain f = plain g -> spec_prefix cfg f p = spec_prefix cfg g p.
Proof.
  intros H.
  rewrite <- (spec_prefix_map cfg plain_li children_plain_li f),
          <- (spec_prefix_map cfg plain_li children_plain_li g).
  fold (plain f) (plain g). now rewrite H.
Qed.

Lemma render_list_annotates cfg f p m :
  NoDup (ids f) ->
  node_at (render_list cfg f) p = Some m ->
  exists n,
    node_at f p = Some n /\ li_id m = li_id n /\ li_input m = li_input n /\
    dataset_prefix m = Some (spec_prefix cfg (render_list cfg f) p).
Proof.
  intros Hnd Hm.
  rewrite (spec_prefix_same_plain cfg _ f p (plain_render_list cfg f)).
  rewrite render_list_writes, node_at_writes in Hm.
  destruct (node_at f p) as [n|] eqn:Hn; [|discriminate].
  cbn [option_map] in Hm. injection Hm as <-.
  destruct (annotate_spec (prefix_strings cfg f) n) as (Hid & Hinp & _ & Hset).
  exists n. repeat split; try assumption.
  apply Hset.
  - now rewrite prefix_strings_keys.
  - rewrite prefix_strings_spec. apply in_map_iff. exists (p, n).
    split; [reflexivity|now apply node_at_in_walk].
Qed.

(** X9.  After [update] on a page of distinct elements (and
    [delayUpdate] off), every branch carries in [dataset.prefix] the
    prefix of its position in the tree, ancestor spacers then connector,
    and its input has the hover listeners, as has the root input; the
    branch is the element that was at that position before, with the
    value it had. *)
Theorem update_annotates_every_branch
    (cfg : prefix_tokens) (e : editor) (p : path) (m : li) :
  delayUpdate e = false ->
  NoDup (ids (listEntry e)) ->
  node_at (listEntry (update cfg e)) p = Some m ->
  dataset_prefix m = Some (spec_prefix cfg (listEntry (update cfg e)) p) /\
  hasListeners (li_input m) = true /\
  hasListeners (root (update cfg e)) = true /\
  exists n,
    node_at (listEntry e) p = Some n /\ li_id m = li_id n /\
    value (li_input m) = value (li_input n).
Proof.
  intros Hd Hnd Hm. unfold update in *. rewrite Hd in *.
  cbn [render _addMenuListeners listEntry with_listEntry with_root root] in *.
  assert (Hnd' : NoDup (ids (map (map_inputs (set_hasListeners true)) (listEntry e)))).
  { rewrite ids_map; [exact Hnd|]. intros y. apply ids_li_map_inputs. }
  destruct (render_list_annotates cfg _ p m Hnd' Hm) as (n1 & Hn1 & Hid & Hinp & Hpre).
  rewrite (node_at_map _ (children_map_inputs (set_hasListeners true))) in Hn1.
  destruct (node_at (listEntry e) p) as [n|] eqn:Hn; [|discriminate].
  cbn [option_map] in Hn1. injection Hn1 as <-.
  rewrite li_input_map_inputs in Hinp.
  split; [exact Hpre|]. split; [now rewrite Hinp|]. split; [reflexivity|].
  exists n. split; [reflexivity|]. split; [|now rewrite Hinp].
  rewrite Hid. now destruct n.
Qed.

Lemma update_annotates_every_branch_witness :
  dataset_prefix
    (Li 2 (set_hasListeners true (set_value (str "index.js") newNode_input))
       (Some (str "|   \--")) None) =
    Some (spec_prefix prefix (listEntry (update prefix example)) [0; 0]) /\
  hasListeners
    (li_input
       (Li 2 (set_hasListeners true (set_value (str "index.js") newNode_input))
          (Some (str "|   \--")) None)) = true /\
  hasListeners (root (update prefix example)) = true /\
  exists n,
    node_at (listEntry example) [0; 0] = Some n /\
    li_id (Li 2 (set_hasListeners true (set_value (str "index.js") newNode_input))
             (Some (str "|   \--")) None) = li_id n /\
    value (li_input
             (Li 2 (set_hasListeners true (set_value (str "index.js") newNode_input))
                (Some (str "|   \--")) None)) = value (li_input n).
Proof.
  apply (update_annotates_every_branch prefix example [0; 0]).
  - vm_compute. reflexivity.
  - vm_compute. repeat constructor; cbn; intuition discriminate.
  - vm_compute. reflexivity.
Defined.

(** ** Passing over a branch while a move is under way *)

Lemma find_map_modify id g k :
  Forall (fun n => find_li id (modify_li id g n) = option_map g (find_li id n)) k ->
  find id (map (modify_li id g) k) = option_map g (find id k).
Proof.
  induction 1 as [|x r Hx _ IH]; [reflexivity|].
  cbn [map find]. rewrite Hx, IH. now destruct (find_li id x).
Qed.

Lemma find_li_modify id g :
  (forall n, li_id (g n) = li_id n) ->
  forall n, find_li id (modify_li id g n) = option_map g (find_li id n).
Proof.
  intros Hg. induction n as [j inp d|j inp d k IH] using li_rect';
    cbn [modify_li]; destruct (j =? id) eqn:E.
  - pose proof (Hg (Li j inp d None)) as H.
    destruct (g (Li j inp d None)) as [j' inp' d' ul'] eqn:Eg. cbn [li_id] in H.
    subst j'. rewrite !find_li_eq, E. cbn [option_map]. now rewrite Eg.
  - rewrite !find_li_eq, E. reflexivity.
  - pose proof (Hg (Li j inp d (Some k))) as H.
    destruct (g (Li j inp d (Some k))) as [j' inp' d' ul'] eqn:Eg. cbn [li_id] in H.
    subst j'. rewrite !find_li_eq, E. cbn [option_map]. now rewrite Eg.
  - rewrite !find_li_eq, E. now apply find_map_modify.
Qed.

Lemma find_modify id g f :
  (forall n, li_id (g n) = li_id n) ->
  find id (modify id g f) = option_map g (find id f).
Proof.
  intros Hg. apply find_map_modify. apply Forall_forall. intros n _.
  now apply find_li_modify.
Qed.

(** The input a handler has changed is the one a later event finds. *)
Lemma input_of_on_input t g e :
  input_of t (on_input t g e) = option_map g (input_of t e).
Proof.
  destruct t as [|id]; [reflexivity|].
  cbn [input_of on_input listEntry with_listEntry].
  rewrite find_modify; [|now intros [j inp d ul]].
  now destruct (find id (listEntry e)) as [[j inp d ul]|].
Qed.

Lemma content_li_modify id g y :
  (forall z, content_li (g z) = content_li z) ->
  content_li (modify_li id g y) = content_li y.
Proof.
  intros Hg. induction y as [j inp d|j inp d k IH] using li_rect';
    cbn [modify_li]; destruct (j =? id); try apply Hg; [reflexivity|].
  cbn [content_li]. f_equal. rewrite map_map. now apply map_ext_Forall.
Qed.

Lemma content_on_input t g e :
  (forall inp, value (g inp) = value inp /\ placeholder (g inp) = placeholder inp) ->
  content (listEntry (on_input t g e)) = content (listEntry e).
Proof.
  intros Hg. destruct t as [|id]; [reflexivity|].
  cbn [on_input listEntry with_listEntry]. unfold content, modify.
  rewrite map_map. apply map_ext. intros y. apply content_li_modify.
  intros [j inp d ul]. cbn [with_input content_li]. now destruct (Hg inp) as [-> ->].
Qed.

Lemma inMoveState_on_input t g e : inMoveState (on_input t g e) = inMoveState e.
Proof. now destruct t. Qed.

(** X10.  While a move is under way, a pointer that enters an input with
    the hover listeners and leaves it again attaches one click listener
    and takes it off again: the input ends with the click listeners it
    had, the tree is the one it was, and when it had none a click on it
    afterwards moves nothing. *)
Theorem hover_in_and_out_arms_nothing
    (cfg : prefix_tokens) (e : editor) (t : ref) (i : input) :
  inMoveState e = true ->
  input_of t e = Some i ->
  hasListeners i = true ->
  exists e1 e2 i1 i2,
    step cfg (mouseover t) e = Some e1 /\
    input_of t e1 = Some i1 /\
    clickListeners i1 = clickListeners i + 1 /\
    step cfg (mouseout t) e1 = Some e2 /\
    input_of t e2 = Some i2 /\
    clickListeners i2 = clickListeners i /\
    clickListener i2 = false /\
    content (listEntry e2) = content (listEntry e) /\
    inMoveState e2 = true /\
    (clickListeners i = 0 -> step cfg (click t) e2 = Some e2).
Proof.
  intros Hmove Hi Hl.
  set (e1 := on_input t add_clickListener e).
  set (e2 := on_input t remove_clickListener e1).
  assert (Hi1 : input_of t e1 = Some (add_clickListener i)).
  { unfold e1. now rewrite input_of_on_input, Hi. }
  assert (Hi2 : input_of t e2 = Some (remove_clickListener (add_clickListener i))).
  { unfold e2. now rewrite input_of_on_input, Hi1. }
  assert (Hm1 : inMoveState e1 = true).
  { unfold e1. now rewrite inMoveState_on_input. }
  assert (Hc : clickListeners (remove_clickListener (add_clickListener i)) =
               clickListeners i).
  { cbn. lia. }
  exists e1, e2, (add_clickListener i), (remove_clickListener (add_clickListener i)).
  split. { cbn [step]. rewrite Hi, Hl. unfold _handleBranchMouseOver. now rewrite Hmove. }
  split; [exact Hi1|]. split; [reflexivity|].
  split. { cbn [step]. rewrite Hi1. cbn [hasListeners add_clickListener].
           rewrite Hl. unfold _handleBranchMouseOut. now rewrite Hm1. }
  split; [exact Hi2|]. split; [exact Hc|]. split; [reflexivity|].
  split. { unfold e2, e1. rewrite !content_on_input; [reflexivity| |]; intros inp; now split. }
  split. { unfold e2. now rewrite inMoveState_on_input. }
  intros H0. cbn [step]. rewrite Hi2, Hc, H0. reflexivity.
Qed.

Lemma hover_in_and_out_arms_nothing_witness :
  exists e1 e2 i1 i2,
    step prefix (mouseover (Branch 1))
      (_removeMenuListeners (Branch 3) (with_inMoveState true example)) = Some e1 /\
    input_of (Branch 1) e1 = Some i1 /\
    clickListeners i1 =
      clickListeners (set_hasListeners true (set_value (str "src") newNode_input)) + 1 /\
    step prefix (mouseout (Branch 1)) e1 = Some e2 /\
    input_of (Branch 1) e2 = Some i2 /\
    clickListeners i2 =
      clickListeners (set_hasListeners true (set_value (str "src") newNode_input)) /\
    clickListener i2 = false /\
    content (listEntry e2) =
      content (listEntry
                 (_removeMenuListeners (Branch 3) (with_inMoveState true example))) /\
    inMoveState e2 = true /\
    (clickListeners (set_hasListeners true (set_value (str "src") newNode_input)) = 0 ->
     step prefix (click (Branch 1)) e2 = Some e2).
Proof.
  apply (hover_in_and_out_arms_nothing prefix
           (_removeMenuListeners (Branch 3) (with_inMoveState true example))
           (Branch 1)
           (set_hasListeners true (set_value (str "src") newNode_input)));
    vm_compute; reflexivity.
Defined.

(** ** The move gesture *)

Lemma node_at_app p :
  forall f r n,
    node_at f p = Some n -> r <> [] ->
    node_at f (p ++ r) = node_at (children n) r.
Proof.
  induction p as [|i p1 IH]; intros f r n Hn Hr; [discriminate|].
  apply node_at_cons in Hn as (x & Hx & [[-> ->]|[Hp1 Hn]]).
  - destruct r as [|a r]; [contradiction|]. cbn [app node_at]. now rewrite Hx.
  - destruct p1 as [|a p2]; [contradiction|].
    change ((i :: a :: p2) ++ r) with (i :: a :: (p2 ++ r)).
    cbn [node_at]. rewrite Hx.
    exact (IH (children x) r n Hn Hr).
Qed.

Lemma node_at_below f p r n m :
  node_at f p = Some n -> node_at f (p ++ r) = Some m -> In (li_id m) (ids_li n).
Proof.
  intros Hn Hm. destruct r as [|a r].
  - rewrite app_nil_r, Hn in Hm. injection Hm as <-. apply li_id_in_ids_li.
  - rewrite (node_at_app p f (a :: r) n Hn) in Hm by discriminate.
    rewrite ids_li_eq. right. now apply node_at_ids with (a :: r).
Qed.

(** A change at [p] leaves the element and the input of every node that
    is not at or below [p]. *)
Lemma node_at_update_at_other g p :
  forall f q m,
    node_at f q = Some m ->
    (forall r, q <> p ++ r) ->
    exists m',
      node_at (update_at p g f) q = Some m' /\
      li_id m' = li_id m /\ li_input m' = li_input m.
Proof.
  induction p as [|i p1 IH]; intros f q m Hm Hq;
    [exfalso; now apply (Hq q)|].
  destruct q as [|j q1]; [discriminate|].
  destruct (Nat.eq_dec i j) as [<-|Hij].
  - destruct p1 as [|a p2]; [exfalso; now apply (Hq q1)|].
    rewrite update_at_cons.
    apply node_at_cons in Hm as (x & Hx & Hcase).
    cbn [node_at]. rewrite (nth_error_update_nth _ f i x Hx).
    destruct Hcase as [[-> ->]|[Hq1 Hm]].
    + eexists. split; [reflexivity|]. now destruct x.
    + destruct q1 as [|b q2]; [contradiction|].
      destruct x as [jx inp d [k|]];
        [|cbn [children li_ul] in Hm; now rewrite node_at_nil in Hm].
      cbn [with_ul option_map children li_ul] in *.
      apply (IH k (b :: q2) m Hm). intros r Hr. apply (Hq r).
      cbn [app]. now rewrite Hr.
  - exists m. split; [|now split].
    assert (Hnth : forall h, nth_error (update_nth i h f) j = nth_error f j).
    { intros h. now apply nth_error_update_nth_other. }
    destruct p1 as [|a p2]; cbn [update_at]; cbn [node_at] in *;
      now rewrite Hnth.
Qed.

Lemma input_of_outside (h : li -> li) e dest p q n :
  (forall z, ids_li (h z) = ids_li z) ->
  NoDup (ids (listEntry e)) ->
  node_at (listEntry e) p = Some n ->
  at_path (removeChild (li_id n) (listEntry e)) dest q ->
  input_of dest (with_listEntry (modify (li_id n) h (listEntry e)) e) =
  input_of dest e.
Proof.
  intros Hh Hnd Hn Hdest. destruct dest as [|d]; [reflexivity|].
  destruct Hdest as (m0 & Hm0 & <-).
  pose proof (NoDup_removeChild _ p n Hnd Hn) as Hnd2.
  pose proof (perm_removeChild _ p n Hnd Hn) as Hperm.
  pose proof (node_at_ids _ _ _ Hm0) as Hin0.
  assert (Hin : In (li_id m0) (ids (listEntry e))).
  { apply (Permutation_in _ (Permutation_sym Hperm)). apply in_or_app. now right. }
  destruct (ids_node_at _ _ Hin) as (q' & m & Hm & Hid).
  assert (Hq' : forall r, q' <> p ++ r).
  { intros r ->. apply (NoDup_app_disjoint _ _ (li_id m0) Hnd2); [|exact Hin0].
    rewrite <- Hid. now apply node_at_below with (listEntry e) p r. }
  cbn [input_of listEntry with_listEntry].
  rewrite (modify_update_at h p _ n Hnd Hn).
  destruct (node_at_update_at_other h p _ q' m Hm Hq') as (m' & Hm' & Hid' & Hinp').
  assert (Hnd' : NoDup (ids (update_at p h (listEntry e)))).
  { rewrite <- (modify_update_at h p _ n Hnd Hn). now rewrite ids_modify. }
  rewrite <- Hid, <- Hid', (find_node_at q' _ m' Hnd' Hm').
  rewrite Hid', (find_node_at q' _ m Hnd Hm). cbn [option_map]. now rewrite Hinp'.
Qed.

Lemma node_at_content f f' p n :
  content f = content f' ->
  node_at f p = Some n ->
  exists n', node_at f' p = Some n' /\ content_li n' = content_li n.
Proof.
  intros Hc Hn. pose proof (cnode_at_content p f) as H.
  rewrite Hc, cnode_at_content, Hn in H. cbn [option_map] in H.
  destruct (node_at f' p) as [n'|]; [|discriminate].
  exists n'. split; [reflexivity|]. cbn [option_map] in H. congruence.
Qed.

Lemma at_path_content f f' b p :
  content f = content f' -> at_path f b p -> at_path f' b p.
Proof.
  intros Hc. destruct b as [|id]; cbn [at_path]; [easy|].
  intros (n & Hn & Hid).
  destruct (node_at_content f f' p n Hc Hn) as (n' & Hn' & Hcn).
  exists n'. split; [exact Hn'|].
  apply content_li_inv in Hcn as (H & _). congruence.
Qed.

Lemma content_modify_map_inputs id g f :
  (forall inp, value (g inp) = value inp /\ placeholder (g inp) = placeholder inp) ->
  content (modify id (map_inputs g) f) = content f.
Proof.
  intros Hg. unfold content, modify. rewrite map_map. apply map_ext. intros y.
  apply content_li_modify. intros z. now apply content_li_map_inputs.
Qed.

Lemma run_app cfg l1 :
  forall l2 e,
    run cfg (l1 ++ l2) e =
    match run cfg l1 e with
    | Some e' => run cfg l2 e'
    | None => None
    end.
Proof.
  induction l1 as [|ev l1 IH]; intros l2 e; [reflexivity|].
  cbn [app run]. destruct (step cfg ev e) as [e1|]; [apply IH|reflexivity].
Qed.

(** The gesture up to the click: the node is the active branch, its
    inputs are silent, and the destination has taken one more click
    listener. *)
Lemma move_gesture_steps cfg e dest p q n i :
  NoDup (ids (listEntry e)) ->
  inMoveState e = false ->
  node_at (listEntry e) p = Some n ->
  hasListeners (li_input n) = true ->
  at_path (removeChild (li_id n) (listEntry e)) dest q ->
  input_of dest e = Some i ->
  hasListeners i = true ->
  exists e3 n3,
    run cfg [mouseover (Branch (li_id n)); click_moveBranch; mouseover dest] e =
      Some e3 /\
    NoDup (ids (listEntry e3)) /\
    activeBranch e3 = Some (Branch (li_id n3)) /\
    node_at (listEntry e3) p = Some n3 /\
    at_path (removeChild (li_id n3) (listEntry e3)) dest q /\
    input_of dest e3 = Some (add_clickListener i) /\
    content (listEntry e3) = content (listEntry e) /\
    content_li n3 = content_li n.
Proof.
  intros Hnd Hmove Hn Hln Hdest Hi Hli.
  set (a := li_id n) in *.
  set (off := map_inputs (set_hasListeners false)).
  set (e1 := _positionContextMenu (Branch a) e).
  set (e2 := _removeMenuListeners (Branch a) (with_inMoveState true e1)).
  set (e3 := on_input dest add_clickListener e2).
  assert (Hoff : forall z, ids_li (off z) = ids_li z).
  { intros z. apply ids_li_map_inputs. }
  assert (H1 : step cfg (mouseover (Branch a)) e = Some e1).
  { cbn [step input_of]. unfold a. rewrite (find_node_at p _ n Hnd Hn).
    cbn [option_map]. rewrite Hln. unfold _handleBranchMouseOver.
    now rewrite Hmove. }
  assert (H2 : step cfg click_moveBranch e1 = Some e2).
  { cbn [step]. unfold e1 at 1 2.
    cbn [_positionContextMenu contextMenu with_contextMenu el_active
         moveBranch_display andb].
    unfold menu_moveBranch, moveBranch.
    assert (Hact : activeBranch e1 = Some (Branch a)) by reflexivity.
    rewrite Hact.
    assert (Hin : inside a (listEntry e1) = true).
    { apply in_ids_inside. cbn. now apply node_at_ids with p. }
    now rewrite Hin. }
  assert (Hi2 : input_of dest e2 = Some i).
  { rewrite <- Hi. unfold e2, e1, a.
    destruct dest as [|d]; [reflexivity|].
    exact (input_of_outside off e (Branch d) p q n Hoff Hnd Hn Hdest). }
  assert (Hm2 : inMoveState e2 = true) by reflexivity.
  assert (H3 : step cfg (mouseover dest) e2 = Some e3).
  { cbn [step]. rewrite Hi2, Hli. unfold _handleBranchMouseOver. now rewrite Hm2. }
  assert (Hc2 : content (listEntry e2) = content (listEntry e)).
  { unfold e2, e1. cbn [_removeMenuListeners listEntry with_listEntry
                        with_inMoveState _positionContextMenu with_contextMenu
                        with_activeBranch].
    apply content_modify_map_inputs. intros inp. now split. }
  assert (Hc3 : content (listEntry e3) = content (listEntry e)).
  { unfold e3. rewrite content_on_input; [exact Hc2|]. intros inp. now split. }
  assert (Hnd3 : NoDup (ids (listEntry e3))).
  { unfold e3. rewrite ids_on_input. unfold e2, e1.
    cbn [_removeMenuListeners listEntry with_listEntry with_inMoveState
         _positionContextMenu with_contextMenu with_activeBranch].
    now rewrite ids_modify. }
  destruct (node_at_content _ _ p n (eq_sym Hc3) Hn) as (n3 & Hn3 & Hcn3).
  pose proof (content_li_inv _ _ Hcn3) as (Hid3 & _).
  exists e3, n3.
  split. { cbn [run]. now rewrite H1, H2, H3. }
  split; [exact Hnd3|].
  split. { rewrite Hid3. unfold e3. now destruct dest. }
  split; [exact Hn3|].
  split.
  { apply at_path_content with (removeChild (li_id n) (listEntry e)); [|exact Hdest].
    rewrite (content_removeChild p _ n Hnd Hn),
            (content_removeChild p _ n3 Hnd3 Hn3).
    now rewrite Hc3. }
  split. { unfold e3. now rewrite input_of_on_input, Hi2. }
  split; [exact Hc3|exact Hcn3].
Qed.

(** X11.  The whole move gesture, on a page of distinct elements and
    outside a move: hover a node, choose [moveBranch] in the menu, hover
    a destination that is not inside the moving branch and has no click
    listener yet, click it.  The node, with everything below it, ends as
    the last child of the destination, nothing else changes place, and
    the move state is over. *)
Theorem move_gesture_reparents
    (cfg : prefix_tokens) (e : editor) (dest : ref) (p q : path) (n : li)
    (i : input) :
  NoDup (ids (listEntry e)) ->
  inMoveState e = false ->
  node_at (listEntry e) p = Some n ->
  hasListeners (li_input n) = true ->
  at_path (removeChild (li_id n) (listEntry e)) dest q ->
  input_of dest e = Some i ->
  hasListeners i = true ->
  clickListeners i = 0 ->
  exists e',
    run cfg [mouseover (Branch (li_id n)); click_moveBranch;
             mouseover dest; click dest] e = Some e' /\
    content (listEntry e') =
      insert_last q (content_li n) (delete_at p (content (listEntry e))) /\
    inMoveState e' = false.
Proof.
  intros Hnd Hmove Hn Hln Hdest Hi Hli Hci.
  destruct (move_gesture_steps cfg e dest p q n i Hnd Hmove Hn Hln Hdest Hi Hli)
    as (e3 & n3 & Hrun & Hnd3 & Hact3 & Hn3 & Hdest3 & Hi3 & Hc3 & Hcn3).
  destruct (_moveBranch_returns cfg e3 dest p q n3 Hnd3 Hact3 Hn3 Hdest3)
    as (f' & Hret & Hcf & _).
  eexists. split; [|split].
  - change [mouseover (Branch (li_id n)); click_moveBranch; mouseover dest; click dest]
      with ([mouseover (Branch (li_id n)); click_moveBranch; mouseover dest]
            ++ [click dest]).
    rewrite run_app, Hrun. cbn [run step]. rewrite Hi3.
    cbn [clickListeners add_clickListener]. rewrite Hci.
    cbn [Nat.add dispatch_click]. rewrite Hret. cbn [settle]. reflexivity.
  - rewrite content_update. cbn [listEntry with_listEntry with_inMoveState].
    now rewrite Hcf, Hcn3, Hc3.
  - rewrite inMoveState_update. reflexivity.
Qed.

Lemma move_gesture_reparents_witness :
  exists e',
    run prefix [mouseover (Branch 3); click_moveBranch;
                mouseover (Branch 1); click (Branch 1)] example = Some e' /\
    content (listEntry e') =
      [ Node 1 (str "src") (str "Directory or File Name")
          [ Node 2 (str "index.js") (str "Directory or File Name") [];
            Node 3 (str "README.md") (str "Directory or File Name") [] ] ] /\
    inMoveState e' = false.
Proof.
  apply (move_gesture_reparents prefix example (Branch 1) [1] [0]
           (Li 3 (set_hasListeners true (set_value (str "README.md") newNode_input))
              (Some (str "\--")) None)
           (set_hasListeners true (set_value (str "src") newNode_input))).
  - vm_compute. repeat constructor; cbn; intuition discriminate.
  - vm_compute. reflexivity.
  - vm_compute. reflexivity.
  - vm_compute. reflexivity.
  - eexists. split; vm_compute; reflexivity.
  - vm_compute. reflexivity.
  - vm_compute. reflexivity.
  - vm_compute. reflexivity.
Defined.

(** ** The click listener a move leaves behind *)

Lemma children_removeChild_li a x :
  children (removeChild_li a x) = removeChild a (children x).
Proof. destruct x as [j inp d [k|]]; reflexivity. Qed.

Lemma li_input_removeChild_li a x : li_input (removeChild_li a x) = li_input x.
Proof. now destruct x. Qed.

(** A node that is left after a removal was in the tree before. *)
Lemma node_at_removeChild_inv a q :
  forall f m,
    node_at (removeChild a f) q = Some m ->
    exists q' m', node_at f q' = Some m' /\ m = removeChild_li a m'.
Proof.
  induction q as [|i q IH]; intros f m Hm; [discriminate|].
  apply node_at_cons in Hm as (y & Hy & Hcase).
  unfold removeChild in Hy. apply nth_error_In in Hy.
  apply filter_In in Hy as [Hy _]. apply in_map_iff in Hy as (x & Hxy & Hx).
  apply In_nth_error in Hx as (i' & Hi').
  destruct Hcase as [[_ Hmy]|[Hq Hm]].
  - exists [i'], x. split; [|congruence]. cbn [node_at]. now rewrite Hi'.
  - rewrite <- Hxy, children_removeChild_li in Hm.
    destruct (IH _ _ Hm) as (q' & m' & Hm' & ->).
    exists (i' :: q'), m'. split; [|reflexivity]. cbn [node_at]. rewrite Hi'.
    destruct q' as [|b q']; [discriminate Hm'|exact Hm'].
Qed.

Lemma node_at_update cfg e p n :
  node_at (listEntry e) p = Some n ->
  exists m,
    node_at (listEntry (update cfg e)) p = Some m /\
    li_id m = li_id n /\
    clickListeners (li_input m) = clickListeners (li_input n) /\
    clickListener (li_input m) = clickListener (li_input n) /\
    value (li_input m) = value (li_input n).
Proof.
  intros Hn. unfold update. destruct (delayUpdate e); [exists n; now repeat split|].
  cbn [render _addMenuListeners listEntry with_listEntry with_root].
  rewrite render_list_writes, node_at_writes,
          (node_at_map _ (children_map_inputs (set_hasListeners true))), Hn.
  cbn [option_map]. eexists. split; [reflexivity|].
  match goal with
  | |- context [annotate ?l ?x] =>
      destruct (annotate_spec l x) as (Hid & Hinp & _)
  end.
  rewrite Hid, Hinp, li_input_map_inputs. destruct n. now repeat split.
Qed.

Lemma clickListeners_root_update cfg e :
  clickListeners (root (update cfg e)) = clickListeners (root e).
Proof. unfold update. now destruct (delayUpdate e). Qed.

Lemma li_input_appendChild_li item m : li_input (appendChild_li item m) = li_input m.
Proof. now destruct m. Qed.

Lemma li_id_appendChild_li item m : li_id (appendChild_li item m) = li_id m.
Proof. now destruct m. Qed.

(** [_moveBranch] does not take the listener off that called it. *)
Lemma _moveBranch_keeps_listener cfg e dest p q n j :
  NoDup (ids (listEntry e)) ->
  activeBranch e = Some (Branch (li_id n)) ->
  node_at (listEntry e) p = Some n ->
  at_path (removeChild (li_id n) (listEntry e)) dest q ->
  input_of dest e = Some j ->
  exists e' j',
    _moveBranch cfg dest e = Returns tt e' /\
    input_of dest e' = Some j' /\
    clickListeners j' = clickListeners j /\
    inMoveState e' = false.
Proof.
  intros Hnd Hact Hn Hdest Hj. unfold _moveBranch.
  rewrite Hact, (find_node_at p _ n Hnd Hn).
  pose proof (NoDup_removeChild _ p n Hnd Hn) as Hnd2.
  destruct dest as [|d]; cbn [at_path] in Hdest.
  - eexists. eexists. split; [reflexivity|]. cbn [input_of] in *.
    split; [reflexivity|]. rewrite clickListeners_root_update, inMoveState_update.
    injection Hj as <-. now split.
  - destruct Hdest as (m & Hm & Hd). subst d.
    pose proof (node_at_ids _ _ _ Hm) as Hin.
    assert (Hout : inside_li (li_id m) n = false).
    { apply not_true_is_false. intros H. apply inside_li_ids in H.
      now apply (NoDup_app_disjoint _ _ _ Hnd2 H). }
    rewrite Hout, (in_ids_inside _ _ Hin).
    apply NoDup_app_remove_l in Hnd2 as Hnd3.
    assert (Hjm : li_input m = j).
    { destruct (node_at_removeChild_inv _ _ _ _ Hm) as (q' & m' & Hm' & Hmm).
      cbn [input_of] in Hj. rewrite Hmm, li_id_removeChild_li in Hj.
      rewrite (find_node_at q' _ m' Hnd Hm') in Hj. cbn [option_map] in Hj.
      injection Hj as <-. now rewrite Hmm, li_input_removeChild_li. }
    set (removed := removeChild (li_id n) (listEntry e)) in *.
    set (F := modify (li_id m) (appendChild_li n) removed).
    assert (HF : node_at F q = Some (appendChild_li n m)).
    { unfold F. rewrite (modify_update_at _ q removed m Hnd3 Hm).
      pose proof (node_at_update_at (appendChild_li n) q removed m [] Hm) as H.
      now rewrite app_nil_r in H. }
    set (e0 := with_inMoveState false (with_listEntry F e)).
    destruct (node_at_update cfg e0 q (appendChild_li n m) HF)
      as (m2 & Hm2 & Hid2 & Hc2 & _).
    assert (HndF : NoDup (ids (listEntry (update cfg e0)))).
    { rewrite ids_update. unfold e0, F. cbn [listEntry with_listEntry with_inMoveState].
      apply (Permutation_NoDup (Permutation_sym (perm_appendChild n removed q m Hnd3 Hm))).
      exact Hnd2. }
    exists (update cfg e0), (li_input m2). split; [reflexivity|].
    split.
    { cbn [input_of].
      replace (li_id m) with (li_id m2)
        by (now rewrite Hid2, li_id_appendChild_li).
      now rewrite (find_node_at q _ m2 HndF Hm2). }
    split; [|now rewrite inMoveState_update].
    now rewrite Hc2, li_input_appendChild_li, Hjm.
Qed.

(** X16.  The click listener that the move gesture attaches to the
    destination is still attached when the move is over: after the
    gesture of X11 the input of the destination has one click listener
    bound to [_moveBranch], and the editor is not in the move state. *)
Theorem move_gesture_leaves_its_click_listener
    (cfg : prefix_tokens) (e : editor) (dest : ref) (p q : path) (n : li)
    (i : input) :
  NoDup (ids (listEntry e)) ->
  inMoveState e = false ->
  node_at (listEntry e) p = Some n ->
  hasListeners (li_input n) = true ->
  at_path (removeChild (li_id n) (listEntry e)) dest q ->
  input_of dest e = Some i ->
  hasListeners i = true ->
  clickListeners i = 0 ->
  exists e' i',
    run cfg [mouseover (Branch (li_id n)); click_moveBranch;
             mouseover dest; click dest] e = Some e' /\
    input_of dest e' = Some i' /\
    clickListeners i' = 1 /\
    inMoveState e' = false.
Proof.
  intros Hnd Hmove Hn Hln Hdest Hi Hli Hci.
  destruct (move_gesture_steps cfg e dest p q n i Hnd Hmove Hn Hln Hdest Hi Hli)
    as (e3 & n3 & Hrun & Hnd3 & Hact3 & Hn3 & Hdest3 & Hi3 & _).
  destruct (_moveBranch_keeps_listener cfg e3 dest p q n3 _ Hnd3 Hact3 Hn3 Hdest3 Hi3)
    as (e' & i' & Hret & Hi' & Hc' & Hm').
  exists e', i'. split; [|split; [exact Hi'|split; [|exact Hm']]].
  - change [mouseover (Branch (li_id n)); click_moveBranch; mouseover dest; click dest]
      with ([mouseover (Branch (li_id n)); click_moveBranch; mouseover dest]
            ++ [click dest]).
    rewrite run_app, Hrun. cbn [run step]. rewrite Hi3.
    cbn [clickListeners add_clickListener]. rewrite Hci.
    cbn [Nat.add dispatch_click]. rewrite Hret. cbn [settle]. reflexivity.
  - rewrite Hc'. cbn [clickListeners add_clickListener]. lia.
Qed.

Lemma move_gesture_leaves_its_click_listener_witness :
  exists e' i',
    run prefix [mouseover (Branch 3); click_moveBranch;
                mouseover (Branch 1); click (Branch 1)] example = Some e' /\
    input_of (Branch 1) e' = Some i' /\
    clickListeners i' = 1 /\
    inMoveState e' = false.
Proof.
  apply (move_gesture_leaves_its_click_listener prefix example (Branch 1) [1] [0]
           (Li 3 (set_hasListeners true (set_value (str "README.md") newNode_input))
              (Some (str "\--")) None)
           (set_hasListeners true (set_value (str "src") newNode_input))).
  - vm_compute. repeat constructor; cbn; intuition discriminate.
  - vm_compute. reflexivity.
  - vm_compute. reflexivity.
  - vm_compute. reflexivity.
  - eexists. split; vm_compute; reflexivity.
  - vm_compute. reflexivity.
  - vm_compute. reflexivity.
  - vm_compute. reflexivity.
Defined.



(** ** A change of a token input *)

Lemma update_annotates cfg e p m :
  delayUpdate e = false ->
  NoDup (ids (listEntry e)) ->
  node_at (listEntry (update cfg e)) p = Some m ->
  dataset_prefix m = Some (spec_prefix cfg (listEntry (update cfg e)) p).
Proof.
  intros Hd Hnd Hm. unfold update in *. rewrite Hd in *.
  cbn [render _addMenuListeners listEntry with_listEntry with_root root] in *.
  assert (Hnd' : NoDup (ids (map (map_inputs (set_hasListeners true)) (listEntry e)))).
  { rewrite ids_map; [exact Hnd|]. intros y. apply ids_li_map_inputs. }
  now destruct (render_list_annotates cfg _ p m Hnd' Hm) as (n1 & _ & _ & _ & Hpre).
Qed.

(** X12.  A change of one of the four token inputs to [v] stores [v] in
    the token the input stands for, the other three tokens stay, and the
    tree is rendered again with the new tokens: on a page of distinct
    elements every branch then carries the prefix of its position built
    from the new tokens; the tree itself is as it was. *)
Theorem token_change_renders_with_the_new_token
    (cfg cfg' : prefix_tokens) (e : editor) (className v : jsstring) :
  delayUpdate e = false ->
  NoDup (ids (listEntry e)) ->
  In (className, cfg') (els v cfg) ->
  exists e',
    _handleChange className v (cfg, e) = (cfg', e') /\
    content (listEntry e') = content (listEntry e) /\
    toString cfg' e' = toString cfg' e /\
    forall p m,
      node_at (listEntry e') p = Some m ->
      dataset_prefix m = Some (spec_prefix cfg' (listEntry e') p).
Proof.
  intros Hd Hnd Hin. exists (update cfg' e).
  assert (Hc : _handleChange className v (cfg, e) = (cfg', update cfg' e)).
  { cbn [els In] in Hin.
    destruct Hin as [H|[H|[H|[H|[]]]]]; injection H as <- <-; reflexivity. }
  split; [exact Hc|]. split; [apply content_update|].
  split; [apply toString_update|].
  intros p m Hm. now apply update_annotates.
Qed.

Lemma token_change_renders_with_the_new_token_witness :
  exists e',
    _handleChange (str "spacer-branch") (str ":   ") (prefix, example) =
      ({| branch := str "|--"; branch_last := str "\--";
          spacer_branch := str ":   "; spacer_empty := str "    " |}, e') /\
    content (listEntry e') = content (listEntry example) /\
    toString {| branch := str "|--"; branch_last := str "\--";
                spacer_branch := str ":   "; spacer_empty := str "    " |} e' =
    toString {| branch := str "|--"; branch_last := str "\--";
                spacer_branch := str ":   "; spacer_empty := str "    " |} example /\
    forall p m,
      node_at (listEntry e') p = Some m ->
      dataset_prefix m =
      Some (spec_prefix {| branch := str "|--"; branch_last := str "\--";
                           spacer_branch := str ":   "; spacer_empty := str "    " |}
              (listEntry e') p).
Proof.
  apply (token_change_renders_with_the_new_token prefix).
  - vm_compute. reflexivity.
  - vm_compute. repeat constructor; cbn; intuition discriminate.
  - right. right. left. reflexivity.
Defined.

(** ** The folder drop *)

Lemma ref_eqb_refl a : ref_eqb a a = true.
Proof. destruct a as [|i]; [reflexivity|apply Nat.eqb_refl]. Qed.

Lemma ref_eqb_neq a b : a <> b -> ref_eqb a b = false.
Proof.
  destruct a as [|i], b as [|j]; cbn; intros H; try reflexivity;
    [contradiction|]. apply Nat.eqb_neq. congruence.
Qed.

Lemma awaited_app b P Q : awaited b (P ++ Q) = awaited b P ++ awaited b Q.
Proof. unfold awaited. apply flat_map_app. Qed.

Lemma awaited_cons b r P :
  awaited b (r :: P) =
  (if ref_eqb (branch_of r) b then delivered (result r) else []) ++ awaited b P.
Proof. reflexivity. Qed.

Lemma awaited_absent b P : ~ In b (map branch_of P) -> awaited b P = [].
Proof.
  induction P as [|r P IH]; intros H; [reflexivity|].
  rewrite awaited_cons, ref_eqb_neq, IH; [reflexivity| |]; cbn [map In] in H;
    intuition.
Qed.

Lemma awaited_one b r :
  awaited b [r] = if ref_eqb (branch_of r) b then delivered (result r) else [].
Proof. rewrite awaited_cons. apply app_nil_r. Qed.

Lemma in_cids_node_kid j v h k x i :
  In x k -> In i (cids_node x) -> In i (cids_node (Node j v h k)).
Proof. intros Hx Hi. cbn [cids_node]. right. apply in_flat_map. now exists x. Qed.

Lemma NoDup_flat_map_in {A B : Type} (F : A -> list B) l x :
  NoDup (flat_map F l) -> In x l -> NoDup (F x).
Proof.
  intros Hnd Hx. apply in_split in Hx as (l1 & l2 & ->).
  rewrite flat_map_app in Hnd. cbn [flat_map] in Hnd.
  now apply NoDup_app_remove_l, NoDup_app_remove_r in Hnd.
Qed.

(** The expected tree of a node looks at the calls that wait for the
    elements of the node only. *)
Lemma expected_node_agree P P' c :
  (forall j, In j (cids_node c) -> awaited (Branch j) P = awaited (Branch j) P') ->
  expected_node P c = expected_node P' c.
Proof.
  induction c as [j v h k IH] using node_ind'. intros H. cbn [expected_node].
  rewrite (H j) by (cbn; now left). do 2 f_equal.
  apply map_ext_in. intros x Hx. rewrite Forall_forall in IH.
  apply IH; [exact Hx|]. intros i Hi. apply H. now apply in_cids_node_kid with x.
Qed.

Lemma cmodify_absent id g c : ~ In id (cids_node c) -> cmodify id g c = c.
Proof.
  induction c as [j v h k IH] using node_ind'. intros H. cbn [cmodify].
  destruct (j =? id) eqn:E.
  { apply Nat.eqb_eq in E. exfalso. apply H. cbn. now left. }
  f_equal. rewrite <- (map_id k) at 2. apply map_ext_in. intros x Hx.
  rewrite Forall_forall in IH. apply IH; [exact Hx|]. intros Hi. apply H.
  now apply in_cids_node_kid with x.
Qed.

Lemma cmodify_absent_list id g t : ~ In id (cids t) -> map (cmodify id g) t = t.
Proof.
  intros H. rewrite <- (map_id t) at 2. apply map_ext_in. intros x Hx.
  apply cmodify_absent. intros Hi. apply H. unfold cids. apply in_flat_map.
  now exists x.
Qed.

Lemma content_li_cmodify id (g : li -> li) (g' : node -> node) n :
  (forall z, content_li (g z) = g' (content_li z)) ->
  content_li (modify_li id g n) = cmodify id g' (content_li n).
Proof.
  intros Hg. induction n as [j inp d|j inp d k IH] using li_rect';
    cbn [modify_li]; destruct (j =? id) eqn:E.
  - rewrite Hg. cbn [content_li cmodify]. now rewrite E.
  - cbn [content_li cmodify]. now rewrite E.
  - rewrite Hg. cbn [content_li cmodify]. now rewrite E.
  - cbn [content_li cmodify]. rewrite E. f_equal. rewrite !map_map.
    now apply map_ext_Forall.
Qed.

Lemma content_cmodify id (g : li -> li) (g' : node -> node) f :
  (forall z, content_li (g z) = g' (content_li z)) ->
  content (modify id g f) = map (cmodify id g') (content f).
Proof.
  intros Hg. unfold content, modify. rewrite !map_map. apply map_ext.
  intros n. now apply content_li_cmodify.
Qed.

Lemma content_li_appendChild_li item z :
  content_li (appendChild_li item z) = add_kid (content_li item) (content_li z).
Proof.
  destruct z as [j inp d [k|]]; cbn [appendChild_li content_li add_kid with_kids];
    [now rewrite map_app|reflexivity].
Qed.

Lemma content_li_set_value v z :
  content_li (with_input (set_value v) z) = set_text (sanitized v) (content_li z).
Proof. now destruct z as [j inp d [k|]]. Qed.

(** One more child below [b], and one entry less to wait for there. *)
Lemma expected_node_add_kid P0 P1 b id v h c :
  NoDup (cids_node c) ->
  ~ In id (cids_node c) ->
  (forall j, j <> b -> j <> id -> awaited (Branch j) P1 = awaited (Branch j) P0) ->
  awaited (Branch b) P0 = Names v h (awaited (Branch id) P1) :: awaited (Branch b) P1 ->
  expected_node P1 (cmodify b (add_kid (Node id v h [])) c) = expected_node P0 c.
Proof.
  induction c as [j vj hj k IH] using node_ind'. intros Hnd Hid Hother Hb.
  cbn [cmodify]. destruct (j =? b) eqn:E.
  - apply Nat.eqb_eq in E. subst j.
    cbn [add_kid with_kids expected_node]. rewrite map_app.
    cbn [map expected_node app]. rewrite Hb, <- app_assoc. cbn [app].
    do 2 f_equal. apply map_ext_in. intros x Hx. apply expected_node_agree.
    intros i Hi. apply Hother.
    + intros ->. cbn [cids_node] in Hnd. inversion Hnd as [|a l Hnot _]; subst.
      apply Hnot. apply in_flat_map. now exists x.
    + intros ->. apply Hid. now apply in_cids_node_kid with x.
  - apply Nat.eqb_neq in E. cbn [expected_node]. rewrite map_map. f_equal. f_equal.
    + apply map_ext_in. intros x Hx. rewrite Forall_forall in IH.
      apply IH; try assumption.
      * cbn [cids_node] in Hnd. inversion Hnd as [|a l _ Hk]; subst.
        now apply NoDup_flat_map_in with k.
      * intros Hi. apply Hid. now apply in_cids_node_kid with x.
    + apply Hother; [exact E|]. intros ->. apply Hid. cbn. now left.
Qed.

Lemma expected_add_kid P0 P1 b id v h t :
  NoDup (cids t) ->
  ~ In id (cids t) ->
  (forall j, j <> b -> j <> id -> awaited (Branch j) P1 = awaited (Branch j) P0) ->
  awaited (Branch b) P0 = Names v h (awaited (Branch id) P1) :: awaited (Branch b) P1 ->
  awaited RootBranch P1 = awaited RootBranch P0 ->
  expected P1 (map (cmodify b (add_kid (Node id v h []))) t) = expected P0 t.
Proof.
  intros Hnd Hid Hother Hb Hroot. unfold expected. rewrite map_map, Hroot. f_equal.
  apply map_ext_in. intros x Hx. apply expected_node_add_kid; try assumption.
  - now apply NoDup_flat_map_in with t.
  - intros Hi. apply Hid. unfold cids. apply in_flat_map. now exists x.
Qed.

Lemma expected_add_root P0 P1 id v h t :
  ~ In id (cids t) ->
  (forall j, j <> id -> awaited (Branch j) P1 = awaited (Branch j) P0) ->
  awaited RootBranch P0 = Names v h (awaited (Branch id) P1) :: awaited RootBranch P1 ->
  expected P1 (t ++ [Node id v h []]) = expected P0 t.
Proof.
  intros Hid Hother Hroot. unfold expected. rewrite map_app, Hroot, <- app_assoc.
  cbn [map expected_node app]. f_equal. apply map_ext_in. intros x Hx.
  apply expected_node_agree. intros i Hi. apply Hother. intros ->. apply Hid.
  unfold cids. apply in_flat_map. now exists x.
Qed.

Lemma cmodify_set_text_add_kid b id v h c :
  ~ In id (cids_node c) ->
  cmodify id (set_text v) (cmodify b (add_kid (Node id [] h [])) c) =
  cmodify b (add_kid (Node id v h [])) c.
Proof.
  induction c as [j vj hj k IH] using node_ind'. intros Hid.
  assert (Hj : (j =? id) = false).
  { apply Nat.eqb_neq. intros ->. apply Hid. cbn. now left. }
  assert (Hk : ~ In id (cids k)).
  { intros H. apply Hid. cbn [cids_node]. now right. }
  cbn [cmodify]. destruct (j =? b) eqn:E.
  - cbn [add_kid with_kids cmodify]. rewrite Hj. f_equal. rewrite map_app.
    rewrite (cmodify_absent_list id _ k Hk). cbn [map cmodify].
    now rewrite Nat.eqb_refl.
  - cbn [cmodify]. rewrite Hj. f_equal. rewrite map_map. apply map_ext_in.
    intros x Hx. rewrite Forall_forall in IH. apply IH; [exact Hx|].
    intros Hi. apply Hid. now apply in_cids_node_kid with x.
Qed.

Lemma delayUpdate_update cfg e : delayUpdate (update cfg e) = delayUpdate e.
Proof. unfold update. now destruct (delayUpdate e) eqn:E. Qed.

Lemma wf_fresh e : wf e -> ~ In (nextId e) (ids (listEntry e)).
Proof.
  intros [_ Hlt] Hin. rewrite Forall_forall in Hlt. specialize (Hlt _ Hin). lia.
Qed.

Lemma addChild_by_element cfg b e :
  wf e ->
  present (listEntry e) b ->
  exists e1,
    addChild cfg b e = Returns (newNode_li (nextId e)) e1 /\
    wf e1 /\
    Permutation (ids (listEntry e1)) (nextId e :: ids (listEntry e)) /\
    content (listEntry e1) =
      match b with
      | RootBranch =>
          content (listEntry e) ++
          [Node (nextId e) [] (str "Directory or File Name") []]
      | Branch j =>
          map (cmodify j (add_kid (Node (nextId e) [] (str "Directory or File Name") [])))
            (content (listEntry e))
      end /\
    value (root e1) = value (root e) /\
    delayUpdate e1 = delayUpdate e.
Proof.
  intros Hwf Hb.
  assert (Hin : match b with
                | RootBranch => True
                | Branch j => inside j (listEntry e) = true
                end).
  { destruct b as [|j]; [exact I|]. now apply in_ids_inside. }
  assert (Hret : exists e1, addChild cfg b e = Returns (newNode_li (nextId e)) e1).
  { unfold addChild. destruct b as [|j]; [|rewrite Hin]; eexists; reflexivity. }
  destruct Hret as (e1 & Hret). exists e1. split; [exact Hret|].
  assert (Hwf1 : wf e1).
  { apply (wf_settle_addChild cfg b e e1 Hwf). now rewrite Hret. }
  split; [exact Hwf1|].
  unfold addChild in Hret. destruct b as [|j].
  - injection Hret as <-.
    rewrite ids_update, content_update, value_root_update, delayUpdate_update.
    cbn [listEntry with_listEntry with_nextId root delayUpdate].
    repeat split.
    + unfold ids. rewrite flat_map_app. cbn [flat_map newNode_li ids_li].
      symmetry. apply Permutation_cons_append.
    + unfold content. now rewrite map_app.
  - rewrite Hin in Hret. injection Hret as <-.
    rewrite ids_update, content_update, value_root_update, delayUpdate_update.
    cbn [listEntry with_listEntry with_nextId root delayUpdate].
    repeat split.
    + apply (perm_appendChild_in j (newNode_li (nextId e)) _ (proj1 Hwf) Hb).
    + apply content_cmodify. intros z. apply content_li_appendChild_li.
Qed.

Lemma _traverse_item_eq cfg item b e P :
  _traverse_item cfg item b (e, P) =
  match addChild cfg b e with
  | Returns li e1 =>
      Some (on_input (Branch (li_id li)) (set_value (entry_name item)) e1,
            P ++ readers item (Branch (li_id li)))
  | Throws _ => None
  | Untracked => None
  end.
Proof.
  unfold _traverse_item. cbn [fst snd].
  destruct (addChild cfg b e) as [li e1| |]; try reflexivity.
  destruct item as [name|name reads]; cbn [entry_name readers _traverse fst snd];
    [now rewrite app_nil_r|reflexivity].
Qed.

Lemma tree_of_readers item b :
  tree_of item =
  Names (sanitized (entry_name item)) (str "Directory or File Name")
    (awaited b (readers item b)).
Proof.
  destruct item as [name|name reads]; cbn [tree_of entry_name readers]; [reflexivity|].
  rewrite awaited_one. cbn [branch_of result]. now rewrite ref_eqb_refl.
Qed.

Lemma awaited_readers_other item b k : b <> k -> awaited k (readers item b) = [].
Proof.
  intros H. destruct item as [name|name reads]; [reflexivity|].
  cbn [readers]. rewrite awaited_one. cbn [branch_of]. now rewrite ref_eqb_neq.
Qed.

Lemma waiting_app P Q : waiting (P ++ Q) = waiting P + waiting Q.
Proof. unfold waiting. now rewrite map_app, list_sum_app. Qed.

Lemma waiting_readers item b : waiting (readers item b) = weight item.
Proof.
  destruct item as [name|name reads]; [reflexivity|].
  unfold waiting, weight_of. destruct reads as [l|]; cbn; lia.
Qed.

Lemma keys_present f P b :
  Forall (waits_in f) P -> In b (map branch_of P) -> present f b.
Proof.
  intros H Hin. apply in_map_iff in Hin as (r & <- & Hr).
  rewrite Forall_forall in H. now apply H.
Qed.

Lemma present_perm f f' b x :
  Permutation (ids f') (x :: ids f) -> present f b -> present f' b.
Proof.
  intros Hp. destruct b as [|j]; [easy|]. cbn [present]. intros H.
  apply (Permutation_in _ (Permutation_sym Hp)). now right.
Qed.

Lemma NoDup_snoc {A : Type} (l : list A) x : NoDup l -> ~ In x l -> NoDup (l ++ [x]).
Proof.
  intros Hnd Hx. apply (Permutation_NoDup (Permutation_cons_append l x)).
  now constructor.
Qed.

(** One turn of the loop of the success callback. *)
Lemma _traverse_item_spec cfg item b e P :
  drop_ok (e, P) ->
  present (listEntry e) b ->
  ~ In b (map branch_of P) ->
  exists e2 P1,
    _traverse_item cfg item b (e, P) = Some (e2, P1) /\
    drop_ok (e2, P1) /\
    present (listEntry e2) b /\
    ~ In b (map branch_of P1) /\
    value (root e2) = value (root e) /\
    delayUpdate e2 = delayUpdate e /\
    waiting P1 = waiting P + weight item /\
    forall rest,
      expected (P1 ++ [{| branch_of := b; result := Some rest |}])
        (content (listEntry e2)) =
      expected (P ++ [{| branch_of := b; result := Some (item :: rest) |}])
        (content (listEntry e)).
Proof.
  intros (Hwf & Hkeys & Hwait) Hb Hnb. cbn [fst snd] in *.
  destruct (addChild_by_element cfg b e Hwf Hb)
    as (e1 & Hret & Hwf1 & Hperm & Hc1 & Hr1 & Hd1).
  pose proof (wf_fresh e Hwf) as Hfresh.
  set (id := nextId e) in *.
  set (e2 := on_input (Branch id) (set_value (entry_name item)) e1).
  assert (Hids2 : Permutation (ids (listEntry e2)) (id :: ids (listEntry e))).
  { unfold e2. now rewrite ids_on_input. }
  assert (Hidb : Branch id <> b).
  { intros <-. now apply Hfresh. }
  assert (Hidk : ~ In (Branch id) (map branch_of P)).
  { intros H. apply Hfresh. exact (keys_present _ _ _ Hwait H). }
  exists e2, (P ++ readers item (Branch id)).
  split. { rewrite _traverse_item_eq, Hret. reflexivity. }
  assert (Hnb1 : ~ In b (map branch_of (P ++ readers item (Branch id)))).
  { rewrite map_app, in_app_iff. intros [H|H]; [now apply Hnb|].
    destruct item as [name|name reads]; cbn in H; [contradiction|].
    destruct H as [H|[]]. now apply Hidb. }
  split.
  { split; [|split]; cbn [fst snd].
    - unfold e2. now apply wf_on_input.
    - destruct item as [name|name reads]; cbn [readers].
      + now rewrite app_nil_r.
      + rewrite map_app. cbn [map branch_of]. now apply NoDup_snoc.
    - apply Forall_app. split.
      + apply Forall_forall. intros r Hr. rewrite Forall_forall in Hwait.
        exact (present_perm _ _ _ _ Hids2 (Hwait r Hr)).
      + destruct item as [name|name reads]; cbn [readers]; constructor; [|constructor].
        unfold waits_in. cbn [branch_of present].
        apply (Permutation_in _ (Permutation_sym Hids2)). now left. }
  split; [exact (present_perm _ _ _ _ Hids2 Hb)|].
  split; [exact Hnb1|].
  split; [exact Hr1|]. split; [exact Hd1|].
  split. { now rewrite waiting_app, waiting_readers. }
  intros rest.
  assert (Hc2 : content (listEntry e2) =
                map (cmodify id (set_text (sanitized (entry_name item))))
                  (content (listEntry e1))).
  { unfold e2. cbn [on_input listEntry with_listEntry].
    apply content_cmodify. intros z. apply content_li_set_value. }
  assert (Hfc : ~ In id (cids (content (listEntry e)))) by now rewrite ids_content.
  assert (Hndc : NoDup (cids (content (listEntry e)))).
  { rewrite ids_content. exact (proj1 Hwf). }
  assert (Hself : forall rb,
            branch_of rb = b ->
            awaited (Branch id) ((P ++ readers item (Branch id)) ++ [rb]) =
            awaited (Branch id) (readers item (Branch id))).
  { intros rb Hrb. rewrite !awaited_app, (awaited_absent _ P Hidk), awaited_one, Hrb.
    rewrite (ref_eqb_neq b (Branch id)) by congruence. now rewrite app_nil_r. }
  assert (Hhere : forall rb,
            branch_of rb = b ->
            awaited b ((P ++ readers item (Branch id)) ++ [rb]) =
            delivered (result rb)).
  { intros rb Hrb. rewrite awaited_app, (awaited_absent _ _ Hnb1), awaited_one, Hrb.
    now rewrite ref_eqb_refl. }
  assert (Hhere0 : forall rb,
            branch_of rb = b -> awaited b (P ++ [rb]) = delivered (result rb)).
  { intros rb Hrb. rewrite awaited_app, (awaited_absent _ _ Hnb), awaited_one, Hrb.
    now rewrite ref_eqb_refl. }
  assert (Helse : forall k rb rb',
            k <> b -> k <> Branch id ->
            branch_of rb = b -> branch_of rb' = b ->
            awaited k ((P ++ readers item (Branch id)) ++ [rb]) =
            awaited k (P ++ [rb'])).
  { intros k rb rb' Hkb Hkid Hrb Hrb'. rewrite !awaited_app, !awaited_one, Hrb, Hrb'.
    rewrite (ref_eqb_neq b k) by congruence.
    rewrite (awaited_readers_other item (Branch id) k) by congruence.
    now rewrite !app_nil_r. }
  rewrite Hc2, Hc1. destruct b as [|j].
  - rewrite map_app, (cmodify_absent_list id _ _ Hfc). cbn [map cmodify].
    rewrite Nat.eqb_refl. cbn [set_text].
    apply expected_add_root; [exact Hfc| |].
    + intros k Hk. apply Helse; try reflexivity; congruence.
    + rewrite Hhere0, Hhere, Hself by reflexivity. cbn [result delivered map].
      now rewrite (tree_of_readers item (Branch id)).
  - rewrite map_map.
    rewrite (map_ext_in _ (cmodify j (add_kid
               (Node id (sanitized (entry_name item)) (str "Directory or File Name") [])))).
    + apply expected_add_kid; [exact Hndc|exact Hfc| | |].
      * intros k Hkj Hkid. apply Helse; try reflexivity; congruence.
      * rewrite Hhere0, Hhere, Hself by reflexivity. cbn [result delivered map].
        now rewrite (tree_of_readers item (Branch id)).
      * apply Helse; try reflexivity; discriminate.
    + intros x Hx. apply cmodify_set_text_add_kid. intros Hi. apply Hfc.
      unfold cids. apply in_flat_map. now exists x.
Qed.

Lemma expected_agree P P' t :
  (forall k, awaited k P = awaited k P') -> expected P t = expected P' t.
Proof.
  intros H. unfold expected. rewrite (H RootBranch). f_equal.
  apply map_ext. intros c. apply expected_node_agree. intros j _. apply H.
Qed.

Lemma expected_node_nil c : expected_node [] c = anon c.
Proof.
  induction c as [j v h k IH] using node_ind'. cbn [expected_node anon awaited flat_map].
  rewrite app_nil_r. f_equal. now apply map_ext_Forall.
Qed.

Lemma expected_nil t : expected [] t = map anon t.
Proof.
  unfold expected. cbn [awaited flat_map]. rewrite app_nil_r.
  apply map_ext. intros c. apply expected_node_nil.
Qed.

(** The success callback, started on a branch of the tree that no other
    call waits for, runs to its end and leaves as many children below the
    branch as it has entries, each waiting for its own listing. *)
Lemma _traverse_entries_spec cfg entries :
  forall b e P,
    drop_ok (e, P) ->
    present (listEntry e) b ->
    ~ In b (map branch_of P) ->
    exists e' P',
      _traverse_entries cfg entries b (e, P) = Some (e', P') /\
      drop_ok (e', P') /\
      value (root e') = value (root e) /\
      delayUpdate e' = delayUpdate e /\
      waiting P' = waiting P + list_sum (map weight entries) /\
      expected P' (content (listEntry e')) =
      expected (P ++ [{| branch_of := b; result := Some entries |}])
        (content (listEntry e)).
Proof.
  induction entries as [|item rest IH]; intros b e P Hok Hb Hnb.
  - exists e, P. cbn [_traverse_entries map list_sum].
    split; [reflexivity|]. split; [exact Hok|]. split; [reflexivity|].
    split; [reflexivity|]. split; [change (list_sum []) with 0; lia|].
    apply expected_agree. intros k. rewrite awaited_app, awaited_one.
    cbn [result delivered map]. destruct (ref_eqb _ _); now rewrite app_nil_r.
  - destruct (_traverse_item_spec cfg item b e P Hok Hb Hnb)
      as (e2 & P1 & Hstep & Hok2 & Hb2 & Hnb2 & Hr2 & Hd2 & Hw2 & Hexp2).
    destruct (IH b e2 P1 Hok2 Hb2 Hnb2)
      as (e' & P' & Hrun & Hok' & Hr' & Hd' & Hw' & Hexp').
    exists e', P'. cbn [_traverse_entries]. rewrite Hstep.
    split; [exact Hrun|]. split; [exact Hok'|].
    split; [congruence|]. split; [congruence|].
    split.
    { change (list_sum (map weight (item :: rest)))
        with (weight item + list_sum (map weight rest)). lia. }
    now rewrite Hexp', Hexp2.
Qed.

Lemma remove_nth_app {A : Type} (l1 : list A) x l2 :
  remove_nth (length l1) (l1 ++ x :: l2) = l1 ++ l2.
Proof. induction l1 as [|y l1 IH]; cbn; [reflexivity|now rewrite IH]. Qed.

Lemma reading_eta r : {| branch_of := branch_of r; result := result r |} = r.
Proof. now destruct r. Qed.

(** One delivery: the callback never acts outside the tree, one call
    less is waiting, and the tree to come is the same. *)
Lemma read_done_spec cfg k e P r :
  drop_ok (e, P) ->
  nth_error P k = Some r ->
  exists e' P',
    read_done cfg k (e, P) = Some (e', P') /\
    drop_ok (e', P') /\
    value (root e') = value (root e) /\
    delayUpdate e' = delayUpdate e /\
    S (waiting P') = waiting P /\
    expected P' (content (listEntry e')) = expected P (content (listEntry e)).
Proof.
  intros (Hwf & Hkeys & Hwait) Hk. cbn [fst snd] in *.
  apply nth_error_split in Hk as (l1 & l2 & -> & <-).
  assert (Hnb : ~ In (branch_of r) (map branch_of (l1 ++ l2))).
  { rewrite map_app in *. cbn [map] in Hkeys. now apply NoDup_remove_2 in Hkeys. }
  assert (Hok : drop_ok (e, l1 ++ l2)).
  { split; [exact Hwf|]. split; cbn [fst snd].
    - rewrite map_app in *. cbn [map] in Hkeys. now apply NoDup_remove_1 in Hkeys.
    - apply Forall_app in Hwait as [H1 H2]. inversion H2; subst.
      apply Forall_app. now split. }
  assert (Hb : present (listEntry e) (branch_of r)).
  { apply Forall_app in Hwait as [_ H2]. now inversion H2. }
  assert (Hw : waiting (l1 ++ r :: l2) = waiting (l1 ++ l2) + weight_of r).
  { change (r :: l2) with ([r] ++ l2). rewrite !waiting_app.
    assert (H1 : waiting [r] = weight_of r) by (unfold waiting, list_sum; cbn [map fold_right]; lia).
    lia. }
  assert (Hsame : forall entries,
            delivered (result r) = delivered (Some entries) ->
            forall key,
              awaited key ((l1 ++ l2) ++
                           [{| branch_of := branch_of r; result := Some entries |}]) =
              awaited key (l1 ++ r :: l2)).
  { intros entries Hres key. rewrite !awaited_app, awaited_one, awaited_cons.
    cbn [branch_of result]. rewrite <- Hres.
    destruct (ref_eqb (branch_of r) key) eqn:E.
    - assert (key = branch_of r) as ->.
      { destruct (branch_of r) as [|i], key as [|j]; cbn in E; try discriminate;
          [reflexivity|]. apply Nat.eqb_eq in E. now subst. }
      rewrite map_app, in_app_iff in Hnb.
      rewrite (awaited_absent _ l2) by tauto. now rewrite !app_nil_r.
    - now rewrite !app_nil_r. }
  unfold read_done. cbn [fst snd].
  rewrite nth_error_app2, Nat.sub_diag by lia. cbn [nth_error].
  rewrite remove_nth_app.
  destruct (result r) as [entries|] eqn:Hres.
  - destruct (_traverse_entries_spec cfg entries (branch_of r) e (l1 ++ l2) Hok Hb Hnb)
      as (e' & P' & Hrun & Hok' & Hr' & Hd' & Hw' & Hexp').
    exists e', P'. split; [exact Hrun|]. split; [exact Hok'|].
    split; [exact Hr'|]. split; [exact Hd'|].
    split. { rewrite Hw, Hw'. unfold weight_of. rewrite Hres. lia. }
    rewrite Hexp'. apply expected_agree. now apply Hsame.
  - exists e, (l1 ++ l2). split; [reflexivity|]. split; [exact Hok|].
    split; [reflexivity|]. split; [reflexivity|].
    split. { rewrite Hw. unfold weight_of. rewrite Hres. lia. }
    apply expected_agree. intros key.
    rewrite <- (Hsame [] eq_refl key), (awaited_app key (l1 ++ l2)), awaited_one.
    cbn [result delivered map]. destruct (ref_eqb _ _); now rewrite app_nil_r.
Qed.

Lemma read_done_none cfg k s : nth_error (snd s) k = None -> read_done cfg k s = Some s.
Proof. intros H. unfold read_done. now rewrite H. Qed.

(** Deliveries in any order. *)
Lemma deliveries_spec cfg ks :
  forall e P,
    drop_ok (e, P) ->
    exists e' P',
      deliveries cfg ks (e, P) = Some (e', P') /\
      drop_ok (e', P') /\
      value (root e') = value (root e) /\
      delayUpdate e' = delayUpdate e /\
      expected P' (content (listEntry e')) = expected P (content (listEntry e)).
Proof.
  induction ks as [|k ks IH]; intros e P Hok.
  - exists e, P. split; [reflexivity|]. split; [exact Hok|]. now repeat split.
  - cbn [deliveries]. destruct (nth_error P k) as [r|] eqn:Hk.
    + destruct (read_done_spec cfg k e P r Hok Hk)
        as (e1 & P1 & Hrun & Hok1 & Hr1 & Hd1 & _ & Hexp1).
      destruct (IH e1 P1 Hok1) as (e' & P' & Hrun' & Hok' & Hr' & Hd' & Hexp').
      exists e', P'. rewrite Hrun. split; [exact Hrun'|]. split; [exact Hok'|].
      split; [congruence|]. split; [congruence|]. now rewrite Hexp', Hexp1.
    + rewrite (read_done_none cfg k (e, P) Hk). now apply IH.
Qed.

Lemma waiting_nil P : waiting P = 0 -> P = [].
Proof. destruct P as [|r P]; [reflexivity|]. unfold waiting, weight_of. cbn. lia. Qed.

(** Delivering the call that waits longest, again and again, comes to an
    end. *)
Lemma deliveries_finish cfg n :
  forall e P,
    drop_ok (e, P) ->
    waiting P <= n ->
    exists e', deliveries cfg (repeat 0 n) (e, P) = Some (e', []).
Proof.
  induction n as [|n IH]; intros e P Hok Hn.
  - exists e. cbn [repeat deliveries]. rewrite (waiting_nil P); [reflexivity|lia].
  - cbn [repeat deliveries]. destruct P as [|r P].
    + rewrite read_done_none by reflexivity.
      apply IH; [exact Hok|apply Nat.le_0_l].
    + destruct (read_done_spec cfg 0 e (r :: P) r Hok eq_refl)
        as (e1 & P1 & Hrun & Hok1 & _ & _ & Hw & _).
      rewrite Hrun. apply IH; [exact Hok1|lia].
Qed.

Lemma _handleDrop_directory cfg e name reads :
  exists e0,
    _handleDrop cfg (Directory name reads) (e, []) =
      (e0, [{| branch_of := RootBranch; result := reads |}]) /\
    listEntry e0 = [] /\
    value (root e0) = sanitized name /\
    delayUpdate e0 = false.
Proof.
  eexists. split; [reflexivity|]. cbn [fst snd _traverse].
  split; [|split].
  - unfold update. cbn [delayUpdate with_delayUpdate render _addMenuListeners
                        listEntry with_listEntry with_root on_input clear].
    now rewrite clear_loop_nil.
  - now rewrite value_root_update.
  - now rewrite delayUpdate_update.
Qed.

Lemma drop_ok_start e r :
  listEntry e = [] -> branch_of r = RootBranch -> drop_ok (e, [r]).
Proof.
  intros Hf Hr. split; [|split]; cbn [fst snd].
  - unfold wf. rewrite Hf. split; constructor.
  - cbn [map]. constructor; [easy|constructor].
  - constructor; [|constructor]. unfold waits_in. now rewrite Hr.
Qed.

(** X13.  A directory dropped on the page, with no earlier drop still
    being read and no user action until the listings are in: the tree is
    emptied, the root takes the name of the directory, and the listings
    are read in.  In whatever order the browser delivers the listings,
    no callback meets a branch that is not in the tree, some order
    delivers them all, and once all are delivered the tree holds the
    entries of every listing that was delivered, each directory with its
    entries below it in the order of its listing, and every element
    once.  A directory whose listing fails stays without children. *)
Theorem folder_drop_builds_the_listed_tree
    (cfg : prefix_tokens) (e : editor) (name : jsstring)
    (reads : option (list entry)) :
  (forall ks, exists s', deliveries cfg ks
                           (_handleDrop cfg (Directory name reads) (e, [])) = Some s') /\
  (exists ks e', deliveries cfg ks
                   (_handleDrop cfg (Directory name reads) (e, [])) = Some (e', [])) /\
  (forall ks e',
     deliveries cfg ks (_handleDrop cfg (Directory name reads) (e, [])) =
       Some (e', []) ->
     value (root e') = sanitized name /\
     labels (listEntry e') = delivered reads /\
     NoDup (ids (listEntry e'))).
Proof.
  destruct (_handleDrop_directory cfg e name reads) as (e0 & -> & Hf & Hr & Hd).
  pose proof (drop_ok_start e0 {| branch_of := RootBranch; result := reads |}
                Hf eq_refl) as Hok.
  split; [|split].
  - intros ks. destruct (deliveries_spec cfg ks e0 _ Hok) as (e' & P' & Hrun & _).
    now exists (e', P').
  - exists (repeat 0 (waiting [{| branch_of := RootBranch; result := reads |}])).
    now apply deliveries_finish.
  - intros ks e' Hrun.
    destruct (deliveries_spec cfg ks e0 _ Hok)
      as (e1 & P1 & Hrun1 & Hok1 & Hr1 & _ & Hexp1).
    rewrite Hrun in Hrun1. injection Hrun1 as <- <-.
    split; [congruence|]. split; [|apply Hok1].
    unfold labels. rewrite <- expected_nil, Hexp1, Hf. unfold expected.
    cbn [content map app]. rewrite awaited_one. cbn [branch_of result ref_eqb].
    reflexivity.
Qed.

Lemma folder_drop_builds_the_listed_tree_witness :
  exists e',
    deliveries prefix [0; 1; 1; 0; 0]
      (_handleDrop prefix (Directory (str "proj") dropped) (example, [])) =
      Some (e', []) /\
    value (root e') = str "proj" /\
    labels (listEntry e') = delivered dropped.
Proof.
  pose proof (folder_drop_builds_the_listed_tree prefix example (str "proj") dropped)
    as (_ & _ & H).
  eexists. split; [vm_compute; reflexivity|].
  match goal with
  | |- value (root ?e) = _ /\ _ =>
      destruct (H [0; 1; 1; 0; 0] e) as (Hv & Hl & _); [vm_compute; reflexivity|]
  end.
  split; [exact Hv|exact Hl].
Defined.

(** *** The page is rendered at every delivery *)

Lemma retouch_absent id g n : ~ In id (ids_li n) -> retouch id g n = n.
Proof.
  induction n as [j inp d|j inp d k IH] using li_rect'; intros H;
    cbn [retouch]; cbn [ids_li] in H;
    (destruct (j =? id) eqn:E;
     [apply Nat.eqb_eq in E; exfalso; apply H; now left|]); [reflexivity|].
  do 2 f_equal. rewrite <- (map_id k) at 2. apply map_ext_in. intros x Hx.
  rewrite Forall_forall in IH. apply IH; [exact Hx|]. intros Hi. apply H.
  right. apply in_flat_map. now exists x.
Qed.

Lemma modify_li_retouch id g n :
  NoDup (ids_li n) -> modify_li id (with_input g) n = retouch id g n.
Proof.
  induction n as [j inp d|j inp d k IH] using li_rect'; intros Hnd;
    cbn [modify_li retouch]; destruct (j =? id) eqn:E; try reflexivity.
  - cbn [with_input]. do 2 f_equal. rewrite <- (map_id k) at 1.
    apply map_ext_in. intros x Hx. symmetry. apply retouch_absent.
    apply Nat.eqb_eq in E. subst j. cbn [ids_li] in Hnd.
    inversion Hnd as [|a l Hnot _]; subst. intros Hi. apply Hnot.
    apply in_flat_map. now exists x.
  - do 2 f_equal. apply map_ext_in. intros x Hx. rewrite Forall_forall in IH.
    apply IH; [exact Hx|]. cbn [ids_li] in Hnd. inversion Hnd as [|a l _ Hk]; subst.
    now apply NoDup_flat_map_in with k.
Qed.

Lemma modify_retouch id g f :
  NoDup (ids f) -> modify id (with_input g) f = map (retouch id g) f.
Proof.
  intros Hnd. unfold modify. apply map_ext_in. intros x Hx.
  apply modify_li_retouch. now apply NoDup_flat_map_in with f.
Qed.

Lemma children_retouch id g n :
  children (retouch id g n) = map (retouch id g) (children n).
Proof. destruct n as [j inp d [k|]]; reflexivity. Qed.

Lemma rendered_on_input cfg t g e :
  NoDup (ids (listEntry e)) -> rendered cfg e -> rendered cfg (on_input t g e).
Proof.
  intros Hnd Hr. destruct t as [|id]; [exact Hr|].
  unfold rendered. cbn [on_input listEntry with_listEntry].
  rewrite (modify_retouch id g _ Hnd). intros p m Hm.
  rewrite (node_at_map _ (children_retouch id g)) in Hm.
  rewrite (spec_prefix_map cfg _ (children_retouch id g)).
  destruct (node_at (listEntry e) p) as [m0|] eqn:Hm0; [|discriminate].
  cbn [option_map] in Hm. injection Hm as <-. rewrite <- (Hr p m0 Hm0).
  now destruct m0.
Qed.

Lemma rendered_update cfg e :
  delayUpdate e = false -> NoDup (ids (listEntry e)) -> rendered cfg (update cfg e).
Proof. intros Hd Hnd p m Hm. now apply update_annotates. Qed.

Lemma addChild_rendered cfg b e li e1 :
  wf e -> delayUpdate e = false ->
  addChild cfg b e = Returns li e1 -> rendered cfg e1.
Proof.
  intros Hwf Hd. unfold addChild. destruct b as [|j].
  - intros H. injection H as _ <-. apply rendered_update; [exact Hd|].
    cbn [listEntry with_listEntry with_nextId].
    unfold ids. rewrite flat_map_app. cbn [flat_map newNode_li ids_li app].
    apply NoDup_snoc; [apply Hwf|now apply wf_fresh].
  - destruct (inside j (listEntry e)) eqn:Hin; [|discriminate].
    intros H. injection H as _ <-. apply rendered_update; [exact Hd|].
    cbn [listEntry with_listEntry with_nextId].
    pose proof (perm_appendChild_in j (newNode_li (nextId e)) _ (proj1 Hwf)
                  (inside_ids _ _ Hin)) as Hp.
    apply (Permutation_NoDup (Permutation_sym Hp)).
    cbn [newNode_li ids_li app]. constructor; [now apply wf_fresh|apply Hwf].
Qed.

Lemma _traverse_item_rendered cfg item b e P e2 P1 :
  wf e -> delayUpdate e = false ->
  _traverse_item cfg item b (e, P) = Some (e2, P1) -> rendered cfg e2.
Proof.
  intros Hwf Hd. rewrite _traverse_item_eq.
  destruct (addChild cfg b e) as [li e1| |] eqn:Hadd; try discriminate.
  intros H. injection H as <- _.
  apply (rendered_on_input cfg (Branch (li_id li)) (set_value (entry_name item)) e1).
  - apply (wf_settle_addChild cfg b e e1 Hwf). now rewrite Hadd.
  - now apply addChild_rendered with b e li.
Qed.

Lemma _traverse_entries_rendered cfg entries :
  forall b e P e' P',
    drop_ok (e, P) ->
    present (listEntry e) b ->
    ~ In b (map branch_of P) ->
    delayUpdate e = false ->
    rendered cfg e ->
    _traverse_entries cfg entries b (e, P) = Some (e', P') ->
    rendered cfg e'.
Proof.
  induction entries as [|item rest IH]; intros b e P e' P' Hok Hb Hnb Hd Hr Hrun.
  - cbn [_traverse_entries] in Hrun. injection Hrun as <- _. exact Hr.
  - cbn [_traverse_entries] in Hrun.
    destruct (_traverse_item_spec cfg item b e P Hok Hb Hnb)
      as (e2 & P1 & Hstep & Hok2 & Hb2 & Hnb2 & _ & Hd2 & _).
    rewrite Hstep in Hrun.
    apply (IH b e2 P1 e' P' Hok2 Hb2 Hnb2); [congruence| |exact Hrun].
    apply (_traverse_item_rendered cfg item b e P e2 P1 (proj1 Hok) Hd Hstep).
Qed.

Lemma read_done_rendered cfg k e P e' P' :
  drop_ok (e, P) ->
  delayUpdate e = false ->
  rendered cfg e ->
  read_done cfg k (e, P) = Some (e', P') ->
  rendered cfg e'.
Proof.
  intros Hok Hd Hr. unfold read_done. cbn [fst snd].
  destruct (nth_error P k) as [r|] eqn:Hk;
    [|intros H; injection H as <- _; exact Hr].
  destruct (result r) as [entries|] eqn:Hres;
    [|intros H; injection H as <- _; exact Hr].
  destruct Hok as (Hwf & Hkeys & Hwait). cbn [fst snd] in *.
  apply nth_error_split in Hk as (l1 & l2 & -> & <-).
  rewrite remove_nth_app.
  apply (_traverse_entries_rendered cfg entries (branch_of r) e (l1 ++ l2));
    try assumption.
  - split; [exact Hwf|]. split; cbn [fst snd].
    + rewrite map_app in *. cbn [map] in Hkeys. now apply NoDup_remove_1 in Hkeys.
    + apply Forall_app in Hwait as [H1 H2]. inversion H2; subst.
      apply Forall_app. now split.
  - apply Forall_app in Hwait as [_ H2]. now inversion H2.
  - rewrite map_app in *. cbn [map] in Hkeys. now apply NoDup_remove_2 in Hkeys.
Qed.

Lemma deliveries_rendered cfg ks :
  forall e P e' P',
    drop_ok (e, P) ->
    delayUpdate e = false ->
    rendered cfg e ->
    deliveries cfg ks (e, P) = Some (e', P') ->
    delayUpdate e' = false /\ rendered cfg e'.
Proof.
  induction ks as [|k ks IH]; intros e P e' P' Hok Hd Hr Hrun.
  - cbn [deliveries] in Hrun. injection Hrun as <- _. now split.
  - cbn [deliveries] in Hrun.
    destruct (read_done cfg k (e, P)) as [[e1 P1]|] eqn:Hstep; [|discriminate].
    assert (Hok1 : drop_ok (e1, P1) /\ delayUpdate e1 = false).
    { destruct (nth_error P k) as [r|] eqn:Hk.
      - destruct (read_done_spec cfg k e P r Hok Hk)
          as (e1' & P1' & Hrun' & Hok' & _ & Hd' & _).
        rewrite Hstep in Hrun'. injection Hrun' as <- <-. split; [exact Hok'|congruence].
      - rewrite (read_done_none cfg k (e, P) Hk) in Hstep.
        injection Hstep as <- <-. now split. }
    destruct Hok1 as [Hok1 Hd1].
    apply (IH e1 P1 e' P' Hok1 Hd1); [|exact Hrun].
    now apply (read_done_rendered cfg k e P e1 P1).
Qed.

(** X14.  After a directory is dropped, [delayUpdate] is off again
    before the first listing arrives, so each callback renders the tree
    as it adds to it: after any number of deliveries, in any order (and
    no user action in between), every branch on the page carries the
    prefix of its position, ancestor spacers then connector. *)
Theorem folder_drop_renders_at_every_delivery
    (cfg : prefix_tokens) (e e' : editor) (name : jsstring)
    (reads : option (list entry)) (ks : list nat) (P' : list reading) :
  deliveries cfg ks (_handleDrop cfg (Directory name reads) (e, [])) = Some (e', P') ->
  delayUpdate e' = false /\
  forall p m,
    node_at (listEntry e') p = Some m ->
    dataset_prefix m = Some (spec_prefix cfg (listEntry e') p).
Proof.
  destruct (_handleDrop_directory cfg e name reads) as (e0 & -> & Hf & Hr & Hd).
  pose proof (drop_ok_start e0 {| branch_of := RootBranch; result := reads |}
                Hf eq_refl) as Hok.
  intros Hrun.
  apply (deliveries_rendered cfg ks e0 _ e' P' Hok Hd); [|exact Hrun].
  intros p m Hm. rewrite Hf in Hm. now rewrite node_at_nil in Hm.
Qed.

Lemma folder_drop_renders_at_every_delivery_witness :
  exists e' P',
    deliveries prefix [0; 1]
      (_handleDrop prefix (Directory (str "proj") dropped) (example, [])) =
      Some (e', P') /\
    delayUpdate e' = false /\
    forall p m,
      node_at (listEntry e') p = Some m ->
      dataset_prefix m = Some (spec_prefix prefix (listEntry e') p).
Proof.
  eexists. eexists. split; [vm_compute; reflexivity|].
  eapply folder_drop_renders_at_every_delivery
    with (e := example) (name := str "proj") (reads := dropped) (ks := [0; 1]).
  vm_compute. reflexivity.
Defined.

(** *** The export after a drop *)

Lemma anon_content_inv n m :
  anon (content_li n) = anon (content_li m) ->
  value (li_input n) = value (li_input m) /\
  placeholder (li_input n) = placeholder (li_input m) /\
  labels (children n) = labels (children m).
Proof.
  destruct n as [j inp d [k|]], m as [j' inp' d' [k'|]];
    cbn [content_li anon li_input children li_ul labels content map];
    intros H; inversion H; repeat split; reflexivity.
Qed.

Lemma labels_length f g : labels f = labels g -> length f = length g.
Proof.
  intros H. apply (f_equal (@length names)) in H. unfold labels, content in H.
  now rewrite !length_map in H.
Qed.

Lemma shown_trace_loop_labels cfg f :
  Forall (fun n => forall m spacers last,
            anon (content_li n) = anon (content_li m) ->
            map shown (trace_item cfg spacers last n) =
            map shown (trace_item cfg spacers last m)) f ->
  forall g spacers l i,
    labels f = labels g ->
    map shown (trace_loop cfg spacers l f i) =
    map shown (trace_loop cfg spacers l g i).
Proof.
  induction 1 as [|x r Hx _ IH]; intros [|y g] spacers l i Hc;
    try discriminate Hc; [reflexivity|].
  unfold labels in Hc. cbn [content map] in Hc. injection Hc as Hxy Hrg.
  cbn [trace_loop]. rewrite !map_app. f_equal; [now apply Hx|now apply IH].
Qed.

Lemma shown_trace_item_labels cfg n :
  forall m spacers last,
    anon (content_li n) = anon (content_li m) ->
    map shown (trace_item cfg spacers last n) =
    map shown (trace_item cfg spacers last m).
Proof.
  induction n as [j inp d|j inp d k IH] using li_rect'; intros m spacers last Hc;
    destruct (anon_content_inv _ _ Hc) as (Hv & Hp & Hk);
    rewrite !trace_item_children; cbn [map]; f_equal;
    try (unfold shown, label; cbn [fst snd]; now rewrite Hv, Hp).
  - cbn [children li_ul] in *. destruct (children m); [reflexivity|discriminate Hk].
  - cbn [children li_ul] in *. rewrite (labels_length _ _ Hk).
    now apply shown_trace_loop_labels.
Qed.

(** The export is decided by the labels: which element holds a label
    does not show. *)
Lemma toString_labels cfg e e' :
  label (root e) = label (root e') ->
  labels (listEntry e) = labels (listEntry e') ->
  toString cfg e = toString cfg e'.
Proof.
  intros Hr Hc. rewrite !toString_calls, Hr. do 2 f_equal.
  rewrite !calls_trace, (labels_length _ _ Hc).
  assert (Hs : forall l : list (li * jsstring),
    map (fun c => LF :: snd c ++ SP :: label (li_input (fst c))) l =
    map (fun s => LF :: snd s ++ SP :: fst s) (map shown l)).
  { intros l. rewrite map_map. reflexivity. }
  assert (Hall : Forall (fun n => forall m spacers last,
            anon (content_li n) = anon (content_li m) ->
            map shown (trace_item cfg spacers last n) =
            map shown (trace_item cfg spacers last m)) (listEntry e))
    by (apply Forall_forall; intros n _; apply shown_trace_item_labels).
  now rewrite !Hs, (shown_trace_loop_labels cfg _ Hall (listEntry e') [] _ 0 Hc).
Qed.

Lemma placeholder_root_update cfg e :
  placeholder (root (update cfg e)) = placeholder (root e).
Proof. unfold update. now destruct (delayUpdate e). Qed.

Lemma placeholder_root_addChild cfg b e li e1 :
  addChild cfg b e = Returns li e1 -> placeholder (root e1) = placeholder (root e).
Proof.
  unfold addChild. destruct b as [|j]; [|destruct (inside j (listEntry e))];
    try discriminate; intros H; injection H as _ <-;
    now rewrite placeholder_root_update.
Qed.

Lemma placeholder_root__traverse_entries cfg entries :
  forall b e P e' P',
    _traverse_entries cfg entries b (e, P) = Some (e', P') ->
    placeholder (root e') = placeholder (root e).
Proof.
  induction entries as [|item rest IH]; intros b e P e' P' Hrun;
    cbn [_traverse_entries] in Hrun; [now injection Hrun as <- _|].
  rewrite _traverse_item_eq in Hrun.
  destruct (addChild cfg b e) as [li e1| |] eqn:Hadd; try discriminate.
  rewrite (IH _ _ _ _ _ Hrun). cbn [on_input root with_listEntry].
  now apply placeholder_root_addChild with cfg b li.
Qed.

Lemma placeholder_root_deliveries cfg ks :
  forall e P e' P',
    deliveries cfg ks (e, P) = Some (e', P') ->
    placeholder (root e') = placeholder (root e).
Proof.
  induction ks as [|k ks IH]; intros e P e' P' Hrun; cbn [deliveries] in Hrun;
    [now injection Hrun as <- _|].
  destruct (read_done cfg k (e, P)) as [[e1 P1]|] eqn:Hstep; [|discriminate].
  rewrite (IH _ _ _ _ Hrun). unfold read_done in Hstep. cbn [fst snd] in Hstep.
  destruct (nth_error P k) as [r|]; [|now injection Hstep as <- _].
  destruct (result r) as [entries|]; [|now injection Hstep as <- _].
  now apply placeholder_root__traverse_entries with cfg entries (branch_of r)
        (remove_nth k P) P1.
Qed.

(** X15.  The export after a folder drop does not depend on the order
    in which the listings arrived: two runs of the same drop that have
    delivered every listing, in whatever orders and with no user action
    in between, hold the same tree of labels and export the same text. *)
Theorem folder_drop_export_is_independent_of_arrival
    (cfg : prefix_tokens) (e e1 e2 : editor) (name : jsstring)
    (reads : option (list entry)) (ks1 ks2 : list nat) :
  deliveries cfg ks1 (_handleDrop cfg (Directory name reads) (e, [])) = Some (e1, []) ->
  deliveries cfg ks2 (_handleDrop cfg (Directory name reads) (e, [])) = Some (e2, []) ->
  labels (listEntry e1) = labels (listEntry e2) /\
  toString cfg e1 = toString cfg e2.
Proof.
  destruct (_handleDrop_directory cfg e name reads) as (e0 & -> & Hf & Hr & Hd).
  pose proof (drop_ok_start e0 {| branch_of := RootBranch; result := reads |}
                Hf eq_refl) as Hok.
  intros H1 H2.
  destruct (deliveries_spec cfg ks1 e0 _ Hok) as (a1 & Q1 & Ha1 & _ & Hv1 & _ & Hx1).
  destruct (deliveries_spec cfg ks2 e0 _ Hok) as (a2 & Q2 & Ha2 & _ & Hv2 & _ & Hx2).
  rewrite H1 in Ha1. injection Ha1 as <- <-.
  rewrite H2 in Ha2. injection Ha2 as <- <-.
  assert (Hl : labels (listEntry e1) = labels (listEntry e2)).
  { unfold labels. now rewrite <- !expected_nil, Hx1, Hx2. }
  split; [exact Hl|]. apply toString_labels; [|exact Hl].
  unfold label. rewrite Hv1, Hv2.
  now rewrite (placeholder_root_deliveries cfg ks1 _ _ _ _ H1),
              (placeholder_root_deliveries cfg ks2 _ _ _ _ H2).
Qed.

Lemma folder_drop_export_is_independent_of_arrival_witness :
  exists e1 e2,
    deliveries prefix [0; 1; 1; 0; 0]
      (_handleDrop prefix (Directory (str "proj") dropped) (example, [])) =
      Some (e1, []) /\
    deliveries prefix [0; 0; 0; 0; 0]
      (_handleDrop prefix (Directory (str "proj") dropped) (example, [])) =
      Some (e2, []) /\
    labels (listEntry e1) = labels (listEntry e2) /\
    toString prefix e1 = toString prefix e2.
Proof.
  eexists. eexists. split; [vm_compute; reflexivity|].
  split; [vm_compute; reflexivity|].
  eapply folder_drop_export_is_independent_of_arrival
    with (e := example) (name := str "proj") (reads := dropped)
         (ks1 := [0; 1; 1; 0; 0]) (ks2 := [0; 0; 0; 0; 0]);
    vm_compute; reflexivity.
Defined.

(** ** No label holds a line break *)

Section Inputs.

Variable Q : input -> Prop.

Lemma inputs_li_eq n : inputs_li n = li_input n :: inputs (children n).
Proof. destruct n as [j inp d [k|]]; reflexivity. Qed.

Lemma Forall_inputs f :
  Forall Q (inputs f) <-> Forall (fun n => Forall Q (inputs_li n)) f.
Proof. unfold inputs. apply Forall_flat_map. Qed.

Lemma Forall_inputs_li n :
  Forall Q (inputs_li n) <-> Q (li_input n) /\ Forall Q (inputs (children n)).
Proof. rewrite inputs_li_eq. apply Forall_cons_iff. Qed.

Lemma Forall_inputs_app f g :
  Forall Q (inputs (f ++ g)) <-> Forall Q (inputs f) /\ Forall Q (inputs g).
Proof. unfold inputs. rewrite flat_map_app. apply Forall_app. Qed.

Lemma inputs_map_li (h : li -> li) :
  (forall n, Forall Q (inputs_li n) -> Forall Q (inputs_li (h n))) ->
  forall f, Forall Q (inputs f) -> Forall Q (inputs (map h f)).
Proof.
  intros Hh f. rewrite !Forall_inputs, Forall_map. apply Forall_impl. exact Hh.
Qed.

Lemma inputs_map_inputs (g : input -> input) :
  (forall i, Q i -> Q (g i)) ->
  forall n, Forall Q (inputs_li n) -> Forall Q (inputs_li (map_inputs g n)).
Proof.
  intros Hg. induction n as [j inp d|j inp d k IH] using li_rect'.
  - cbn. intros H. inversion H; subst. constructor; [now apply Hg|constructor].
  - rewrite !Forall_inputs_li. cbn [map_inputs li_input children li_ul].
    intros [H1 H2]. split; [now apply Hg|].
    rewrite Forall_inputs in *. rewrite Forall_map.
    rewrite Forall_forall in *. intros x Hx. now apply IH, H2.
Qed.

Lemma inputs_set_dataset_prefix_li i s n :
  inputs_li (set_dataset_prefix_li i s n) = inputs_li n.
Proof.
  induction n as [j inp d|j inp d k IH] using li_rect'; [reflexivity|].
  cbn [set_dataset_prefix_li inputs_li]. f_equal.
  induction IH as [|x r Hx _ IHr]; [reflexivity|].
  cbn [map flat_map]. now rewrite Hx, IHr.
Qed.

Lemma inputs_writes l : forall f, inputs (fold_left write l f) = inputs f.
Proof.
  induction l as [|w l IH]; intros f; [reflexivity|].
  cbn [fold_left]. rewrite IH. unfold write, set_dataset_prefix, inputs.
  induction f as [|x r IHf]; [reflexivity|].
  cbn [map flat_map]. now rewrite inputs_set_dataset_prefix_li, IHf.
Qed.

Hypothesis Q_listeners : forall b i, Q i -> Q (set_hasListeners b i).

Lemma inputs_update cfg e :
  Forall Q (inputs (listEntry e)) -> Forall Q (inputs (listEntry (update cfg e))).
Proof.
  intros H. unfold update. destruct (delayUpdate e); [exact H|].
  cbn [render _addMenuListeners listEntry with_listEntry with_root].
  rewrite render_list_writes, inputs_writes.
  apply inputs_map_li; [|exact H]. apply inputs_map_inputs. apply Q_listeners.
Qed.

Lemma inputs_modify_li id (g : li -> li) :
  (forall n, Forall Q (inputs_li n) -> Forall Q (inputs_li (g n))) ->
  forall n, Forall Q (inputs_li n) -> Forall Q (inputs_li (modify_li id g n)).
Proof.
  intros Hg. induction n as [j inp d|j inp d k IH] using li_rect';
    cbn [modify_li]; destruct (j =? id); try apply Hg; [easy|].
  rewrite !Forall_inputs_li. cbn [li_input children li_ul].
  intros [H1 H2]. split; [exact H1|].
  rewrite Forall_inputs in *. rewrite Forall_map.
  rewrite Forall_forall in *. intros x Hx. now apply IH, H2.
Qed.

Lemma inputs_modify id (g : li -> li) f :
  (forall n, Forall Q (inputs_li n) -> Forall Q (inputs_li (g n))) ->
  Forall Q (inputs f) -> Forall Q (inputs (modify id g f)).
Proof. intros Hg. apply inputs_map_li. now apply inputs_modify_li. Qed.

Lemma inputs_appendChild_li item n :
  Forall Q (inputs_li item) ->
  Forall Q (inputs_li n) -> Forall Q (inputs_li (appendChild_li item n)).
Proof.
  intros Hi. rewrite !Forall_inputs_li.
  destruct n as [j inp d [k|]]; cbn [appendChild_li li_input children li_ul];
    intros [H1 H2]; (split; [exact H1|]).
  - apply Forall_inputs_app. split; [exact H2|].
    unfold inputs. cbn [flat_map]. now rewrite app_nil_r.
  - unfold inputs. cbn [flat_map]. now rewrite app_nil_r.
Qed.

Lemma inputs_with_input (g : input -> input) n :
  (forall i, Q i -> Q (g i)) ->
  Forall Q (inputs_li n) -> Forall Q (inputs_li (with_input g n)).
Proof.
  intros Hg. rewrite !Forall_inputs_li. destruct n as [j inp d ul].
  cbn [with_input li_input children li_ul]. intros [H1 H2]. split; [now apply Hg|exact H2].
Qed.

End Inputs.

Lemma single_line_listeners b i : single_line i -> single_line (set_hasListeners b i).
Proof. easy. Qed.

Lemma single_line_newNode : single_line newNode_input.
Proof. split; apply one_line_dec; reflexivity. Qed.

Lemma one_line_sanitized v : one_line (sanitized v).
Proof.
  intros H. apply filter_In in H as [_ H]. discriminate H.
Qed.

Lemma single_line_set_value v i : single_line i -> single_line (set_value v i).
Proof. intros [_ H]. split; [apply one_line_sanitized|exact H]. Qed.

Lemma tidy_update cfg e : tidy e -> tidy (update cfg e).
Proof.
  intros [Hr Hf]. split.
  - unfold update. destruct (delayUpdate e); [exact Hr|]. exact Hr.
  - now apply inputs_update; [apply single_line_listeners|].
Qed.

Lemma inputs_newNode_li id : Forall single_line (inputs_li (newNode_li id)).
Proof. constructor; [apply single_line_newNode|constructor]. Qed.

Lemma tidy_settle_addChild cfg b e e' :
  tidy e -> settle (addChild cfg b e) = Some e' -> tidy e'.
Proof.
  intros [Hr Hf]. unfold addChild. destruct b as [|id];
    [|destruct (inside id (listEntry e)); [|discriminate]];
    cbn [settle]; intros H; injection H as <-; apply tidy_update; split;
    try exact Hr; cbn [listEntry with_listEntry with_nextId].
  - apply Forall_inputs_app. split; [exact Hf|].
    unfold inputs. cbn [flat_map]. rewrite app_nil_r. apply inputs_newNode_li.
  - apply inputs_modify; [|exact Hf]. intros n.
    apply inputs_appendChild_li, inputs_newNode_li.
Qed.

Lemma tidy_on_input t g e :
  (forall i, single_line i -> single_line (g i)) -> tidy e -> tidy (on_input t g e).
Proof.
  intros Hg [Hr Hf]. destruct t as [|id]; split;
    cbn [on_input root listEntry with_root with_listEntry]; try assumption.
  - now apply Hg.
  - apply inputs_modify; [|exact Hf]. intros n. now apply inputs_with_input.
Qed.

Lemma one_line_label i : single_line i -> one_line (label i).
Proof. intros [Hv Hp]. unfold label, js_or. now destruct (value i). Qed.

Lemma walk_inputs_from f :
  Forall (fun n => map (fun c => li_input (snd c)) (walk_li n) = inputs_li n) f ->
  forall i, map (fun c => li_input (snd c)) (walk_from i f) = inputs f.
Proof.
  induction 1 as [|x r Hx _ IH]; intros i; [reflexivity|].
  cbn [walk_from]. unfold inputs. cbn [flat_map]. rewrite map_app, map_map.
  cbn [snd]. f_equal; [exact Hx|apply IH].
Qed.

Lemma walk_inputs_li n : map (fun c => li_input (snd c)) (walk_li n) = inputs_li n.
Proof.
  induction n as [j inp a|j inp a k IH] using li_rect'; [reflexivity|].
  rewrite walk_li_eq, inputs_li_eq. cbn [map snd li_input children li_ul]. f_equal.
  now apply walk_inputs_from.
Qed.

Lemma walk_inputs f : map (fun c => li_input (snd c)) (walk f) = inputs f.
Proof.
  apply walk_inputs_from. apply Forall_forall. intros n _. apply walk_inputs_li.
Qed.

Lemma tidy_labels_hold_no_line_feed e : tidy e -> labels_hold_no_line_feed e.
Proof.
  intros [Hr Hf]. split; [now apply one_line_label|].
  rewrite <- walk_inputs in Hf. rewrite Forall_map in Hf.
  revert Hf. apply Forall_impl. intros c. apply one_line_label.
Qed.

Lemma tidy__traverse_entries cfg entries :
  forall b e P e' P',
    tidy e -> _traverse_entries cfg entries b (e, P) = Some (e', P') -> tidy e'.
Proof.
  induction entries as [|item rest IH]; intros b e P e' P' Ht Hrun;
    cbn [_traverse_entries] in Hrun; [now injection Hrun as <- _|].
  rewrite _traverse_item_eq in Hrun.
  destruct (addChild cfg b e) as [li e1| |] eqn:Hadd; try discriminate.
  apply (IH _ _ _ _ _) in Hrun; [exact Hrun|].
  apply tidy_on_input; [intros i; apply single_line_set_value|].
  apply (tidy_settle_addChild cfg b e e1 Ht). now rewrite Hadd.
Qed.

Lemma tidy_deliveries cfg ks :
  forall e P e' P',
    tidy e -> deliveries cfg ks (e, P) = Some (e', P') -> tidy e'.
Proof.
  induction ks as [|k ks IH]; intros e P e' P' Ht Hrun; cbn [deliveries] in Hrun;
    [now injection Hrun as <- _|].
  destruct (read_done cfg k (e, P)) as [[e1 P1]|] eqn:Hstep; [|discriminate].
  apply (IH _ _ _ _) in Hrun; [exact Hrun|].
  unfold read_done in Hstep. cbn [fst snd] in Hstep.
  destruct (nth_error P k) as [r|]; [|now injection Hstep as <- _].
  destruct (result r) as [entries|]; [|now injection Hstep as <- _].
  now apply tidy__traverse_entries with cfg entries (branch_of r) e (remove_nth k P) P1.
Qed.

Lemma tidy__handleDrop cfg en e P : tidy e -> tidy (fst (_handleDrop cfg en (e, P))).
Proof.
  intros [Hr Hf]. destruct en as [name|name reads]; [now split|].
  cbn [_handleDrop fst snd _traverse]. apply tidy_update. split.
  - cbn. split; [apply one_line_sanitized|apply Hr].
  - cbn [on_input listEntry with_delayUpdate with_root clear with_listEntry].
    rewrite clear_loop_nil. constructor.
Qed.

Lemma tidy_dec e :
  forallb (fun i => negb (existsb is_LF (value i)) &&
                    negb (existsb is_LF (placeholder i)))
    (root e :: inputs (listEntry e)) = true ->
  tidy e.
Proof.
  intros H. rewrite forallb_forall in H.
  assert (Hs : forall i, In i (root e :: inputs (listEntry e)) -> single_line i).
  { intros i Hi. specialize (H i Hi). apply andb_true_iff in H as [H1 H2].
    split; apply one_line_dec; now apply negb_true_iff. }
  split; [apply Hs; now left|]. apply Forall_forall. intros i Hi. apply Hs. now right.
Qed.

Lemma deliveries_idle cfg ks e : deliveries cfg ks (e, []) = Some (e, []).
Proof.
  induction ks as [|k ks IH]; [reflexivity|]. cbn [deliveries].
  rewrite read_done_none; [exact IH|]. now destruct k.
Qed.

Lemma _handleDrop_deliveries cfg en ks e :
  exists s', deliveries cfg ks (_handleDrop cfg en (e, [])) = Some s'.
Proof.
  destruct en as [name|name reads].
  - exists (e, []). apply deliveries_idle.
  - destruct (_handleDrop_directory cfg e name reads) as (e0 & -> & Hf & _).
    destruct (deliveries_spec cfg ks e0 [{| branch_of := RootBranch; result := reads |}])
      as (e' & P' & Hrun & _); [now apply drop_ok_start|].
    now exists (e', P').
Qed.

(** X18.  No text from outside puts a line feed in a label.  On a page
    where neither a value nor a placeholder holds a line feed, typing any
    text into any input (the input drops line breaks) leaves such a page,
    and so does the drop of any file or directory, with no earlier drop
    still being read, at every stage of the delivery of its listings and
    whatever the names of its entries: every stage is reached, and at
    each the label of the root and of every node holds no line feed. *)
Theorem no_line_feed_enters_a_label (cfg : prefix_tokens) (e : editor) :
  tidy e ->
  (forall t v,
     tidy (on_input t (set_value v) e) /\
     labels_hold_no_line_feed (on_input t (set_value v) e)) /\
  (forall en ks,
     exists s',
       deliveries cfg ks (_handleDrop cfg en (e, [])) = Some s' /\
       tidy (fst s') /\ labels_hold_no_line_feed (fst s')).
Proof.
  intros Ht. split.
  - intros t v.
    assert (Ht' : tidy (on_input t (set_value v) e)).
    { apply tidy_on_input; [|exact Ht]. intros i. apply single_line_set_value. }
    split; [exact Ht'|now apply tidy_labels_hold_no_line_feed].
  - intros en ks. destruct (_handleDrop_deliveries cfg en ks e) as ([e' P'] & Hrun).
    exists (e', P'). split; [exact Hrun|].
    pose proof (tidy__handleDrop cfg en e [] Ht) as H0.
    destruct (_handleDrop cfg en (e, [])) as [e0 P0]. cbn [fst] in H0.
    pose proof (tidy_deliveries cfg ks e0 P0 e' P' H0 Hrun) as Ht'.
    split; [exact Ht'|now apply tidy_labels_hold_no_line_feed].
Qed.

Lemma no_line_feed_enters_a_label_witness :
  labels_hold_no_line_feed
    (on_input (Branch 2) (set_value (LF :: str "main.js")) example)
  /\ exists s',
       deliveries prefix [0; 1; 1; 0; 0]
         (_handleDrop prefix (Directory (LF :: str "proj") dropped) (example, [])) =
         Some s' /\
       labels_hold_no_line_feed (fst s').
Proof.
  destruct (no_line_feed_enters_a_label prefix example) as [H1 H2].
  - apply tidy_dec. vm_compute. reflexivity.
  - split; [apply H1|].
    destruct (H2 (Directory (LF :: str "proj") dropped) [0; 1; 1; 0; 0])
      as (s' & Hrun & _ & Hl).
    exists s'. split; [exact Hrun|exact Hl].
Defined.
